(** * Smart order router: entities, orchestrator and path graph

    A shallow embedding of the routing core of the SDK:
    - [entities/path.ts]  : [Path], [PathWithAmount] and the [Swap] route object;
    - the orchestrator     : [SmartOrderRouter.getSwaps];
    - the path graph       : [PathGraph.buildGraph] and the path search.

    JavaScript values are modelled as follows.  Objects compared with [===]
    carry an object identity ([t_oid]) so that record equality is reference
    equality.  A value that may be [undefined] is an [option].  A call that
    may throw (or an awaited promise that may reject) returns a [result].
    [bigint] is [Z]; the [number]s of the search configuration are integers
    and modelled as [Z] as well. *)

From Stdlib Require Import ZArith Ascii String Lia DecimalString.
From stdpp Require Import base option list gmap strings sorting.

Local Open Scope string_scope.
Local Open Scope list_scope.

(** ** Exceptions and the result monad *)

Inductive Error : Type :=
| JsError (msg : string)      (* [throw new Error(msg)] *)
| TypeError                   (* property read on [undefined], [reduce] of an empty array *)
| Rejected (reason : string)  (* failure raised by an external collaborator *)
| OutOfFuel.                  (* the recursion budget of the model ran out (no JS counterpart) *)

Inductive result (A : Type) : Type :=
| Ok (a : A)
| Err (e : Error).
Arguments Ok {A} a.
Arguments Err {A} e.

#[global] Instance result_ret : MRet result := fun _ a => Ok a.
#[global] Instance result_bind : MBind result := fun _ _ f m =>
  match m with Ok a => f a | Err e => Err e end.
#[global] Instance result_fmap : FMap result := fun _ _ f m =>
  match m with Ok a => Ok (f a) | Err e => Err e end.

Definition is_Ok {A} (r : result A) : bool :=
  match r with Ok _ => true | Err _ => false end.

(** ** Shared data model ([types.ts] and the entity classes) *)

Inductive SwapKind : Type := GivenIn | GivenOut.

Inductive PoolType : Type :=
| Weighted | ComposableStable | MetaStable | AaveLinear | Fx | Gyro2 | Gyro3 | GyroE.

#[global] Instance SwapKind_eq_dec : EqDecision SwapKind.
Proof. solve_decision. Defined.
#[global] Instance PoolType_eq_dec : EqDecision PoolType.
Proof. solve_decision. Defined.

(** A [Token] object.  The class itself is not part of the sources at hand;
    the fields are the ones the code reads ([address], [isNative], [wrapped]).
    [t_oid] is the identity of the JS object. *)
Record Token : Type := mkToken {
  t_oid : positive;
  t_address : string;
  t_isNative : bool;
  t_wrapped : string;
}.

#[global] Instance Token_eq_dec : EqDecision Token.
Proof. solve_decision. Defined.

(** [a === b] on token objects. *)
Definition token_same (a b : Token) : bool := bool_decide (a = b).

Record TokenAmount : Type := mkTokenAmount {
  ta_token : Token;
  ta_amount : Z;
}.

#[global] Instance TokenAmount_eq_dec : EqDecision TokenAmount.
Proof. solve_decision. Defined.

(** Modelled from the spec: [TokenAmount.add] is not in the sources.  The
    spec says that arithmetic is only valid between amounts of the same
    token and that mismatched-token arithmetic fails with [TokenMismatch]. *)
Definition TokenMismatch : Error := JsError "TokenMismatch".

Definition ta_add (a b : TokenAmount) : result TokenAmount :=
  if token_same (ta_token a) (ta_token b)
  then Ok (mkTokenAmount (ta_token a) (ta_amount a + ta_amount b))
  else Err TokenMismatch.

(** The [BasePool] capability contract.  The quoting functions are external
    collaborators: they receive whatever the caller passes, including
    [undefined], and may throw.  [swapGivenOut] is never called by the
    sources; it is the spec's [quoteGivenOut]. *)
Record Pool : Type := mkPool {
  p_id : string;
  p_address : string;
  p_poolType : PoolType;
  p_tokens : list TokenAmount;
  getNormalizedLiquidity : Token -> Token -> Z;
  swapGivenIn : option Token -> option Token -> option TokenAmount -> result TokenAmount;
  swapGivenOut : option Token -> option Token -> option TokenAmount -> result TokenAmount;
}.

(** ** JS arrays with holes *)

(** [arr[i] = x]: in range it overwrites, out of range the array grows and
    the skipped slots are holes. *)
Definition js_array_set {A} (arr : list (option A)) (i : nat) (x : A) : list (option A) :=
  if decide (i < length arr) then <[i := Some x]> arr
  else arr ++ replicate (i - length arr) None ++ [Some x].

(** [arr[i]]: [undefined] for a hole or an index out of range. *)
Definition js_array_get {A} (arr : list (option A)) (i : nat) : option A :=
  mjoin (arr !! i).

(** ** [entities/path.ts]: Path and PathWithAmount *)

Module Path.

Record Path : Type := mkPath {
  path_pools : list Pool;
  path_tokens : list Token;
}.

Record PathWithAmount : Type := mkPathWithAmount {
  pools : list Pool;
  tokens : list Token;
  swapAmount : TokenAmount;
  swapKind : SwapKind;
}.

(** The constructor of [PathWithAmount]: the kind is inferred from
    [tokens[0] === swapAmount.token]. *)
Definition new (tokens : list Token) (pools : list Pool) (swapAmount : TokenAmount)
  : PathWithAmount :=
  mkPathWithAmount pools tokens swapAmount
    (match tokens !! 0 with
     | Some t0 => if token_same t0 (ta_token swapAmount) then GivenIn else GivenOut
     | None => GivenOut
     end).

(** The [for] loop of [outputAmount]; [rest] is [pools[i..]]. *)
Fixpoint outputAmount_loop (tokens : list Token) (rest : list Pool) (i : nat)
    (amounts : list (option TokenAmount)) : result (list (option TokenAmount)) :=
  match rest with
  | [] => Ok amounts
  | pool :: rest' =>
      out ← swapGivenIn pool (tokens !! i) (tokens !! S i) (js_array_get amounts i);
      outputAmount_loop tokens rest' (S i) (js_array_set amounts (S i) out)
  end.

(** [PathWithAmount.outputAmount]; the promise resolves to
    [amounts[amounts.length - 1]], which may be [undefined]. *)
Definition outputAmount (p : PathWithAmount) : result (option TokenAmount) :=
  match swapKind p with
  | GivenIn =>
      let amounts := js_array_set (replicate (length (tokens p)) None) 0 (swapAmount p) in
      amounts' ← outputAmount_loop (tokens p) (pools p) 0 amounts;
      Ok (js_array_get amounts' (length amounts' - 1))
  | GivenOut => Ok (Some (swapAmount p))
  end.

(** The spec's words for the input-fixed direction: feed the amount through
    pool 0, then each hop's output into the next pool, in token order. *)
Fixpoint quoteForward (toks : list Token) (pools : list Pool) (a : TokenAmount)
  : result TokenAmount :=
  match pools with
  | [] => Ok a
  | pool :: pools' =>
      out ← swapGivenIn pool (toks !! 0) (toks !! 1) (Some a);
      quoteForward (tail toks) pools' out
  end.

(** The spec's words for the output-fixed direction: apply the pools'
    quoting functions in reverse token order, from the last pool back to
    the first. *)
Fixpoint quoteBackward (toks : list Token) (pools : list Pool) (a : TokenAmount)
  : result TokenAmount :=
  match pools with
  | [] => Ok a
  | pool :: pools' =>
      mid ← quoteBackward (tail toks) pools' a;
      swapGivenOut pool (toks !! 0) (toks !! 1) (Some mid)
  end.

End Path.

(** ** Small pieces of the JS and lodash standard libraries *)

(** [uniq] / [new Set(...)] spread back into an array: first occurrences,
    in order. *)
Fixpoint uniq `{EqDecision A} (l : list A) : list A :=
  match l with
  | [] => []
  | x :: l' => x :: filter (fun y => y <> x) (uniq l')
  end.

(** [arr.indexOf(x)] and [arr.findIndex(...)]: [-1] when absent. *)
Fixpoint indexOf `{EqDecision A} (l : list A) (x : A) : Z :=
  match l with
  | [] => (-1)%Z
  | y :: l' =>
      if decide (y = x) then 0%Z
      else let r := indexOf l' x in if decide (r = (-1)%Z) then (-1)%Z else (r + 1)%Z
  end.

(** [arr[idx] = x] for an index computed by [findIndex]: writing at [-1]
    sets a property and leaves the elements alone. *)
Definition set_at_index {A} (l : list A) (idx : Z) (x : A) : list A :=
  if decide (0 <= idx)%Z then <[Z.to_nat idx := x]> l else l.

(** [bigint.toString()]. *)
Definition bigint_toString (z : Z) : string :=
  DecimalString.NilZero.string_of_int (Z.to_int z).

(** Stable insertion sort; [lodash]'s [sortBy] and [orderBy] are stable.
    [insert_by lt x l] moves [x] behind the elements [y] of the sorted [l]
    with [lt (key y) (key x)]. *)
Section StableSort.
Context {A : Type} (key : A -> Z).

Fixpoint insert_by (lt : Z -> Z -> bool) (x : A) (l : list A) : list A :=
  match l with
  | [] => [x]
  | y :: l' => if lt (key y) (key x) then y :: insert_by lt x l' else x :: y :: l'
  end.

(** ascending: [x] is placed after the elements strictly smaller than it,
    in front of the (later) elements with an equal key. *)
Definition sortBy (l : list A) : list A := foldr (insert_by Z.ltb) [] l.

(** descending ([orderBy(..., 'desc')]). *)
Definition orderBy_desc (l : list A) : list A := foldr (insert_by Z.gtb) [] l.
End StableSort.

(** [Number(b)] for a [bigint]: the nearest double, ties to even.  Doubles
    that hold an integer are represented by that integer, and [Infinity] by
    [2^1024], which keeps the order of the doubles. *)
Definition Number_of_bigint (z : Z) : Z :=
  let a := Z.abs z in
  if (a <? 2 ^ 53)%Z then z
  else
    let e := (Z.log2 a - 52)%Z in
    let q := Z.shiftr a e in
    let r := (a - Z.shiftl q e)%Z in
    let half := Z.shiftl 1 (e - 1) in
    let q' := if (r <? half)%Z then q
              else if (half <? r)%Z then (q + 1)%Z
              else if Z.even q then q else (q + 1)%Z in
    let m := Z.shiftl q' e in
    (Z.sgn z * (if (2 ^ 1024 <=? m)%Z then 2 ^ 1024 else m))%Z.

(** ** [entities/swap.ts]: the route object *)

Module Swap.

Record PathEntry : Type := mkPathEntry {
  path : Path.PathWithAmount;
  e_inputAmount : TokenAmount;
  e_outputAmount : TokenAmount;
}.

Record BatchSwapStep : Type := mkBatchSwapStep {
  poolId : string;
  assetInIndex : Z;
  assetOutIndex : Z;
  amount : string;
  userData : string;
}.

Record Swap : Type := mkSwap {
  paths : list PathEntry;
  swapKind : SwapKind;
  isNativeSwap : bool;
  isBatchSwap : bool;
  assets : list string;
  swaps : list BatchSwapStep;
}.

Definition msg_no_path : string := "Invalid swap: must contain at least 1 path.".
Definition msg_input_tokens : string :=
  "Input amount can only be calculated if all paths have the same input token".
Definition msg_output_tokens : string :=
  "Output amount can only be calculated if all paths have the same output token".

(** The two [Error]s of the getters are the spec's [InconsistentRouteTokens]. *)
Definition InconsistentRouteTokens (msg : string) : Error := JsError msg.

(** [tokens[i].address]: a [TypeError] when [tokens[i]] is [undefined]. *)
Definition address_at (tokens : list Token) (i : nat) : result string :=
  match tokens !! i with
  | Some t => Ok (t_address t)
  | None => Err TypeError
  end.

Section Constructor.
(** Constants of [utils], not part of the sources at hand. *)
Variables DEFAULT_USERDATA ZERO_ADDRESS : string.

(** The steps of one path, [pools.map((pool, i) => ...)]; [inIdx i] and
    [outIdx i] are the positions of the hop's tokens in [toks]. *)
Definition path_steps (assets : list string) (toks : list Token) (pools : list Pool)
    (inIdx outIdx : nat -> nat) (first : Z) : result (list BatchSwapStep) :=
  mapM (fun '(i, pool) =>
          a_in ← address_at toks (inIdx i);
          a_out ← address_at toks (outIdx i);
          Ok (mkBatchSwapStep (p_id pool) (indexOf assets a_in) (indexOf assets a_out)
                (if decide (i = 0) then bigint_toString first else "0")
                DEFAULT_USERDATA))
       (imap (fun i pool => (i, pool)) pools).

Definition steps_of (kind : SwapKind) (assets : list string) (p : PathEntry)
  : result (list BatchSwapStep) :=
  match kind with
  | GivenIn =>
      path_steps assets (Path.tokens (path p)) (Path.pools (path p))
        (fun i => i) S (ta_amount (e_inputAmount p))
  | GivenOut =>
      (* the vault expects given-out swaps in reverse order *)
      path_steps assets (reverse (Path.tokens (path p))) (reverse (Path.pools (path p)))
        S (fun i => i) (ta_amount (e_outputAmount p))
  end.

(** The (protected) constructor. *)
Definition new (paths : list PathEntry) (swapKind : SwapKind) (swapAmount : TokenAmount)
  : result Swap :=
  match paths with
  | [] => Err (JsError msg_no_path)
  | p0 :: _ =>
      let isNativeSwap := t_isNative (ta_token swapAmount) in
      let isBatchSwap :=
        if bool_decide (1 < length paths) || bool_decide (2 < length (Path.pools (path p0)))
        then true else false in
      let assets := uniq (t_address <$> concat ((fun p => Path.tokens (path p)) <$> paths)) in
      swaps ← mapM (steps_of swapKind assets) paths;
      let assets' :=
        if isNativeSwap
        then set_at_index assets (indexOf assets (t_wrapped (ta_token swapAmount))) ZERO_ADDRESS
        else assets in
      Ok (mkSwap paths swapKind isNativeSwap isBatchSwap assets' (concat swaps))
  end.

(** The properties [path.inputAmount] and [path.outputAmount] that
    [fromPaths] reads; the [PathWithAmount] class at hand does not declare
    them. *)
Variables inputAmountOf outputAmountOf : Path.PathWithAmount -> TokenAmount.

(** [Swap.fromPaths]. *)
Definition fromPaths (fromPaths : list Path.PathWithAmount) (swapKind : SwapKind)
    (swapAmount : TokenAmount) : result Swap :=
  new ((fun path => mkPathEntry path (inputAmountOf path) (outputAmountOf path)) <$> fromPaths)
      swapKind swapAmount.
End Constructor.

(** [amounts.reduce((a, b) => a.add(b))], no initial value. *)
Fixpoint reduce_add_from (acc : TokenAmount) (l : list TokenAmount) : result TokenAmount :=
  match l with
  | [] => Ok acc
  | b :: l' => s ← ta_add acc b; reduce_add_from s l'
  end.

Definition reduce_add (l : list TokenAmount) : result TokenAmount :=
  match l with
  | [] => Err TypeError
  | a :: l' => reduce_add_from a l'
  end.

(** [paths.every(p => f(p).token === f(paths[0]).token)]. *)
Definition every_same_token (f : PathEntry -> TokenAmount) (l : list PathEntry) : bool :=
  match l with
  | [] => true
  | p0 :: _ => forallb (fun p => token_same (ta_token (f p)) (ta_token (f p0))) l
  end.

(** The getter [Swap.inputAmount]. *)
Definition inputAmount (s : Swap) : result TokenAmount :=
  if negb (every_same_token e_inputAmount (paths s))
  then Err (InconsistentRouteTokens msg_input_tokens)
  else reduce_add (e_inputAmount <$> paths s).

(** The getter [Swap.outputAmount]. *)
Definition outputAmount (s : Swap) : result TokenAmount :=
  if negb (every_same_token e_outputAmount (paths s))
  then Err (InconsistentRouteTokens msg_output_tokens)
  else reduce_add (e_outputAmount <$> paths s).

End Swap.

(** ** The orchestrator: [SmartOrderRouter.getSwaps] *)

Module Sor.

(** What the orchestrator does to the outside world, in order. *)
Inductive Event : Type :=
| ConsoleTime (label : string)
| ConsoleTimeEnd (label : string)
| CallGetPools
| CallGetCandidatePaths (tokenIn tokenOut : Token) (swapKind : SwapKind) (pools : list Pool)
| CallGetBestPaths (candidatePaths : list Path.Path) (swapKind : SwapKind)
    (swapAmount : TokenAmount).

(** A computation that logs events and may fail; the events logged before a
    failure are kept. *)
Record traced (A : Type) : Type := Traced {
  trace : list Event;
  outcome : result A;
}.
Arguments Traced {A} trace outcome.
Arguments trace {A} t.
Arguments outcome {A} t.

#[global] Instance traced_ret : MRet traced := fun _ a => Traced [] (Ok a).
#[global] Instance traced_bind : MBind traced := fun _ _ f m =>
  match outcome m with
  | Ok a => Traced (trace m ++ trace (f a)) (outcome (f a))
  | Err e => Traced (trace m) (Err e)
  end.

Definition emit (e : Event) : traced unit := Traced [e] (Ok tt).
Definition call {A} (e : Event) (r : result A) : traced A := Traced [e] r.

Record SwapInfo : Type := mkSwapInfo {
  quote : TokenAmount;
  swap : Swap.Swap;
  paths : list Swap.PathEntry;
}.

Section Orchestrator.
(** The collaborators held by the router object: the pool provider and the
    [Router] (candidate search and best-path selection).  Their classes are
    not part of the sources at hand. *)
Variable getPools : result (list Pool).
Variable getCandidatePaths :
  Token -> Token -> SwapKind -> list Pool -> result (list Path.Path).
Variable getBestPaths :
  list Path.Path -> SwapKind -> TokenAmount -> result Swap.Swap.

(** [getSwaps]; the optional [swapOptions] argument is never read. *)
Definition getSwaps (tokenIn tokenOut : Token) (swapKind : SwapKind)
    (swapAmount : TokenAmount) : traced SwapInfo :=
  _ ← emit (ConsoleTime "poolProvider");
  pools ← call CallGetPools getPools;
  _ ← emit (ConsoleTimeEnd "poolProvider");
  _ ← emit (ConsoleTime "getCandidatePaths");
  candidatePaths ← call (CallGetCandidatePaths tokenIn tokenOut swapKind pools)
                        (getCandidatePaths tokenIn tokenOut swapKind pools);
  _ ← emit (ConsoleTimeEnd "getCandidatePaths");
  _ ← emit (ConsoleTime "bestPaths");
  bestPaths ← call (CallGetBestPaths candidatePaths swapKind swapAmount)
                   (getBestPaths candidatePaths swapKind swapAmount);
  _ ← emit (ConsoleTimeEnd "bestPaths");
  mret (mkSwapInfo swapAmount bestPaths (Swap.paths bestPaths)).
End Orchestrator.

(** The events at which graph construction and search work happen. *)
Definition is_search_work (e : Event) : bool :=
  match e with
  | CallGetCandidatePaths _ _ _ _ | CallGetBestPaths _ _ _ => true
  | _ => false
  end.

End Sor.

(** [for (const x of xs) { acc = f(acc, x) }] where [f] may throw. *)
Fixpoint foldlM {A B} (f : B -> A -> result B) (b : B) (l : list A) : result B :=
  match l with
  | [] => Ok b
  | x :: l' => b' ← f b x; foldlM f b' l'
  end.

(** [for (const x of xs) { r = f(x); if (r != null) return r }; return null]. *)
Fixpoint first_found {A B} (f : A -> result (option B)) (l : list A) : result (option B) :=
  match l with
  | [] => Ok None
  | x :: l' =>
      r ← f x;
      match r with
      | Some b => Ok (Some b)
      | None => first_found f l'
      end
  end.

(** The pairs [(l[i], l[j])], [i < j], in the order of the nested loops
    [for i ... for j = i + 1 ...]. *)
Fixpoint ordered_pairs {A} (l : list A) : list (A * A) :=
  match l with
  | [] => []
  | x :: l' => (pair x <$> l') ++ ordered_pairs l'
  end.

(** ** The directed multigraph of [graphlib]

    Edges are identified by [(v, w, name)].  [setEdge] on an existing edge
    replaces its label and keeps its position; a new edge goes last and
    creates its end nodes.  The enumeration order of [successors] and
    [outEdges] is insertion order (node names are token addresses, which
    are never array indices, so no property is enumerated out of turn). *)

Module Graphlib.

Record EdgeObj : Type := mkEdgeObj {
  v : string;
  w : string;
  name : string;
}.

#[global] Instance EdgeObj_eq_dec : EqDecision EdgeObj.
Proof. solve_decision. Defined.

Section Graph.
Context {L : Type}.

Record Graph : Type := mkGraph {
  g_nodes : list string;
  g_edges : list (EdgeObj * L);
}.

Definition empty : Graph := mkGraph [] [].

Definition setNode (nodes : list string) (n : string) : list string :=
  if decide (n ∈ nodes) then nodes else nodes ++ [n].

Fixpoint update_edge (e : EdgeObj) (lbl : L) (edges : list (EdgeObj * L))
  : list (EdgeObj * L) :=
  match edges with
  | [] => [(e, lbl)]
  | (e', lbl') :: rest =>
      if decide (e' = e) then (e', lbl) :: rest else (e', lbl') :: update_edge e lbl rest
  end.

Definition setEdge (g : Graph) (e : EdgeObj) (lbl : L) : Graph :=
  if decide (e ∈ (g_edges g).*1)
  then mkGraph (g_nodes g) (update_edge e lbl (g_edges g))
  else mkGraph (setNode (setNode (g_nodes g) (v e)) (w e)) (update_edge e lbl (g_edges g)).

Definition hasNode (g : Graph) (n : string) : bool := bool_decide (n ∈ g_nodes g).

(** [undefined] for an unknown node. *)
Definition successors (g : Graph) (n : string) : option (list string) :=
  if hasNode g n
  then Some (uniq (w <$> filter (fun e => v e = n) (g_edges g).*1))
  else None.

(** [outEdges(v, w)]: a falsy [w] (the empty string) is treated like a
    missing argument and selects every edge that leaves [v]. *)
Definition outEdges (g : Graph) (n m : string) : option (list EdgeObj) :=
  if hasNode g n
  then
    let out := filter (fun e => v e = n) (g_edges g).*1 in
    Some (if decide (m = "") then out else filter (fun e => w e = m) out)
  else None.

(** [graph.edge(e)]: the label. *)
Fixpoint edge_label (e : EdgeObj) (edges : list (EdgeObj * L)) : option L :=
  match edges with
  | [] => None
  | (e', lbl) :: rest => if decide (e' = e) then Some lbl else edge_label e rest
  end.

Definition edge (g : Graph) (e : EdgeObj) : option L := edge_label e (g_edges g).
End Graph.
Arguments Graph L : clear implicits.

End Graphlib.

(** ** The path graph: [PathGraph] *)

Module PathGraph.
Import Graphlib.

Record PoolTokenPair : Type := mkPoolTokenPair {
  pp_id : string;
  pp_pool : Pool;
  pp_tokenIn : Token;
  pp_tokenOut : Token;
}.

(** The values of a [PoolPairMap]: [{ poolPair, normalizedLiquidity }]. *)
Record PoolPairItem : Type := mkPoolPairItem {
  poolPair : PoolTokenPair;
  item_normalizedLiquidity : Z;
}.

(** A JS object used as a dictionary whose keys are enumerated in insertion
    order ([Object.keys]). *)
Abbreviation PoolPairMap := (list (string * list PoolPairItem)).

Record PathGraphEdgeLabel : Type := mkLabel {
  poolId : string;
  poolAddress : string;
  l_poolPair : PoolTokenPair;
  normalizedLiquidity : Z;
  isPhantomBptHop : bool;
}.

(** [{ tokenIn, tokenOut, ...edgeLabel }]. *)
Record PathGraphEdge : Type := mkPathGraphEdge {
  tokenIn : string;
  tokenOut : string;
  label : PathGraphEdgeLabel;
}.

Record PathGraphTraversalConfig : Type := mkConfig {
  maxDepth : Z;
  maxNonBoostedPathDepth : Z;
  maxNonBoostedHopTokensInBoostedPath : Z;
  approxPathsToReturn : Z;
  poolIdsToInclude : option (list string);
}.

(** [Partial<PathGraphTraversalConfig>]: what the caller overrides. *)
Record PartialConfig : Type := mkPartialConfig {
  o_maxDepth : option Z;
  o_maxNonBoostedPathDepth : option Z;
  o_maxNonBoostedHopTokensInBoostedPath : option Z;
  o_approxPathsToReturn : option Z;
  o_poolIdsToInclude : option (list string);
}.

(** The defaults, then [...pathConfig]. *)
Definition applyDefaults (c : PartialConfig) : PathGraphTraversalConfig :=
  mkConfig (default 7%Z (o_maxDepth c))
           (default 3%Z (o_maxNonBoostedPathDepth c))
           (default 1%Z (o_maxNonBoostedHopTokensInBoostedPath c))
           (default 5%Z (o_approxPathsToReturn c))
           (o_poolIdsToInclude c).

(** The fields of the class. *)
Record PathGraph : Type := mkPathGraph {
  graph : Graph PathGraphEdgeLabel;
  poolAddressMap : gmap string Pool;
  graphIsInitialized : bool;
  maxPathsPerTokenPair : Z;
}.

Definition initial : PathGraph := mkPathGraph empty ∅ false 2.

(** [keyBy(pools, 'address')]: the last pool at an address wins. *)
Definition keyBy_address (pools : list Pool) : gmap string Pool :=
  foldl (fun m p => <[p_address p := p]> m) ∅ pools.

(** [`${a.address}-${b.address}`]. *)
Definition pair_id (a b : Token) : string := t_address a +:+ "-" +:+ t_address b.

(** [if (!poolPairMap[id]) poolPairMap[id] = []]. *)
Definition pm_init (id : string) (m : PoolPairMap) : PoolPairMap :=
  if decide (id ∈ m.*1) then m else m ++ [(id, [])].

(** [poolPairMap[id].push(item)]. *)
Definition pm_push (id : string) (item : PoolPairItem) (m : PoolPairMap) : PoolPairMap :=
  (fun kv => if decide (kv.1 = id) then (kv.1, kv.2 ++ [item]) else kv) <$> m.

(** The body of the innermost loop of [buildSortedPoolPairMap] for the
    member tokens [ti = pool.tokens[i].token] and [tj = pool.tokens[j].token]. *)
Definition add_pool_pair (pool : Pool) (m : PoolPairMap) (tij : Token * Token)
  : PoolPairMap :=
  let '(ti, tj) := tij in
  let id := pair_id ti tj in
  let reverseId := pair_id tj ti in
  let m := pm_init id m in
  let m := pm_init reverseId m in
  let m := pm_push id
             (mkPoolPairItem (mkPoolTokenPair id pool ti tj) (getNormalizedLiquidity pool ti tj)) m in
  pm_push reverseId
    (mkPoolPairItem (mkPoolTokenPair reverseId pool tj ti) (getNormalizedLiquidity pool tj ti)) m.

Definition item_rank (item : PoolPairItem) : Z :=
  Number_of_bigint (item_normalizedLiquidity item).

Definition collectPoolPairs (pools : list Pool) : PoolPairMap :=
  foldl (fun m pool => foldl (add_pool_pair pool) m (ordered_pairs (ta_token <$> p_tokens pool)))
        [] pools.

Definition buildSortedPoolPairMap (pools : list Pool) : PoolPairMap :=
  (fun kv => (kv.1, orderBy_desc item_rank kv.2)) <$> collectPoolPairs pools.

(** [`${pool.id}-${tokenIn.address}-${tokenOut.address}`]. *)
Definition edge_name (pool : Pool) (tIn tOut : Token) : string :=
  p_id pool +:+ "-" +:+ t_address tIn +:+ "-" +:+ t_address tOut.

Definition edge_of (pool : Pool) (tIn tOut : Token) : EdgeObj :=
  mkEdgeObj (t_address tIn) (t_address tOut) (edge_name pool tIn tOut).

Definition addGraphEdgeForPoolPair (pam : gmap string Pool) (tIn tOut : Token)
    (pool : Pool) (g : Graph PathGraphEdgeLabel) : Graph PathGraphEdgeLabel :=
  let poolPair := mkPoolTokenPair (pair_id tIn tOut) pool tIn tOut in
  let lbl := mkLabel (p_id pool) (p_address pool) poolPair
               (getNormalizedLiquidity pool tIn tOut)
               (bool_decide (is_Some (pam !! t_address tIn))
                || bool_decide (is_Some (pam !! t_address tOut))) in
  setEdge g (edge_of pool tIn tOut) lbl.

(** [pool.tokens.map(t => t.token.address).includes(address)]. *)
Definition hasPhantomBpt (pool : Pool) (address : string) : bool :=
  bool_decide (address ∈ (t_address ∘ ta_token) <$> p_tokens pool).

(** The body of the loop over [items] in [buildGraph]. *)
Definition addItem (pam : gmap string Pool) (maxPaths : Z)
    (g : Graph PathGraphEdgeLabel) (ix : nat * PoolPairItem)
  : result (Graph PathGraphEdgeLabel) :=
  let '(i, item) := ix in
  let pp := poolPair item in
  match pam !! p_address (pp_pool pp) with
  | None => Err TypeError
  | Some pool =>
      if bool_decide (Z.of_nat i < maxPaths)%Z || hasPhantomBpt pool (p_address (pp_pool pp))
      then Ok (addGraphEdgeForPoolPair pam (pp_tokenIn pp) (pp_tokenOut pp) pool g)
      else Ok g
  end.

Definition addGroup (pam : gmap string Pool) (maxPaths : Z)
    (g : Graph PathGraphEdgeLabel) (kv : string * list PoolPairItem)
  : result (Graph PathGraphEdgeLabel) :=
  foldlM (addItem pam maxPaths) g (imap pair kv.2).

(** [buildGraph]; the argument defaults to 2. *)
Definition buildGraph (pools : list Pool) (maxPathsPerTokenPair : option Z)
  : result PathGraph :=
  let maxPaths := default 2%Z maxPathsPerTokenPair in
  let pam := keyBy_address pools in
  let poolPairMap := buildSortedPoolPairMap pools in
  g ← foldlM (addGroup pam maxPaths) empty poolPairMap;
  Ok (mkPathGraph g pam true maxPaths).

(** *** The search *)

(** [!!this.poolAddressMap[token]]. *)
Definition isPoolAddress (pg : PathGraph) (token : string) : Prop :=
  is_Some (poolAddressMap pg !! token).

Definition isValidTokenPath (pg : PathGraph) (tokenPath : list string)
    (config : PathGraphTraversalConfig) (tIn tOut : string) : bool :=
  let hopTokens := filter (fun token => token <> tIn /\ token <> tOut) tokenPath in
  let numStandardHopTokens :=
    Z.of_nat (length (filter (fun token => ~ isPoolAddress pg token) hopTokens)) in
  let isBoostedPath := bool_decide (0 < length (filter (isPoolAddress pg) tokenPath)) in
  if bool_decide (maxDepth config < Z.of_nat (length tokenPath))%Z then false
  else if isBoostedPath
          && bool_decide (maxNonBoostedHopTokensInBoostedPath config < numStandardHopTokens)%Z
  then false
  else if bool_decide (maxNonBoostedPathDepth config < Z.of_nat (length tokenPath))%Z
          && bool_decide (maxNonBoostedHopTokensInBoostedPath config < numStandardHopTokens)%Z
  then false
  else true.

(** [`${segment.poolId}-${segment.tokenIn}-${segment.tokenOut}`] joined by ['_']. *)
Definition segment_id (segment : PathGraphEdge) : string :=
  poolId (label segment) +:+ "-" +:+ tokenIn segment +:+ "-" +:+ tokenOut segment.

Definition getIdForPath (path : list PathGraphEdge) : string :=
  String.concat "_" (segment_id <$> path).

Definition isValidPath (pg : PathGraph) (path : list PathGraphEdge)
    (seenPoolAddresses selectedPathIds : list string)
    (config : PathGraphTraversalConfig) : bool :=
  if match poolIdsToInclude config with
     | Some ids => negb (forallb (fun e => bool_decide (poolId (label e) ∈ ids)) path)
     | None => false
     end
  then false
  else
    let isBoostedPath :=
      bool_decide (0 < length (filter (fun e => isPoolAddress pg (tokenIn e)
                                             \/ isPoolAddress pg (tokenOut e)) path)) in
    if negb isBoostedPath
       && bool_decide (maxNonBoostedPathDepth config < Z.of_nat (length path) + 1)%Z
    then false
    else
      let uniquePools := uniq ((fun e => poolId (label e)) <$> path) in
      if negb (bool_decide (length uniquePools = length path)) then false
      else
        let intersection :=
          filter (fun segment => poolAddress (label segment) ∈ seenPoolAddresses) path in
        if bool_decide (0 < length intersection) then false
        else if bool_decide (getIdForPath path ∈ selectedPathIds) then false
        else true.

(** The loop of [buildPath] over the consecutive tokens of [tokenPath]. *)
Fixpoint buildPath_loop (g : Graph PathGraphEdgeLabel) (tokenPath : list string)
    (tokenPairIndex : nat) (isUnique : bool) : result (list PathGraphEdge * bool) :=
  match tokenPath with
  | a :: ((b :: _) as rest) =>
      let out := default [] (outEdges g a b) in
      let isUnique := if decide (tokenPairIndex < length out) then true else isUnique in
      match from_option Some (out !! 0) (out !! tokenPairIndex) with
      | None => Err TypeError            (* [graph.edge(undefined)] *)
      | Some e =>
          match edge g e with
          | None => Err TypeError        (* not taken: [e] was read from the graph *)
          | Some edgeLabel =>
              '(path, isUnique') ← buildPath_loop g rest tokenPairIndex isUnique;
              Ok (mkPathGraphEdge a b edgeLabel :: path, isUnique')
          end
      end
  | _ => Ok ([], isUnique)
  end.

Definition buildPath (g : Graph PathGraphEdgeLabel) (tokenPath : list string)
    (tokenPairIndex : nat) : result (option (list PathGraphEdge)) :=
  '(path, isUnique) ← buildPath_loop g tokenPath tokenPairIndex false;
  Ok (if isUnique : bool then Some path else None).

(** [traverseGraphAndFindUniquePath]; [fuel] bounds the recursion depth. *)
Fixpoint traverseGraphAndFindUniquePath (fuel : nat) (pg : PathGraph)
    (token tIn tOut : string) (tokenPath : list string) (tokenPairIndex : nat)
    (config : PathGraphTraversalConfig) (seenPoolAddresses selectedPathIds : list string)
  : result (option (list PathGraphEdge)) :=
  match fuel with
  | 0 => Err OutOfFuel
  | S fuel' =>
      if negb (isValidTokenPath pg tokenPath config tIn tOut) then Ok None
      else
        let succs :=
          filter (fun successor => successor ∉ tokenPath)
                 (default [] (successors (graph pg) token)) in
        direct ←
          (if bool_decide (tOut ∈ succs)
           then
             path ← buildPath (graph pg) (tokenPath ++ [tOut]) tokenPairIndex;
             Ok (match path with
                 | Some p =>
                     if isValidPath pg p seenPoolAddresses selectedPathIds config
                     then Some p else None
                 | None => None
                 end)
           else Ok None);
        match direct with
        | Some p => Ok (Some p)
        | None =>
            (* peek ahead one level and optimistically sort the successors *)
            let sortedAndFiltered :=
              filter (fun successor => successor ∉ tokenPath)
                (sortBy (fun successor =>
                           let children := default [] (successors (graph pg) successor) in
                           if bool_decide (tOut ∈ children) then (-1)%Z else 1%Z)
                        succs) in
            first_found
              (fun successor =>
                 traverseGraphAndFindUniquePath fuel' pg successor tIn tOut
                   (tokenPath ++ [successor]) tokenPairIndex config
                   seenPoolAddresses selectedPathIds)
              sortedAndFiltered
        end
  end.

(** The token path never repeats a node, so this depth is never exceeded. *)
Definition traversal_depth (pg : PathGraph) : nat := S (length (g_nodes (graph pg))).

(** [filterVolatilePools]; reading [poolType] of an unknown address throws. *)
Fixpoint filterVolatilePools (pg : PathGraph) (poolAddresses : list string)
  : result (list string) :=
  match poolAddresses with
  | [] => Ok []
  | address :: rest =>
      match poolAddressMap pg !! address with
      | None => Err TypeError
      | Some pool =>
          rest' ← filterVolatilePools pg rest;
          Ok (if decide (p_poolType pool = Weighted) then address :: rest' else rest')
      end
  end.

(** The local variables of [traverseGraphAndFindBestPaths]. *)
Record SearchState : Type := mkSearchState {
  paths : list (list PathGraphEdge);
  selectedPathIds : list string;
  seenPoolAddresses : list string;
}.

Section Search.
Variable pg : PathGraph.
Variables tIn tOut : Token.
Variable config : PathGraphTraversalConfig.

(** [while (foundPath) { ... }] for one [idx]; [fuel] bounds the number of
    iterations. *)
Fixpoint findPathsAtIndex (fuel : nat) (idx : nat) (s : SearchState)
  : result SearchState :=
  match fuel with
  | 0 => Err OutOfFuel
  | S fuel' =>
      path ← traverseGraphAndFindUniquePath (traversal_depth pg) pg
               (t_address tIn) (t_address tIn) (t_address tOut) [t_address tIn]
               idx config (seenPoolAddresses s) (selectedPathIds s);
      match path with
      | Some path =>
          findPathsAtIndex fuel' idx
            (mkSearchState (paths s ++ [path])
               (selectedPathIds s ++ [getIdForPath path])
               (seenPoolAddresses s ++ ((fun segment => poolAddress (label segment)) <$> path)))
      | None => Ok s
      end
  end.

(** [for (let idx = 0; idx < this.maxPathsPerTokenPair; idx++) { ... }]. *)
Definition searchRound (fuel : nat) (s : SearchState) : result SearchState :=
  foldlM (fun s idx => findPathsAtIndex fuel idx s) s
         (seq 0 (Z.to_nat (maxPathsPerTokenPair pg))).

(** What the relaxation step assigns to [seenPoolAddresses]. *)
Definition relaxSeenPools (seen : list string) : result (list string) :=
  volatilePoolAddresses ← filterVolatilePools pg seen;
  Ok (if bool_decide (0 < length volatilePoolAddresses)
         && bool_decide (length volatilePoolAddresses < length seen)
      then volatilePoolAddresses else []).

(** [while (paths.length < config.approxPathsToReturn) { ... }]; [fuel]
    bounds the number of rounds, [inner] the iterations of the inner
    [while]. *)
Fixpoint searchLoop (fuel inner : nat) (s : SearchState) : result SearchState :=
  if bool_decide (Z.of_nat (length (paths s)) < approxPathsToReturn config)%Z
  then
    match fuel with
    | 0 => Err OutOfFuel
    | S fuel' =>
        s' ← searchRound inner s;
        if bool_decide (Z.of_nat (length (paths s')) < approxPathsToReturn config)%Z
           && bool_decide (0 < length (seenPoolAddresses s'))
        then
          seen' ← relaxSeenPools (seenPoolAddresses s');
          searchLoop fuel' inner (mkSearchState (paths s') (selectedPathIds s') seen')
        else Ok s'   (* enough paths, or no new path for an entire iteration *)
    end
  else Ok s.
End Search.

(** The object literal returned for each path; a pool that is missing from
    [poolAddressMap] would be [undefined]. *)
Record FoundPath : Type := mkFoundPath {
  fp_tokens : list Token;
  fp_pools : list (option Pool);
}.

Definition toFoundPath (pg : PathGraph) (path : list PathGraphEdge) : result FoundPath :=
  match path with
  | [] => Err TypeError                  (* [path[0].poolPair] *)
  | first :: _ =>
      Ok (mkFoundPath
            (pp_tokenIn (l_poolPair (label first))
               :: ((fun segment => pp_tokenOut (l_poolPair (label segment))) <$> path))
            ((fun segment => poolAddressMap pg !! poolAddress (label segment)) <$> path))
  end.

(** [traverseGraphAndFindBestPaths], the spec's [findPaths]. *)
Definition traverseGraphAndFindBestPaths (fuel : nat) (pg : PathGraph)
    (tIn tOut : Token) (pathConfig : PartialConfig) : result (list FoundPath) :=
  if negb (hasNode (graph pg) (t_address tIn)) || negb (hasNode (graph pg) (t_address tOut))
  then Ok []
  else
    let config := applyDefaults pathConfig in
    s ← searchLoop pg tIn tOut config fuel fuel (mkSearchState [] [] []);
    mapM (toFoundPath pg) (paths s).

End PathGraph.

(** ** Spec-level notions used by the statements *)



(** The aggregate priced amount of a route: the side that was not fixed. *)
Definition aggregatePricedAmount (s : Swap.Swap) : result TokenAmount :=
  match Swap.swapKind s with
  | GivenIn => Swap.outputAmount s
  | GivenOut => Swap.inputAmount s
  end.

(** The seen pools of the plain (volatile, [Weighted]) category, and the
    seen pools once exactly those are removed. *)
Definition weightedPools (pg : PathGraph.PathGraph) (seen : list string) : list string :=
  filter (fun a => p_poolType <$> PathGraph.poolAddressMap pg !! a = Some Weighted) seen.

Definition withoutWeightedPools (pg : PathGraph.PathGraph) (seen : list string) : list string :=
  filter (fun a => p_poolType <$> PathGraph.poolAddressMap pg !! a <> Some Weighted) seen.

(** The intermediate (non-endpoint) tokens of a token sequence. *)
Definition hopTokens (toks : list string) : list string := removelast (tail toks).

(** A token sequence is boosted when one of its tokens is a pool address. *)
Definition isBoostedTokenPath (pg : PathGraph.PathGraph) (toks : list string) : bool :=
  bool_decide (Exists (PathGraph.isPoolAddress pg) toks).

(** The number of intermediate tokens that are not pool addresses. *)
Definition nonBoostedHopTokens (pg : PathGraph.PathGraph) (toks : list string) : nat :=
  length (filter (fun t => ~ PathGraph.isPoolAddress pg t) (hopTokens toks)).

(** The depth bounds of a path over the token addresses [toks]. *)
Definition depthBounds (pg : PathGraph.PathGraph)
    (config : PathGraph.PathGraphTraversalConfig) (toks : list string) : Prop :=
  if isBoostedTokenPath pg toks
  then (Z.of_nat (nonBoostedHopTokens pg toks)
        <= PathGraph.maxNonBoostedHopTokensInBoostedPath config)%Z
  else (Z.of_nat (length toks) <= PathGraph.maxNonBoostedPathDepth config + 1)%Z.

(** [findPaths] on a pool snapshot: build the graph, then search. *)
Definition findPaths (pools : list Pool) (maxPathsPerTokenPair : option Z) (fuel : nat)
    (tIn tOut : Token) (pathConfig : PathGraph.PartialConfig)
  : result (list PathGraph.FoundPath) :=
  pg ← PathGraph.buildGraph pools maxPathsPerTokenPair;
  PathGraph.traverseGraphAndFindBestPaths fuel pg tIn tOut pathConfig.

Definition tokenAddresses (fp : PathGraph.FoundPath) : list string :=
  t_address <$> PathGraph.fp_tokens fp.

(** ** Invariants of the sorted pairs, of the graph and of the search *)

(** The order of a group after [orderBy(..., 'desc')]. *)
Definition desc {A} (key : A -> Z) (a b : A) : Prop := (key b <= key a)%Z.

(** No edge identity occurs twice and every edge joins two nodes. *)
Definition graph_closed {L} (g : Graphlib.Graph L) : Prop :=
  NoDup (Graphlib.g_edges g).*1
  /\ forall e, e ∈ (Graphlib.g_edges g).*1 ->
       Graphlib.v e ∈ Graphlib.g_nodes g /\ Graphlib.w e ∈ Graphlib.g_nodes g.

Section Invariants.
Import PathGraph Graphlib.

(** [item] is an entry of the group stored under [k]. *)
Definition in_group (m : PoolPairMap) (k : string) (item : PoolPairItem) : Prop :=
exists items, (k, items) ∈ m /\ item ∈ items.

(** The two entries that one pass of the innermost loop of
  [buildSortedPoolPairMap] appends. *)
Definition item_of (pool : Pool) (tIn tOut : Token) : PoolPairItem :=
mkPoolPairItem (mkPoolTokenPair (pair_id tIn tOut) pool tIn tOut)
               (getNormalizedLiquidity pool tIn tOut).

Definition adds (pool : Pool) (tij : Token * Token) (k : string) (item : PoolPairItem) : Prop :=
(k = pair_id tij.1 tij.2 /\ item = item_of pool tij.1 tij.2)
\/ (k = pair_id tij.2 tij.1 /\ item = item_of pool tij.2 tij.1).

(** The label that [addGraphEdgeForPoolPair] attaches. *)
Definition label_of (pam : gmap string Pool) (pool : Pool) (tIn tOut : Token)
: PathGraphEdgeLabel :=
mkLabel (p_id pool) (p_address pool) (mkPoolTokenPair (pair_id tIn tOut) pool tIn tOut)
        (getNormalizedLiquidity pool tIn tOut)
        (bool_decide (is_Some (pam !! t_address tIn))
         || bool_decide (is_Some (pam !! t_address tOut))).

(** [el] is the edge of the candidate pair [(p, tIn, tOut)], found at
  position [i] of its group and kept by the test of [buildGraph]; [pool]
  is the pool registered at the address of [p]. *)
Definition kept_from (pools : list Pool) (maxPaths : Z) (el : EdgeObj * PathGraphEdgeLabel)
  (p : Pool) (tIn tOut : Token) (items : list PoolPairItem) (i : nat) (pool : Pool)
: Prop :=
(pair_id tIn tOut, items) ∈ buildSortedPoolPairMap pools
/\ items !! i = Some (item_of p tIn tOut)
/\ p ∈ pools
/\ tIn ∈ ta_token <$> p_tokens p
/\ tOut ∈ ta_token <$> p_tokens p
/\ keyBy_address pools !! p_address p = Some pool
/\ ((Z.of_nat i < maxPaths)%Z \/ hasPhantomBpt pool (p_address p) = true)
/\ el = (edge_of pool tIn tOut, label_of (keyBy_address pools) pool tIn tOut).

Definition kept (pools : list Pool) (maxPaths : Z) (el : EdgeObj * PathGraphEdgeLabel)
: Prop :=
exists p tIn tOut items i pool, kept_from pools maxPaths el p tIn tOut items i pool.

Definition build_inv (pools : list Pool) (maxPaths : Z) (g : Graph PathGraphEdgeLabel)
: Prop :=
graph_closed g /\ forall el, el ∈ g_edges g -> kept pools maxPaths el.



(** The edges from token [a] to token [b], and those among them whose
  pool is not phantom-bearing. *)
Definition edgesBetween (g : Graph PathGraphEdgeLabel) (a b : string)
: list (EdgeObj * PathGraphEdgeLabel) :=
filter (fun el => v el.1 = a /\ w el.1 = b) (g_edges g).


(** Member-token addresses are never empty (their type is [`0x${string}`]). *)
Definition valid_addresses (pools : list Pool) : Prop :=
forall p t, p ∈ pools -> t ∈ p_tokens p -> t_address (ta_token t) <> "".

(** The label of an edge agrees with the edge and with the pool map. *)
Definition label_ok (pam : gmap string Pool) (e : EdgeObj) (lbl : PathGraphEdgeLabel)
: Prop :=
v e = t_address (pp_tokenIn (l_poolPair lbl))
/\ w e = t_address (pp_tokenOut (l_poolPair lbl))
/\ w e <> ""
/\ poolId lbl = p_id (pp_pool (l_poolPair lbl))
/\ pam !! poolAddress lbl = Some (pp_pool (l_poolPair lbl)).

Definition graph_ok (pg : PathGraph) : Prop :=
graph_closed (graph pg)
/\ forall e lbl, (e, lbl) ∈ g_edges (graph pg) -> label_ok (poolAddressMap pg) e lbl.

(** A segment whose tokens and pool are those of its label. *)
Definition segment_ok (pg : PathGraph) (s : PathGraphEdge) : Prop :=
tokenIn s = t_address (pp_tokenIn (l_poolPair (label s)))
/\ tokenOut s = t_address (pp_tokenOut (l_poolPair (label s)))
/\ poolId (label s) = p_id (pp_pool (l_poolPair (label s)))
/\ poolAddressMap pg !! poolAddress (label s) = Some (pp_pool (l_poolPair (label s))).

(** The depth bounds that the two validity checks of the search enforce on
  an accepted token sequence. *)
Definition depthFacts (pg : PathGraph) (config : PathGraphTraversalConfig)
  (tp : list string) : Prop :=
(Z.of_nat (length tp) <= maxDepth config + 1)%Z
/\ (isBoostedTokenPath pg tp = false ->
    (Z.of_nat (length tp) <= maxNonBoostedPathDepth config)%Z)
/\ (isBoostedTokenPath pg (removelast tp) = true ->
    (Z.of_nat (nonBoostedHopTokens pg tp) <= maxNonBoostedHopTokensInBoostedPath config)%Z)
/\ ((Z.of_nat (nonBoostedHopTokens pg tp) <= maxNonBoostedHopTokensInBoostedPath config)%Z
    \/ (Z.of_nat (length tp) <= maxNonBoostedPathDepth config + 1)%Z).

(** What every accepted path satisfies: it runs along a token sequence
  without repetition, over segments that agree with their labels, its pool
  ids are pairwise different, and the depth bounds hold. *)
Definition good_path (pg : PathGraph) (config : PathGraphTraversalConfig)
  (path : list PathGraphEdge) : Prop :=
exists tp,
  NoDup tp /\ 2 <= length tp
  /\ Forall (segment_ok pg) path
  /\ S (length path) = length tp
  /\ tokenIn <$> path = removelast tp
  /\ tokenOut <$> path = tail tp
  /\ NoDup ((fun e => poolId (label e)) <$> path)
  /\ depthFacts pg config tp.

(** The search accepts [path]: it was built along a token path [tokenPath]
    from [tIn], extended by [tOut], and passed both validity checks. *)
Definition accepted (pg : PathGraph) (tIn tOut : string) (idx : nat)
    (config : PathGraphTraversalConfig) (seen selected : list string)
    (path : list PathGraphEdge) : Prop :=
  exists tokenPath,
    NoDup tokenPath
    /\ head tokenPath = Some tIn
    /\ Forall (fun x => x <> "") (tail tokenPath)
    /\ (forall x, x ∈ tokenPath -> x ∈ g_nodes (graph pg))
    /\ (tOut ∉ tokenPath)
    /\ tOut <> ""
    /\ tOut ∈ g_nodes (graph pg)
    /\ isValidTokenPath pg tokenPath config tIn tOut = true
    /\ buildPath_loop (graph pg) (tokenPath ++ [tOut]) idx false = Ok (path, true)
    /\ isValidPath pg path seen selected config = true.

(** Consecutive tokens are joined by an edge of the graph. *)
Definition linked {L} (g : Graph L) (tp : list string) : Prop :=
  forall i a b, tp !! i = Some a -> tp !! S i = Some b ->
    exists e, e ∈ (g_edges g).*1 /\ v e = a /\ w e = b.

(** The segment that [buildPath] makes of an edge. *)
Definition segment_of (el : EdgeObj * PathGraphEdgeLabel) : PathGraphEdge :=
  mkPathGraphEdge (v el.1) (w el.1) el.2.

(** All lists over [alphabet] of length at most [n]. *)
Fixpoint sequences {A} (alphabet : list A) (n : nat) : list (list A) :=
  match n with
  | 0 => [[]]
  | S n' => [] :: (alphabet ≫= fun x => cons x <$> sequences alphabet n')
  end.

(** The ids of all the paths that a search over [g] can possibly accept. *)
Definition pathIds (g : Graph PathGraphEdgeLabel) : list string :=
  getIdForPath <$> sequences (segment_of <$> g_edges g) (length (g_nodes g)).

(** What the loops of the search maintain on their state. *)
Definition search_inv (pg : PathGraph) (s : SearchState) : Prop :=
  NoDup (selectedPathIds s)
  /\ (forall id, id ∈ selectedPathIds s -> id ∈ pathIds (graph pg))
  /\ (forall a, a ∈ seenPoolAddresses s -> isPoolAddress pg a).

(** How many relaxations a seen list can still undergo. *)
Definition relax_rank (pg : PathGraph) (seen : list string) : nat :=
  match seen with
  | [] => 0
  | _ => if decide (weightedPools pg seen = seen) then 1 else 2
  end.

(** The measure that every further round of [searchLoop] decreases. *)
Definition search_measure (pg : PathGraph) (s : SearchState) : nat :=
  3 * (length (pathIds (graph pg)) - length (selectedPathIds s))
  + relax_rank pg (seenPoolAddresses s).

(** A fuel that suffices for both loops of the search. *)
Definition search_fuel (pg : PathGraph) : nat := 3 * length (pathIds (graph pg)) + 3.

End Invariants.

(** ** Concrete pools and tokens *)

Module Examples.
Import PathGraph.

Definition DEFAULT_USERDATA : string := "0x".
Definition ZERO_ADDRESS : string := "0x0000000000000000000000000000000000000000".

Definition tokA : Token := mkToken 1 "0xA" false "0xA".
Definition tokB : Token := mkToken 2 "0xB" false "0xB".
Definition tokC : Token := mkToken 3 "0xC" false "0xC".
Definition tokD : Token := mkToken 4 "0xD" false "0xD".
(** the pool token (BPT) of the pool at address [0xP] *)
Definition tokP : Token := mkToken 5 "0xP" false "0xP".

(** A pool that pays [k] units of the other token per unit, both ways. *)
Definition quote_times (k : Z) (_ tOut : option Token) (a : option TokenAmount)
  : result TokenAmount :=
  match tOut, a with
  | Some t, Some a => Ok (mkTokenAmount t (k * ta_amount a))
  | _, _ => Err TypeError
  end.

(** The same rate read backwards: [k] units of the input token are asked
    per unit of output. *)
Definition quote_back_times (k : Z) (tIn _ : option Token) (a : option TokenAmount)
  : result TokenAmount :=
  match tIn, a with
  | Some t, Some a => Ok (mkTokenAmount t (k * ta_amount a))
  | _, _ => Err TypeError
  end.

Definition mk_pool (id address : string) (ty : PoolType) (toks : list Token)
    (liquidity k : Z) : Pool :=
  mkPool id address ty ((fun t => mkTokenAmount t 1000) <$> toks)
         (fun _ _ => liquidity) (quote_times k) (quote_back_times k).

Definition poolAB : Pool := mk_pool "id-AB" "0x1" Weighted [tokA; tokB] 100 2.
Definition poolAB2 : Pool := mk_pool "id-AB2" "0x2" Weighted [tokA; tokB] 50 2.
Definition poolBC : Pool := mk_pool "id-BC" "0x3" Weighted [tokB; tokC] 80 3.
Definition poolAB3 : Pool := mk_pool "id-AB3" "0x4" MetaStable [tokA; tokB] 10 2.
(** a phantom-bearing pool: its own pool token [0xP] is one of its members *)
Definition poolP : Pool := mk_pool "id-P" "0xP" ComposableStable [tokP; tokC; tokD] 1 1.

(** a phantom-bearing pool over [A] and [B] with the lowest liquidity *)
Definition tokQ : Token := mkToken 6 "0xQ" false "0xQ".
Definition poolPAB : Pool := mk_pool "id-PAB" "0xQ" ComposableStable [tokQ; tokA; tokB] 1 1.

Definition amount (t : Token) (n : Z) : TokenAmount := mkTokenAmount t n.

(** The path [A -> B -> C] priced for 5 units of [A] in. *)
Definition pathABC_in : Path.PathWithAmount :=
  Path.new [tokA; tokB; tokC] [poolAB; poolBC] (amount tokA 5).
(** The same path with 30 units of [C] out fixed. *)
Definition pathABC_out : Path.PathWithAmount :=
  Path.new [tokA; tokB; tokC] [poolAB; poolBC] (amount tokC 30).

Definition entryABC : Swap.PathEntry :=
  Swap.mkPathEntry pathABC_in (amount tokA 5) (amount tokC 30).
Definition entryAB : Swap.PathEntry :=
  Swap.mkPathEntry (Path.new [tokA; tokB] [poolAB] (amount tokA 4)) (amount tokA 4) (amount tokB 8).

(** A router that finds nothing to search and answers with a fixed route. *)
Definition router_candidates (_ _ : Token) (_ : SwapKind) (_ : list Pool)
  : result (list Path.Path) := Ok [].
Definition router_best (_ : list Path.Path) (kind : SwapKind) (a : TokenAmount)
  : result Swap.Swap :=
  Swap.new DEFAULT_USERDATA ZERO_ADDRESS [entryABC] kind a.


(** The graph of a pool snapshot ([buildGraph] does not fail, see
    [buildGraph_spec]). *)
Definition graphOf (pools : list Pool) (maxPaths : option Z) : PathGraph :=
  match buildGraph pools maxPaths with
  | Ok pg => pg
  | Err _ => initial
  end.

(** Two [A]/[B] pools, one [Weighted] and one stable. *)
Definition pgAB3 : PathGraph := graphOf [poolAB; poolAB3] None.
(** [A]/[B], [B]/[C] and the phantom-bearing pool that joins [C] to its own
    pool token [P]. *)
Definition pgABCP : PathGraph := graphOf [poolAB; poolBC; poolP] None.

(** Readable views of a search result and of the edges of a graph. *)
Definition viewPaths (r : result (list FoundPath))
  : result (list (list string * list string)) :=
  match r with
  | Ok found =>
      Ok (map (fun fp => (tokenAddresses fp, map (from_option p_id "?") (fp_pools fp))) found)
  | Err e => Err e
  end.

Definition viewEdges (r : result PathGraph) (a b : string) : result (list string) :=
  match r with
  | Ok pg => Ok (map (fun el : Graphlib.EdgeObj * PathGraphEdgeLabel => Graphlib.name el.1)
                     (edgesBetween (graph pg) a b))
  | Err e => Err e
  end.

Definition defaultConfig : PartialConfig := mkPartialConfig None None None None None.

End Examples.

(** ** Notions for the properties of the route object *)

(** A path with a pool that lacks a token for one of its hops. *)
Definition too_few_tokens (p : Path.PathWithAmount) : Prop :=
  Path.pools p <> [] /\ length (Path.tokens p) <= length (Path.pools p).

#[global] Instance too_few_tokens_dec p : Decision (too_few_tokens p).
Proof. unfold too_few_tokens. apply _. Defined.

(** A path with exactly one token more than pools. *)
Definition hop_aligned (p : Path.PathWithAmount) : Prop :=
  length (Path.tokens p) = S (length (Path.pools p)).

(** The addresses of all the tokens of the paths of a route, in order. *)
Definition route_addresses (paths : list Swap.PathEntry) : list string :=
  t_address <$> concat ((fun p => Path.tokens (Swap.path p)) <$> paths).

(** The address under which a token address is listed in [assets]: the
    zero address stands for the wrapped token of a native swap. *)
Definition listed_address (ZERO_ADDRESS : string) (swapAmount : TokenAmount) (a : string)
  : string :=
  if t_isNative (ta_token swapAmount) && bool_decide (a = t_wrapped (ta_token swapAmount))
  then ZERO_ADDRESS else a.

(** The hops of a path in token order: the id of the pool, the address of
    the token that goes in and the address of the token that comes out. *)
Definition hops (p : Path.PathWithAmount) : list (string * (string * string)) :=
  zip (p_id <$> Path.pools p)
      (zip (t_address <$> Path.tokens p) (t_address <$> tail (Path.tokens p))).

(** The order in which the steps of a path are listed. *)
Definition listing_order {A} (kind : SwapKind) (l : list A) : list A :=
  match kind with GivenIn => l | GivenOut => reverse l end.

(** A step read back against an asset list. *)
Definition decode_step (assets : list string) (st : Swap.BatchSwapStep)
  : option (string * (string * string)) :=
  if bool_decide (0 <= Swap.assetInIndex st)%Z && bool_decide (0 <= Swap.assetOutIndex st)%Z
  then
    a ← assets !! Z.to_nat (Swap.assetInIndex st);
    b ← assets !! Z.to_nat (Swap.assetOutIndex st);
    Some (Swap.poolId st, (a, b))
  else None.

(** The amount of the side that the swap kind fixes. *)
Definition fixed_amount (kind : SwapKind) (p : Swap.PathEntry) : TokenAmount :=
  match kind with GivenIn => Swap.e_inputAmount p | GivenOut => Swap.e_outputAmount p end.

(** The amounts of the steps of one path: the fixed amount on the first
    step, zero on the others. *)
Definition step_amounts (kind : SwapKind) (p : Swap.PathEntry) : list string :=
  match Path.pools (Swap.path p) with
  | [] => []
  | _ :: rest => bigint_toString (ta_amount (fixed_amount kind p)) :: replicate (length rest) "0"
  end.

(** A hop with its two addresses as they are listed in [assets]. *)
Definition listed_hop (ZERO_ADDRESS : string) (swapAmount : TokenAmount)
    (h : string * (string * string)) : string * (string * string) :=
  (h.1, (listed_address ZERO_ADDRESS swapAmount h.2.1,
         listed_address ZERO_ADDRESS swapAmount h.2.2)).

(** ** Notions for the trace of the orchestrator *)

(** The calls to the collaborators in a trace, in order. *)
Definition is_call (ev : Sor.Event) : bool :=
  match ev with
  | Sor.ConsoleTime _ | Sor.ConsoleTimeEnd _ => false
  | _ => true
  end.

Definition collaborator_calls (t : list Sor.Event) : list Sor.Event :=
  filter (fun ev => is_call ev = true) t.

(** The console timers that a trace has started and not ended. *)
Definition running_timers (t : list Sor.Event) : list string :=
  foldl (fun running ev =>
           match ev with
           | Sor.ConsoleTime label => running ++ [label]
           | Sor.ConsoleTimeEnd label => filter (fun l => l <> label) running
           | _ => running
           end) [] t.

(** ** Notions for the properties of the built graph *)

(** An address without the separator of the pair ids. *)
Fixpoint dash_free (s : string) : bool :=
  match s with
  | EmptyString => true
  | String c s' => negb (Ascii.eqb c "-"%char) && dash_free s'
  end.

(** Member-token addresses are non-empty and hold no ['-'], as the
    hexadecimal addresses of the chain do. *)
Definition plain_addresses (pools : list Pool) : Prop :=
  forall p t, p ∈ pools -> t ∈ p_tokens p ->
    t_address (ta_token t) <> "" /\ dash_free (t_address (ta_token t)) = true.

(** Every node is an end of some edge. *)
Definition graph_tight {L} (g : Graphlib.Graph L) : Prop :=
  forall n, n ∈ Graphlib.g_nodes g ->
    exists e, e ∈ (Graphlib.g_edges g).*1 /\ (Graphlib.v e = n \/ Graphlib.w e = n).

(** [a] is the address of a member token of a pool of the snapshot that
    has at least two tokens. *)
Definition tradable (pools : list Pool) (a : string) : Prop :=
  exists p i j ti tj,
    p ∈ pools /\ i <> j /\ p_tokens p !! i = Some ti /\ p_tokens p !! j = Some tj
    /\ t_address (ta_token ti) = a.

(** ** Notions for the properties of the search *)

(** The id of a returned path, made of the ids of its pools and of the
    addresses of its tokens in the way of [getIdForPath]. *)
Definition found_id (fp : PathGraph.FoundPath) : string :=
  String.concat "_"
    (zip_with (fun pool ab => from_option p_id "" pool +:+ "-" +:+ ab.1 +:+ "-" +:+ ab.2)
       (PathGraph.fp_pools fp)
       (zip (tokenAddresses fp) (tail (tokenAddresses fp)))).

(** [path] runs along the token addresses [tp], over segments that are
    edges of the graph. *)
Definition runs_along (pg : PathGraph.PathGraph) (path : list PathGraph.PathGraphEdge)
    (tp : list string) : Prop :=
  PathGraph.tokenIn <$> path = removelast tp
  /\ PathGraph.tokenOut <$> path = tail tp
  /\ S (length path) = length tp
  /\ Forall (segment_ok pg) path
  /\ Forall (fun s => s ∈ segment_of <$> Graphlib.g_edges (PathGraph.graph pg)) path.

(** [path] was accepted by some call of the traversal. *)
Definition selected_by (pg : PathGraph.PathGraph) (tIn tOut : string)
    (config : PathGraph.PathGraphTraversalConfig) (path : list PathGraph.PathGraphEdge)
  : Prop :=
  exists idx seen selected, accepted pg tIn tOut idx config seen selected path.

(** What the loops of the search keep true of the paths they collect. *)
Definition collected (pg : PathGraph.PathGraph) (tIn tOut : string)
    (config : PathGraph.PathGraphTraversalConfig) (s : PathGraph.SearchState) : Prop :=
  PathGraph.selectedPathIds s = PathGraph.getIdForPath <$> PathGraph.paths s
  /\ NoDup (PathGraph.selectedPathIds s)
  /\ Forall (selected_by pg tIn tOut config) (PathGraph.paths s).

(** ** Notions for the search between two tokens of one pool *)

(** Two addresses that belong to member tokens at different positions of
    one pool of the snapshot. *)
Definition share_pool (pools : list Pool) (a b : string) : Prop :=
  exists p i j ti tj,
    p ∈ pools /\ i <> j /\ p_tokens p !! i = Some ti /\ p_tokens p !! j = Some tj
    /\ t_address (ta_token ti) = a /\ t_address (ta_token tj) = b.

(** A configuration that does not rule out a path over a single pool. *)
Definition admits_single_hop (config : PathGraph.PathGraphTraversalConfig) : Prop :=
  PathGraph.poolIdsToInclude config = None
  /\ (1 <= PathGraph.maxDepth config)%Z
  /\ (2 <= PathGraph.maxNonBoostedPathDepth config)%Z
  /\ (0 <= PathGraph.maxNonBoostedHopTokensInBoostedPath config)%Z
  /\ (1 <= PathGraph.approxPathsToReturn config)%Z.

(** ** Notions for the properties of [buildPath] *)

(** The edges that [buildPath] looks up for each hop of a token path. *)
Definition hop_edges (g : Graphlib.Graph PathGraph.PathGraphEdgeLabel) (tp : list string)
  : list (list Graphlib.EdgeObj) :=
  (fun ab => default [] (Graphlib.outEdges g ab.1 ab.2)) <$> zip tp (tail tp).

(** [outEdges[tokenPairIndex] || outEdges[0]]. *)
Definition chosen_edge (idx : nat) (out : list Graphlib.EdgeObj) : option Graphlib.EdgeObj :=
  from_option Some (out !! 0) (out !! idx).

(** ** Notions for the reuse of pools *)



(** ** Notions for the ids of paths *)

(** A string in which the character [c] does not occur. *)
Fixpoint lacks (c : ascii) (s : string) : bool :=
  match s with
  | EmptyString => true
  | String c' s' => negb (Ascii.eqb c' c) && lacks c s'
  end.

(** A segment whose pool id and token addresses hold neither of the two
    separators of path ids, as hexadecimal ids and addresses do. *)
Definition plain_segment (s : PathGraph.PathGraphEdge) : Prop :=
  lacks "-" (PathGraph.poolId (PathGraph.label s)) = true
  /\ lacks "-" (PathGraph.tokenIn s) = true
  /\ lacks "_" (PathGraph.poolId (PathGraph.label s)) = true
  /\ lacks "_" (PathGraph.tokenIn s) = true
  /\ lacks "_" (PathGraph.tokenOut s) = true.

(** What a path id is made of. *)
Definition segment_key (s : PathGraph.PathGraphEdge) : string * string * string :=
  (PathGraph.poolId (PathGraph.label s), PathGraph.tokenIn s, PathGraph.tokenOut s).

(** ** [entities/encoders/weighted.ts]: the user data of a weighted pool

    [encodeAbiParameters] is [viem]'s encoder of the contract ABI.  A value
    of type [Hex] is modelled by the sequence of 32-byte words that it
    spells (the string is ["0x"] followed by 64 hexadecimal digits per
    word); a [bigint] is a [Z]. *)

Module Abi.

(** The values of the two parameter types that the encoder uses,
    [uint256] and [uint256[]]. *)
Inductive AbiValue : Type :=
| VUint (z : Z)
| VArray (l : list Z).

(** The error that [viem] throws for a number outside of its type. *)
Definition IntegerOutOfRangeError : Error := JsError "IntegerOutOfRangeError".

(** [encodeNumber] for [uint256]: one word. *)
Definition encodeNumber (z : Z) : result Z :=
  if bool_decide (0 <= z < 2 ^ 256)%Z then Ok z else Err IntegerOutOfRangeError.

(** [prepareParam]: whether the parameter is dynamic, and its words; a
    dynamic array is its length followed by its elements. *)
Definition prepareParam (v : AbiValue) : result (bool * list Z) :=
  match v with
  | VUint z => w ← encodeNumber z; Ok (false, [w])
  | VArray l => ws ← mapM encodeNumber l; Ok (true, Z.of_nat (length l) :: ws)
  end.

(** The size in bytes of the head of a parameter. *)
Definition head_size (p : bool * list Z) : Z :=
  if p.1 then 32%Z else (32 * Z.of_nat (length p.2))%Z.

(** [encodeParams]: the heads, where a dynamic parameter leaves the offset
    of its data, followed by the data of the dynamic parameters. *)
Fixpoint heads (ps : list (bool * list Z)) (offset : Z) : list Z :=
  match ps with
  | [] => []
  | (true, enc) :: rest => offset :: heads rest (offset + 32 * Z.of_nat (length enc))%Z
  | (false, enc) :: rest => enc ++ heads rest offset
  end.

Definition tails (ps : list (bool * list Z)) : list Z :=
  concat ((fun p : bool * list Z => if p.1 then p.2 else []) <$> ps).

Definition encodeParams (ps : list (bool * list Z)) : list Z :=
  heads ps (foldr Z.add 0%Z (head_size <$> ps)) ++ tails ps.

Definition encodeAbiParameters (values : list AbiValue) : result (list Z) :=
  ps ← mapM prepareParam values;
  Ok (encodeParams ps).

End Abi.

Module WeightedEncoder.
Import Abi.

Inductive WeightedPoolJoinKind : Type :=
| INIT | EXACT_TOKENS_IN_FOR_BPT_OUT | TOKEN_IN_FOR_EXACT_BPT_OUT
| ALL_TOKENS_IN_FOR_EXACT_BPT_OUT.

Inductive WeightedPoolExitKind : Type :=
| EXACT_BPT_IN_FOR_ONE_TOKEN_OUT | EXACT_BPT_IN_FOR_TOKENS_OUT
| BPT_IN_FOR_EXACT_TOKENS_OUT | MANAGEMENT_FEE_TOKENS_OUT.

(** [BigInt(kind)] for the values of the two enums. *)
Definition joinKind (k : WeightedPoolJoinKind) : Z :=
  match k with
  | INIT => 0
  | EXACT_TOKENS_IN_FOR_BPT_OUT => 1
  | TOKEN_IN_FOR_EXACT_BPT_OUT => 2
  | ALL_TOKENS_IN_FOR_EXACT_BPT_OUT => 3
  end.

Definition exitKind (k : WeightedPoolExitKind) : Z :=
  match k with
  | EXACT_BPT_IN_FOR_ONE_TOKEN_OUT => 0
  | EXACT_BPT_IN_FOR_TOKENS_OUT => 1
  | BPT_IN_FOR_EXACT_TOKENS_OUT => 2
  | MANAGEMENT_FEE_TOKENS_OUT => 3
  end.

Definition addLiquidityInit (amountsIn : list Z) : result (list Z) :=
  encodeAbiParameters [VUint (joinKind INIT); VArray amountsIn].

Definition addLiquidityUnbalanced (amountsIn : list Z) (minimumBPT : Z) : result (list Z) :=
  encodeAbiParameters
    [VUint (joinKind EXACT_TOKENS_IN_FOR_BPT_OUT); VArray amountsIn; VUint minimumBPT].

(** [tokenIndex] is a [number]; [BigInt(tokenIndex)] of an integer. *)
Definition addLiquiditySingleToken (bptAmountOut : Z) (tokenIndex : Z) : result (list Z) :=
  encodeAbiParameters
    [VUint (joinKind TOKEN_IN_FOR_EXACT_BPT_OUT); VUint bptAmountOut; VUint tokenIndex].

Definition addLiquidityProportional (bptAmountOut : Z) : result (list Z) :=
  encodeAbiParameters [VUint (joinKind ALL_TOKENS_IN_FOR_EXACT_BPT_OUT); VUint bptAmountOut].

Definition removeLiquiditySingleToken (bptAmountIn : Z) (tokenIndex : Z) : result (list Z) :=
  encodeAbiParameters
    [VUint (exitKind EXACT_BPT_IN_FOR_ONE_TOKEN_OUT); VUint bptAmountIn; VUint tokenIndex].

Definition removeLiquidityProportional (bptAmountIn : Z) : result (list Z) :=
  encodeAbiParameters [VUint (exitKind EXACT_BPT_IN_FOR_TOKENS_OUT); VUint bptAmountIn].

Definition removeLiquidityUnbalanced (amountsOut : list Z) (maxBPTAmountIn : Z)
  : result (list Z) :=
  encodeAbiParameters
    [VUint (exitKind BPT_IN_FOR_EXACT_TOKENS_OUT); VArray amountsOut; VUint maxBPTAmountIn].

End WeightedEncoder.

(** A number that fits the type [uint256]. *)
Definition uint256 (z : Z) : Prop := (0 <= z < 2 ^ 256)%Z.

#[global] Instance uint256_dec z : Decision (uint256 z).
Proof. unfold uint256. apply _. Defined.

(** A call of one of the four encoders of added liquidity, and of one of
    the three encoders of removed liquidity. *)
Inductive AddLiquidityCall : Type :=
| CallInit (amountsIn : list Z)
| CallUnbalanced (amountsIn : list Z) (minimumBPT : Z)
| CallSingleToken (bptAmountOut tokenIndex : Z)
| CallProportional (bptAmountOut : Z).

Inductive RemoveLiquidityCall : Type :=
| CallRemoveSingleToken (bptAmountIn tokenIndex : Z)
| CallRemoveProportional (bptAmountIn : Z)
| CallRemoveUnbalanced (amountsOut : list Z) (maxBPTAmountIn : Z).

Definition encodeAdd (c : AddLiquidityCall) : result (list Z) :=
  match c with
  | CallInit a => WeightedEncoder.addLiquidityInit a
  | CallUnbalanced a m => WeightedEncoder.addLiquidityUnbalanced a m
  | CallSingleToken b i => WeightedEncoder.addLiquiditySingleToken b i
  | CallProportional b => WeightedEncoder.addLiquidityProportional b
  end.

Definition encodeRemove (c : RemoveLiquidityCall) : result (list Z) :=
  match c with
  | CallRemoveSingleToken b i => WeightedEncoder.removeLiquiditySingleToken b i
  | CallRemoveProportional b => WeightedEncoder.removeLiquidityProportional b
  | CallRemoveUnbalanced a m => WeightedEncoder.removeLiquidityUnbalanced a m
  end.

(** The numbers that a call passes to the encoder. *)
Definition add_numbers (c : AddLiquidityCall) : list Z :=
  match c with
  | CallInit a => a
  | CallUnbalanced a m => a ++ [m]
  | CallSingleToken b i => [b; i]
  | CallProportional b => [b]
  end.

Definition remove_numbers (c : RemoveLiquidityCall) : list Z :=
  match c with
  | CallRemoveSingleToken b i => [b; i]
  | CallRemoveProportional b => [b]
  | CallRemoveUnbalanced a m => a ++ [m]
  end.

(** The words of the user data of a call whose numbers fit [uint256]. *)
Definition add_words (c : AddLiquidityCall) : list Z :=
  match c with
  | CallInit a => [0; 64; Z.of_nat (length a)]%Z ++ a
  | CallUnbalanced a m => [1; 96; m; Z.of_nat (length a)]%Z ++ a
  | CallSingleToken b i => [2; b; i]%Z
  | CallProportional b => [3; b]%Z
  end.

Definition remove_words (c : RemoveLiquidityCall) : list Z :=
  match c with
  | CallRemoveSingleToken b i => [0; b; i]%Z
  | CallRemoveProportional b => [1; b]%Z
  | CallRemoveUnbalanced a m => [2; 96; m; Z.of_nat (length a)]%Z ++ a
  end.

(** * Properties *)

(** ** The result monad *)

Lemma result_bind_Ok {A B} (f : A -> result B) (m : result A) (b : B) :
  m ≫= f = Ok b <-> exists a, m = Ok a /\ f a = Ok b.
Proof.
  destruct m as [a|e]; simpl; split.
  - intros H; eauto.
  - intros (a' & [= <-] & H); done.
  - discriminate.
  - intros (a' & [=] & _).
Qed.

Lemma result_bind_Err {A B} (f : A -> result B) (m : result A) (e : Error) :
  m ≫= f = Err e <-> m = Err e \/ exists a, m = Ok a /\ f a = Err e.
Proof.
  destruct m as [a|e']; simpl; split.
  - intros H; right; eauto.
  - intros [[=] | (a' & [= <-] & H)]; done.
  - intros [= <-]; by left.
  - intros [[= <-] | (a' & [=] & _)]; done.
Qed.

Lemma token_same_true (a b : Token) : token_same a b = true <-> a = b.
Proof. unfold token_same. apply bool_decide_eq_true. Qed.

(** ** [PathWithAmount] *)

Section PathPricing.
Import Path.

Lemma js_array_set_length {A} (arr : list (option A)) i x :
  length (js_array_set arr i x) = length arr `max` S i.
Proof.
  unfold js_array_set. case_decide.
  - rewrite length_insert. lia.
  - rewrite !length_app, length_replicate. simpl. lia.
Qed.

Lemma js_array_get_set {A} (arr : list (option A)) i x :
  js_array_get (js_array_set arr i x) i = Some x.
Proof.
  unfold js_array_get, js_array_set. case_decide.
  - by rewrite list_lookup_insert_eq.
  - rewrite lookup_app_r by lia.
    rewrite lookup_app_r by (rewrite length_replicate; lia).
    rewrite length_replicate.
    replace (i - length arr - (i - length arr)) with 0 by lia. done.
Qed.

Lemma tail_drop {A} (l : list A) i : tail (drop i l) = drop (S i) l.
Proof. revert l. induction i as [|i IH]; intros [|x l]; simpl; auto. Qed.

(** The loop computes the forward quote of the remaining pools and stores
    it in the slot after the last pool. *)
Lemma outputAmount_loop_spec toks rest : forall i amounts a,
  js_array_get amounts i = Some a ->
  match outputAmount_loop toks rest i amounts, quoteForward (drop i toks) rest a with
  | Ok amounts', Ok r =>
      js_array_get amounts' (i + length rest) = Some r
      /\ length amounts' = length amounts `max` S (i + length rest)
  | Err e, Err e' => e = e'
  | _, _ => False
  end.
Proof.
  induction rest as [|pool rest IH]; intros i amounts a Hget; simpl.
  - rewrite Nat.add_0_r. split; [done|].
    assert (i < length amounts); [|lia].
    unfold js_array_get in Hget. destruct (amounts !! i) eqn:E; [|done].
    by eapply lookup_lt_Some.
  - rewrite Hget, !lookup_drop, Nat.add_0_r, Nat.add_1_r.
    destruct (swapGivenIn pool (toks !! i) (toks !! S i) (Some a)) as [out|e]; simpl; [|done].
    specialize (IH (S i) (js_array_set amounts (S i) out) out (js_array_get_set _ _ _)).
    rewrite tail_drop.
    destruct (outputAmount_loop _ _ _ _), (quoteForward _ _ _); try done.
    rewrite js_array_set_length in IH.
    replace (i + S (length rest)) with (S i + length rest) by lia.
    destruct IH as [-> ->]. split; [done | lia].
Qed.
End PathPricing.

(** C1 (as amended): for a [GivenIn] path that has at least as many pools as
    hops between its tokens (every path with [pools = tokens - 1]),
    [outputAmount] is the fixed input fed through pool 0 and then hop by hop
    through the next pools, in token order; for a [GivenOut] path
    [outputAmount] is the fixed swap amount itself and no pool is asked. *)
Theorem C1_outputAmount_pricing (p : Path.PathWithAmount) :
  (Path.swapKind p = GivenIn ->
   length (Path.tokens p) <= S (length (Path.pools p)) ->
   Path.outputAmount p
   = Some <$> Path.quoteForward (Path.tokens p) (Path.pools p) (Path.swapAmount p))
  /\ (Path.swapKind p = GivenOut -> Path.outputAmount p = Ok (Some (Path.swapAmount p))).
Proof.
  split; intros Hk; unfold Path.outputAmount; rewrite Hk; [|done].
  intros Hlen.
  pose proof (outputAmount_loop_spec (Path.tokens p) (Path.pools p) 0
                (js_array_set (replicate (length (Path.tokens p)) None) 0 (Path.swapAmount p))
                (Path.swapAmount p) (js_array_get_set _ _ _)) as H.
  rewrite drop_0 in H.
  destruct (Path.outputAmount_loop _ _ _ _) as [amounts'|e],
           (Path.quoteForward _ _ _) as [r|e']; simpl in *; try done; [|by subst].
  destruct H as [Hget Hl].
  rewrite js_array_set_length, length_replicate in Hl.
  replace (length amounts' - 1) with (length (Path.pools p)) by lia.
  by rewrite Hget.
Qed.

Lemma C1_outputAmount_pricing_witness :
  Path.outputAmount Examples.pathABC_in = Ok (Some (Examples.amount Examples.tokC 30)).
Proof.
  exact (proj1 (C1_outputAmount_pricing Examples.pathABC_in) eq_refl (le_n 3)).
Defined.

(** C1 as stated fails in the output-fixed direction: on a [GivenOut] path
    the priced amount is not the reverse application of the pools' quotes. *)
Lemma C1_GivenOut_not_reverse_quoted :
  Path.swapKind Examples.pathABC_out = GivenOut
  /\ Path.outputAmount Examples.pathABC_out
     <> Some <$> Path.quoteBackward (Path.tokens Examples.pathABC_out)
                   (Path.pools Examples.pathABC_out) (Path.swapAmount Examples.pathABC_out).
Proof. split; [reflexivity | vm_compute; discriminate]. Qed.

(** C10: the swap kind is [GivenIn] exactly when the first token of the path
    is the token object of the swap amount, and [GivenOut] in every other
    case (an intermediate token, a foreign token, an empty token list); the
    constructor never rejects. *)
Theorem C10_swapKind_from_first_token (tokens : list Token) (pools : list Pool)
    (swapAmount : TokenAmount) :
  (Path.swapKind (Path.new tokens pools swapAmount) = GivenIn
   <-> tokens !! 0 = Some (ta_token swapAmount))
  /\ (Path.swapKind (Path.new tokens pools swapAmount) = GivenOut
      <-> tokens !! 0 <> Some (ta_token swapAmount)).
Proof.
  unfold Path.new; cbn [Path.swapKind].
  destruct (tokens !! 0) as [t0|]; [|split; split; done].
  destruct (token_same t0 (ta_token swapAmount)) eqn:E.
  - apply token_same_true in E as ->. split; split; done.
  - assert (t0 <> ta_token swapAmount)
      by (intros Heq%token_same_true; congruence).
    split; split; try done; congruence.
Qed.

(** ** [Swap] *)

(** C9: for every constructed [Swap], [isBatchSwap] holds exactly when there
    is more than one path or the single path uses more than two pools; a
    single path over exactly two pools is not a batch swap. *)
Theorem C9_isBatchSwap (DEFAULT_USERDATA ZERO_ADDRESS : string)
    (paths : list Swap.PathEntry) (swapKind : SwapKind) (swapAmount : TokenAmount)
    (s : Swap.Swap) :
  Swap.new DEFAULT_USERDATA ZERO_ADDRESS paths swapKind swapAmount = Ok s ->
  (Swap.isBatchSwap s = true
   <-> 1 < length paths
       \/ exists p, paths = [p] /\ 2 < length (Path.pools (Swap.path p)))
  /\ (forall p, paths = [p] -> length (Path.pools (Swap.path p)) = 2 ->
      Swap.isBatchSwap s = false).
Proof.
  unfold Swap.new. destruct paths as [|p0 rest]; [done|].
  intros (swaps & _ & [= <-])%result_bind_Ok. cbn [Swap.isBatchSwap].
  split.
  - split.
    + intros H. destruct rest as [|p1 rest]; [right | left; simpl; lia].
      exists p0. split; [done|].
      repeat case_bool_decide; simpl in *; try done; lia.
    + intros [H | (p & [= -> ->] & H)];
        repeat case_bool_decide; simpl in *; try done; lia.
  - intros p [= -> ->] Hlen.
    repeat case_bool_decide; simpl in *; try done; lia.
Qed.

Lemma C9_isBatchSwap_witness :
  Swap.isBatchSwap
    (Swap.mkSwap [Examples.entryABC] GivenIn false false ["0xA"; "0xB"; "0xC"]
       [Swap.mkBatchSwapStep "id-AB" 0 1 "5" "0x"; Swap.mkBatchSwapStep "id-BC" 1 2 "0" "0x"])
  = false.
Proof.
  exact (proj2 (C9_isBatchSwap Examples.DEFAULT_USERDATA Examples.ZERO_ADDRESS
                  [Examples.entryABC] GivenIn (Examples.amount Examples.tokA 5) _ eq_refl)
               Examples.entryABC eq_refl eq_refl).
Defined.

Section SwapAmounts.
Import Swap.




End SwapAmounts.



(** ** The orchestrator *)

Section Orchestrator.
Import Sor.
Variable getPools : result (list Pool).
Variable getCandidatePaths :
  Token -> Token -> SwapKind -> list Pool -> result (list Path.Path).
Variable getBestPaths : list Path.Path -> SwapKind -> TokenAmount -> result Swap.Swap.
Variables tokenIn tokenOut : Token.
Variable swapKind : SwapKind.
Variable swapAmount : TokenAmount.

(** [getSwaps] is the straight sequence of its three collaborators. *)
Lemma getSwaps_unfold :
  getSwaps getPools getCandidatePaths getBestPaths tokenIn tokenOut swapKind swapAmount
  = match getPools with
    | Err e => Traced [ConsoleTime "poolProvider"; CallGetPools] (Err e)
    | Ok pools =>
        let t1 := [ConsoleTime "poolProvider"; CallGetPools; ConsoleTimeEnd "poolProvider";
                   ConsoleTime "getCandidatePaths";
                   CallGetCandidatePaths tokenIn tokenOut swapKind pools] in
        match getCandidatePaths tokenIn tokenOut swapKind pools with
        | Err e => Traced t1 (Err e)
        | Ok candidatePaths =>
            let t2 := t1 ++ [ConsoleTimeEnd "getCandidatePaths"; ConsoleTime "bestPaths";
                             CallGetBestPaths candidatePaths swapKind swapAmount] in
            match getBestPaths candidatePaths swapKind swapAmount with
            | Err e => Traced t2 (Err e)
            | Ok bestPaths =>
                Traced (t2 ++ [ConsoleTimeEnd "bestPaths"])
                       (Ok (mkSwapInfo swapAmount bestPaths (Swap.paths bestPaths)))
            end
        end
    end.
Proof.
  unfold getSwaps, mbind, traced_bind, call, emit, mret, traced_ret; simpl.
  destruct getPools as [pools|e]; simpl; [|done].
  destruct (getCandidatePaths _ _ _ _) as [c|e]; simpl; [|done].
  destruct (getBestPaths _ _ _) as [best|e]; simpl; done.
Qed.
End Orchestrator.

(** C2 (as amended): whenever the orchestrator returns, its quote is the
    caller's requested swap amount, unchanged; the selected route is returned
    beside it as [swap]. *)
Theorem C2_quote_is_swapAmount
    (getPools : result (list Pool))
    (getCandidatePaths : Token -> Token -> SwapKind -> list Pool -> result (list Path.Path))
    (getBestPaths : list Path.Path -> SwapKind -> TokenAmount -> result Swap.Swap)
    (tokenIn tokenOut : Token) (swapKind : SwapKind) (swapAmount : TokenAmount)
    (info : Sor.SwapInfo) :
  Sor.outcome (Sor.getSwaps getPools getCandidatePaths getBestPaths
                 tokenIn tokenOut swapKind swapAmount) = Ok info ->
  Sor.quote info = swapAmount
  /\ exists pools candidatePaths,
       getPools = Ok pools
       /\ getCandidatePaths tokenIn tokenOut swapKind pools = Ok candidatePaths
       /\ getBestPaths candidatePaths swapKind swapAmount = Ok (Sor.swap info)
       /\ Sor.paths info = Swap.paths (Sor.swap info).
Proof.
  rewrite getSwaps_unfold.
  destruct getPools as [pools|e]; simpl; [|done].
  destruct (getCandidatePaths _ _ _ _) as [c|e] eqn:Ec; simpl; [|done].
  destruct (getBestPaths _ _ _) as [best|e] eqn:Eb; simpl; [|done].
  intros [= <-]. simpl. eauto 10.
Qed.

Lemma C2_quote_is_swapAmount_witness :
  Sor.quote <$>
    Sor.outcome (Sor.getSwaps (Ok [Examples.poolAB; Examples.poolBC])
                   Examples.router_candidates Examples.router_best
                   Examples.tokA Examples.tokC GivenIn (Examples.amount Examples.tokA 5))
  = Ok (Examples.amount Examples.tokA 5).
Proof.
  destruct (Sor.outcome _) as [info|e] eqn:E; [|vm_compute in E; discriminate].
  simpl. f_equal.
  exact (proj1 (C2_quote_is_swapAmount _ _ _ _ _ _ _ info E)).
Defined.

(** C2 as stated fails: the route below prices 5 [A] at 30 [C], and the
    quote that comes back is the 5 [A] that were asked for. *)
Lemma C2_quote_is_not_aggregate :
  let r := Sor.outcome (Sor.getSwaps (Ok [Examples.poolAB; Examples.poolBC])
                          Examples.router_candidates Examples.router_best
                          Examples.tokA Examples.tokC GivenIn
                          (Examples.amount Examples.tokA 5)) in
  (r ≫= fun info => aggregatePricedAmount (Sor.swap info))
  = Ok (Examples.amount Examples.tokC 30)
  /\ ~ (forall info, r = Ok info -> aggregatePricedAmount (Sor.swap info) = Ok (Sor.quote info)).
Proof.
  split; [vm_compute; reflexivity|].
  intros H. specialize (H _ eq_refl). vm_compute in H. discriminate.
Qed.

(** C7 (as amended): the orchestrator validates nothing itself.  Whatever
    the tokens (identical or not) and the pool snapshot (empty or not), it
    hands them to the router's candidate search; it fails only when a
    collaborator fails, with that collaborator's error, and succeeds when
    all three succeed. *)
Theorem C7_no_input_validation
    (getPools : result (list Pool))
    (getCandidatePaths : Token -> Token -> SwapKind -> list Pool -> result (list Path.Path))
    (getBestPaths : list Path.Path -> SwapKind -> TokenAmount -> result Swap.Swap)
    (tokenIn tokenOut : Token) (swapKind : SwapKind) (swapAmount : TokenAmount) :
  let r := Sor.getSwaps getPools getCandidatePaths getBestPaths
             tokenIn tokenOut swapKind swapAmount in
  (forall pools, getPools = Ok pools ->
     Sor.CallGetCandidatePaths tokenIn tokenOut swapKind pools ∈ Sor.trace r)
  /\ (forall e, Sor.outcome r = Err e ->
        getPools = Err e
        \/ exists pools, getPools = Ok pools
           /\ (getCandidatePaths tokenIn tokenOut swapKind pools = Err e
               \/ exists c, getCandidatePaths tokenIn tokenOut swapKind pools = Ok c
                            /\ getBestPaths c swapKind swapAmount = Err e))
  /\ (forall pools c best,
        getPools = Ok pools ->
        getCandidatePaths tokenIn tokenOut swapKind pools = Ok c ->
        getBestPaths c swapKind swapAmount = Ok best ->
        Sor.outcome r = Ok (Sor.mkSwapInfo swapAmount best (Swap.paths best))).
Proof.
  intros r. subst r. rewrite getSwaps_unfold.
  destruct getPools as [pools|e]; simpl.
  { destruct (getCandidatePaths _ _ _ _) as [c|e] eqn:Ec; simpl.
    { destruct (getBestPaths _ _ _) as [best|e] eqn:Eb; simpl.
      - split; [intros; simplify_eq; set_solver|].
        split; intros; simplify_eq; congruence.
      - split; [intros; simplify_eq; set_solver|].
        split; intros; simplify_eq; [right; eauto 10 | congruence]. }
    split; [intros; simplify_eq; set_solver|].
    split; intros; simplify_eq; [right; eauto | congruence]. }
  split; [intros; simplify_eq|].
  split; intros; simplify_eq. by left.
Qed.

Lemma C7_no_input_validation_witness :
  Sor.CallGetCandidatePaths Examples.tokA Examples.tokA GivenIn []
  ∈ Sor.trace (Sor.getSwaps (Ok []) Examples.router_candidates Examples.router_best
                 Examples.tokA Examples.tokA GivenIn (Examples.amount Examples.tokA 5)).
Proof.
  exact (proj1 (C7_no_input_validation (Ok []) Examples.router_candidates
                  Examples.router_best Examples.tokA Examples.tokA GivenIn
                  (Examples.amount Examples.tokA 5)) [] eq_refl).
Defined.

(** C7 as stated fails: with identical tokens and an empty pool snapshot
    the orchestrator does not fail, and the search has been started. *)
Lemma C7_identical_tokens_not_rejected :
  let r := Sor.getSwaps (Ok []) Examples.router_candidates Examples.router_best
             Examples.tokA Examples.tokA GivenIn (Examples.amount Examples.tokA 5) in
  is_Ok (Sor.outcome r) = true
  /\ existsb Sor.is_search_work (Sor.trace r) = true.
Proof. split; reflexivity. Qed.


(** ** Folds and sorting *)

Lemma foldlM_app {A B} (f : B -> A -> result B) (b : B) (l1 l2 : list A) :
  foldlM f b (l1 ++ l2) = foldlM f b l1 ≫= fun b' => foldlM f b' l2.
Proof.
  revert b. induction l1 as [|x l1 IH]; intros b; simpl; [done|].
  destruct (f b x) as [b'|e]; simpl; [apply IH | done].
Qed.

(** An invariant that every step preserves holds at the end of the fold. *)
Lemma foldlM_invariant {A B} (Inv : B -> Prop) (f : B -> A -> result B) (l : list A) :
  (forall b x b', x ∈ l -> Inv b -> f b x = Ok b' -> Inv b') ->
  forall b b', Inv b -> foldlM f b l = Ok b' -> Inv b'.
Proof.
  induction l as [|x l IH]; intros Hstep b b' Hb; simpl.
  - by intros [= <-].
  - intros (b1 & Hf & Hrest)%result_bind_Ok.
    eapply IH; [| |exact Hrest].
    + intros ???? ; apply Hstep. by right.
    + eapply Hstep; [by left | exact Hb | exact Hf].
Qed.

(** A fold whose steps cannot fail does not fail. *)
Lemma foldlM_total {A B} (f : B -> A -> result B) (l : list A) :
  (forall b x, x ∈ l -> exists b', f b x = Ok b') ->
  forall b, exists b', foldlM f b l = Ok b'.
Proof.
  induction l as [|x l IH]; intros Hstep b; simpl; [eauto|].
  destruct (Hstep b x) as [b1 ->]; [by left|]. simpl.
  apply IH. intros ???; apply Hstep. by right.
Qed.

Section Sorting.
Context {A : Type} (key : A -> Z).

Lemma insert_by_perm lt (x : A) l : insert_by key lt x l ≡ₚ x :: l.
Proof.
  induction l as [|y l IH]; simpl; [done|].
  destruct (lt (key y) (key x)); [|done].
  rewrite IH. apply Permutation_swap.
Qed.

Lemma orderBy_desc_perm (l : list A) : orderBy_desc key l ≡ₚ l.
Proof.
  induction l as [|x l IH]; simpl; [done|].
  unfold orderBy_desc in *; simpl. by rewrite insert_by_perm, IH.
Qed.

Lemma sortBy_perm (l : list A) : sortBy key l ≡ₚ l.
Proof.
  induction l as [|x l IH]; simpl; [done|].
  unfold sortBy in *; simpl. by rewrite insert_by_perm, IH.
Qed.

Lemma insert_by_desc_sorted (x : A) l :
  StronglySorted (desc key) l -> StronglySorted (desc key) (insert_by key Z.gtb x l).
Proof.
  induction 1 as [|y l Hl IH Hy]; simpl.
  - repeat constructor.
  - destruct (Z.gtb_spec (key y) (key x)) as [Hgt|Hle].
    + constructor; [done|].
      rewrite insert_by_perm. constructor; [unfold desc; lia | done].
    + constructor; [by constructor|].
      constructor; [done|].
      eapply Forall_impl; [exact Hy|]. unfold desc. intros z ?; simpl in *. lia.
Qed.

Lemma orderBy_desc_sorted (l : list A) : StronglySorted (desc key) (orderBy_desc key l).
Proof.
  induction l as [|x l IH]; [constructor|].
  apply insert_by_desc_sorted, IH.
Qed.

(** In a group ordered by [orderBy_desc], a later entry never outranks an
    earlier one. *)
Lemma orderBy_desc_lookup (l : list A) i j x y :
  orderBy_desc key l !! i = Some x -> orderBy_desc key l !! j = Some y ->
  i <= j -> (key y <= key x)%Z.
Proof.
  intros Hi Hj Hij. destruct (decide (i = j)) as [->|Hne].
  - rewrite Hi in Hj. injection Hj as ->. lia.
  - pose proof (orderBy_desc_sorted l) as Hs.
    generalize dependent (orderBy_desc key l). intros s.
    revert i j Hij Hne. induction s as [|z s IH]; intros i j Hij Hne Hi Hj Hs; [done|].
    inversion_clear Hs as [|?? Hs' Hall].
    destruct i as [|i], j as [|j]; simpl in *; try lia.
    + injection Hi as ->. rewrite Forall_forall in Hall.
      apply Hall. by eapply list_elem_of_lookup_2.
    + eapply (IH i j); eauto; lia.
Qed.
End Sorting.

Lemma foldlM_establish {A B} (Inv : B -> Prop) (f : B -> A -> result B) (l : list A) x0 :
  x0 ∈ l ->
  (forall b b', f b x0 = Ok b' -> Inv b') ->
  (forall b x b', x ∈ l -> Inv b -> f b x = Ok b' -> Inv b') ->
  forall b b', foldlM f b l = Ok b' -> Inv b'.
Proof.
  induction l as [|x l IH]; intros Hin H0 Hstep b b'; [by apply elem_of_nil in Hin|].
  simpl. intros (b1 & Hf & Hrest)%result_bind_Ok.
  apply elem_of_cons in Hin as [<-|Hin].
  - eapply (foldlM_invariant Inv f l); [| |exact Hrest]; [|by eapply H0].
    intros ????; apply Hstep. by right.
  - eapply IH; [done | done | | exact Hrest].
    intros ????; apply Hstep. by right.
Qed.

Lemma foldl_invariant {A B} (Inv : B -> Prop) (f : B -> A -> B) (l : list A) :
  (forall b x, x ∈ l -> Inv b -> Inv (f b x)) ->
  forall b, Inv b -> Inv (foldl f b l).
Proof.
  induction l as [|x l IH]; intros Hstep b Hb; simpl; [done|].
  apply IH; [intros ???; apply Hstep; by right|]. apply Hstep; [by left | done].
Qed.

(** What a fold has collected: what was there, or what some step added. *)
Lemma foldl_collects {A B} (f : B -> A -> B) (Has : B -> Prop) (Adds : A -> Prop) :
  (forall b x, Has (f b x) <-> Has b \/ Adds x) ->
  forall l b, Has (foldl f b l) <-> Has b \/ exists x, x ∈ l /\ Adds x.
Proof.
  intros Hstep. induction l as [|x l IH]; intros b; simpl.
  - split; [by left|]. intros [?|(x & Hx & _)]; [done | by apply elem_of_nil in Hx].
  - rewrite IH, Hstep. split.
    + intros [[?|?]|(y & ? & ?)]; [by left | right; exists x | right; exists y].
      * split; [by left | done].
      * split; [by right | done].
    + intros [?|(y & [->|Hy]%elem_of_cons & ?)]; [by left; left | by left; right |].
      right. by exists y.
Qed.

Lemma elem_of_ordered_pairs {A} (l : list A) (a b : A) :
  (a, b) ∈ ordered_pairs l <-> exists i j, i < j /\ l !! i = Some a /\ l !! j = Some b.
Proof.
  induction l as [|x l IH]; simpl.
  - split; [by intros ?%elem_of_nil | by intros (? & ? & ? & ? & ?)].
  - rewrite elem_of_app, list_elem_of_fmap, IH. split.
    + intros [(y & [= -> ->] & (j & Hj)%list_elem_of_lookup) | (i & j & ? & ? & ?)].
      * exists 0, (S j). split; [lia | done].
      * exists (S i), (S j). split; [lia | done].
    + intros (i & j & Hij & Hi & Hj). destruct j as [|j]; [lia|]. simpl in Hj.
      destruct i as [|i]; simpl in Hi.
      * left. injection Hi as ->. exists b. split; [done|]. by eapply list_elem_of_lookup_2.
      * right. exists i, j. split; [lia | done].
Qed.

(** ** The sorted pool pair map *)

Section PoolPairMap.
Import PathGraph.

Lemma pm_init_keys id (m : PoolPairMap) :
  (pm_init id m).*1 = if decide (id ∈ m.*1) then m.*1 else m.*1 ++ [id].
Proof. unfold pm_init. case_decide; [done|]. by rewrite fmap_app. Qed.

Lemma pm_push_keys id item (m : PoolPairMap) : (pm_push id item m).*1 = m.*1.
Proof.
  unfold pm_push. rewrite <- list_fmap_compose. apply list_fmap_ext.
  intros i [k items] _. simpl. by case_decide.
Qed.

Lemma in_group_pm_init id (m : PoolPairMap) k item :
  in_group (pm_init id m) k item <-> in_group m k item.
Proof.
  unfold in_group, pm_init. case_decide; [done|]. split.
  - intros (items & [Hin|Hin]%elem_of_app & Hitem); [eauto|].
    apply list_elem_of_singleton in Hin as [= -> ->]. by apply elem_of_nil in Hitem.
  - intros (items & Hin & Hitem). exists items. split; [|done].
    apply elem_of_app. by left.
Qed.

Lemma in_group_pm_push id it (m : PoolPairMap) k item :
  id ∈ m.*1 ->
  in_group (pm_push id it m) k item <-> in_group m k item \/ (k = id /\ item = it).
Proof.
  intros Hid. unfold in_group, pm_push. split.
  - intros (items & ([k' items'] & Heq & Hin)%list_elem_of_fmap & Hitem).
    simpl in Heq. case_decide; simplify_eq/=.
    + apply elem_of_app in Hitem as [Hitem | ->%list_elem_of_singleton]; [|by right].
      left. eauto.
    + left. eauto.
  - intros [(items & Hin & Hitem) | [-> ->]].
    + destruct (decide (k = id)) as [->|Hne].
      * exists (items ++ [it]). split; [|apply elem_of_app; by left].
        apply list_elem_of_fmap. exists (id, items). simpl.
        by rewrite decide_True.
      * exists items. split; [|done].
        apply list_elem_of_fmap. exists (k, items). simpl.
        by rewrite decide_False.
    + apply list_elem_of_fmap in Hid as ([k items] & -> & Hin). simpl in *.
      exists (items ++ [it]). split; [|apply elem_of_app; right; by left].
      apply list_elem_of_fmap. exists (k, items). simpl.
      by rewrite decide_True.
Qed.

Lemma pm_init_elem id (m : PoolPairMap) : id ∈ (pm_init id m).*1.
Proof. rewrite pm_init_keys. case_decide; [done|]. apply elem_of_app. right. by left. Qed.

Lemma pm_init_mono id id' (m : PoolPairMap) : id ∈ m.*1 -> id ∈ (pm_init id' m).*1.
Proof. rewrite pm_init_keys. case_decide; [done|]. intros. apply elem_of_app. by left. Qed.

Lemma pm_init_NoDup id (m : PoolPairMap) : NoDup m.*1 -> NoDup (pm_init id m).*1.
Proof.
  rewrite pm_init_keys. case_decide; [done|]. intros.
  apply NoDup_app. split; [done|]. split; [|apply NoDup_singleton].
  intros x Hx ->%list_elem_of_singleton. done.
Qed.

Lemma in_group_add_pool_pair pool (m : PoolPairMap) tij k item :
  in_group (add_pool_pair pool m tij) k item <-> in_group m k item \/ adds pool tij k item.
Proof.
  destruct tij as [ti tj]. unfold add_pool_pair, adds. simpl.
  rewrite !in_group_pm_push, !in_group_pm_init.
  - unfold item_of. tauto.
  - apply pm_init_mono, pm_init_elem.
  - rewrite pm_push_keys. apply pm_init_elem.
Qed.

Lemma add_pool_pair_NoDup pool (m : PoolPairMap) tij :
  NoDup m.*1 -> NoDup (add_pool_pair pool m tij).*1.
Proof.
  destruct tij as [ti tj]. unfold add_pool_pair. intros.
  rewrite !pm_push_keys. by do 2 apply pm_init_NoDup.
Qed.

Lemma in_group_collectPoolPairs pools k item :
  in_group (collectPoolPairs pools) k item
  <-> exists pool tij, pool ∈ pools /\ tij ∈ ordered_pairs (ta_token <$> p_tokens pool)
                       /\ adds pool tij k item.
Proof.
  unfold collectPoolPairs.
  rewrite (foldl_collects _ (fun m => in_group m k item)
             (fun pool => exists tij, tij ∈ ordered_pairs (ta_token <$> p_tokens pool)
                                      /\ adds pool tij k item)).
  - split.
    + intros [(items & []%elem_of_nil & _) | (pool & ? & tij & ? & ?)]. eauto.
    + intros (pool & tij & ? & ? & ?). right. eauto.
  - intros m pool.
    apply (foldl_collects _ (fun m => in_group m k item) (fun tij => adds pool tij k item)).
    intros m' tij. apply in_group_add_pool_pair.
Qed.

Lemma collectPoolPairs_NoDup pools : NoDup (collectPoolPairs pools).*1.
Proof.
  unfold collectPoolPairs.
  apply (foldl_invariant (fun m : PoolPairMap => NoDup m.*1)); [|constructor].
  intros m pool _ Hm.
  apply (foldl_invariant (fun m : PoolPairMap => NoDup m.*1)); [|done].
  intros m' tij _. apply add_pool_pair_NoDup.
Qed.

Lemma buildSortedPoolPairMap_keys pools :
  (buildSortedPoolPairMap pools).*1 = (collectPoolPairs pools).*1.
Proof.
  unfold buildSortedPoolPairMap. rewrite <- list_fmap_compose.
  by apply list_fmap_ext.
Qed.

Lemma in_group_buildSortedPoolPairMap pools k item :
  in_group (buildSortedPoolPairMap pools) k item <-> in_group (collectPoolPairs pools) k item.
Proof.
  unfold in_group, buildSortedPoolPairMap. split.
  - intros (items & ([k' items'] & [= -> ->] & Hin)%list_elem_of_fmap & Hitem).
    simpl in *. rewrite orderBy_desc_perm in Hitem. eauto.
  - intros (items & Hin & Hitem). exists (orderBy_desc item_rank items).
    split; [|by rewrite orderBy_desc_perm].
    apply list_elem_of_fmap. by exists (k, items).
Qed.

(** Every group is ranked by descending liquidity. *)
Lemma buildSortedPoolPairMap_ranked pools k items i j x y :
  (k, items) ∈ buildSortedPoolPairMap pools ->
  items !! i = Some x -> items !! j = Some y -> i <= j ->
  (item_rank y <= item_rank x)%Z.
Proof.
  unfold buildSortedPoolPairMap.
  intros ([k' items'] & [= -> ->] & Hin)%list_elem_of_fmap. simpl.
  apply orderBy_desc_lookup.
Qed.
End PoolPairMap.

(** ** The multigraph *)

Section GraphFacts.
Import Graphlib.
Context {L : Type}.
Implicit Types (g : Graph L) (e : EdgeObj) (lbl : L).

Lemma update_edge_keys e lbl (edges : list (EdgeObj * L)) :
  (update_edge e lbl edges).*1 = if decide (e ∈ edges.*1) then edges.*1 else edges.*1 ++ [e].
Proof.
  induction edges as [|[e' lbl'] edges IH]; [done|].
  cbn [update_edge]. rewrite fmap_cons. cbn [fst].
  destruct (decide (e' = e)) as [->|Hne]; rewrite fmap_cons; cbn [fst].
  - by rewrite decide_True by (by left).
  - rewrite IH. destruct (decide (e ∈ edges.*1)) as [Hin|Hnin].
    + by rewrite decide_True by (by right).
    + rewrite decide_False; [done|]. by intros [?|?]%elem_of_cons.
Qed.

Lemma elem_of_update_edge el e lbl (edges : list (EdgeObj * L)) :
  el ∈ update_edge e lbl edges -> el = (e, lbl) \/ el ∈ edges.
Proof.
  induction edges as [|[e' lbl'] edges IH]; simpl.
  - intros ->%list_elem_of_singleton. by left.
  - destruct (decide (e' = e)) as [->|Hne].
    + intros [->|?]%elem_of_cons; [by left | right; by right].
    + intros [->|?]%elem_of_cons; [right; by left|].
      destruct IH as [?|?]; [done | by left | right; by right].
Qed.

Lemma g_edges_setEdge g e lbl : g_edges (setEdge g e lbl) = update_edge e lbl (g_edges g).
Proof. unfold setEdge. by case_decide. Qed.

Lemma setNode_elem nodes n m : m ∈ setNode nodes n <-> m ∈ nodes \/ m = n.
Proof.
  unfold setNode. case_decide.
  - split; [by left|]. by intros [?| ->].
  - rewrite elem_of_app, list_elem_of_singleton. done.
Qed.

Lemma setEdge_keys_mono g e lbl e' :
  e' ∈ (g_edges g).*1 -> e' ∈ (g_edges (setEdge g e lbl)).*1.
Proof.
  rewrite g_edges_setEdge, update_edge_keys. case_decide; [done|].
  intros. apply elem_of_app. by left.
Qed.

Lemma setEdge_keys_new g e lbl : e ∈ (g_edges (setEdge g e lbl)).*1.
Proof.
  rewrite g_edges_setEdge, update_edge_keys. case_decide; [done|].
  apply elem_of_app. right. by left.
Qed.

Lemma setEdge_closed g e lbl : graph_closed g -> graph_closed (setEdge g e lbl).
Proof.
  intros [Hnd Hcl]. split.
  - rewrite g_edges_setEdge, update_edge_keys. case_decide; [done|].
    apply NoDup_app. split; [done|]. split; [|apply NoDup_singleton].
    by intros x Hx ->%list_elem_of_singleton.
  - intros e'. rewrite g_edges_setEdge, update_edge_keys. unfold setEdge.
    case_decide; simpl; [apply Hcl|].
    rewrite elem_of_app, list_elem_of_singleton, !setNode_elem.
    intros [?%Hcl | ->]; tauto.
Qed.

Lemma empty_closed : graph_closed (empty (L := L)).
Proof. split; [constructor | by intros ? ?%elem_of_nil]. Qed.

Lemma edge_label_Some e lbl (edges : list (EdgeObj * L)) :
  edge_label e edges = Some lbl -> (e, lbl) ∈ edges.
Proof.
  induction edges as [|[e' lbl'] edges IH]; simpl; [done|].
  case_decide; [intros [= ->]; subst; by left | intros; right; auto].
Qed.

Lemma edge_label_is_Some e (edges : list (EdgeObj * L)) :
  e ∈ edges.*1 -> is_Some (edge_label e edges).
Proof.
  induction edges as [|[e' lbl'] edges IH]; simpl; [by intros ?%elem_of_nil|].
  case_decide; [eauto|]. intros [?|?]%elem_of_cons; [done | auto].
Qed.
End GraphFacts.

Lemma keyBy_address_lookup (pools : list Pool) a p :
  PathGraph.keyBy_address pools !! a = Some p -> p ∈ pools /\ p_address p = a.
Proof.
  unfold PathGraph.keyBy_address.
  assert (forall m : gmap string Pool,
            foldl (fun m p => <[p_address p := p]> m) m pools !! a = Some p ->
            (p ∈ pools /\ p_address p = a) \/ m !! a = Some p) as H.
  { induction pools as [|q pools IH]; intros m; simpl; [by right|].
    intros [[??]|Hm]%IH; [left; split; [by right | done]|].
    destruct (decide (p_address q = a)) as [<-|Hne].
    - rewrite lookup_insert_eq in Hm. injection Hm as ->. left. split; [by left | done].
    - rewrite lookup_insert_ne in Hm by done. by right. }
  intros [?|Hm]%H; [done|]. by rewrite lookup_empty in Hm.
Qed.

Lemma keyBy_address_is_Some (pools : list Pool) p :
  p ∈ pools -> is_Some (PathGraph.keyBy_address pools !! p_address p).
Proof.
  unfold PathGraph.keyBy_address. generalize (∅ : gmap string Pool).
  assert (forall (l : list Pool) (m : gmap string Pool) a,
            is_Some (m !! a) -> is_Some (foldl (fun m p => <[p_address p := p]> m) m l !! a))
    as Hmono.
  { induction l as [|q l IH]; intros m a Hm; simpl; [done|].
    apply IH. destruct (decide (p_address q = a)) as [<-|Hne].
    - rewrite lookup_insert_eq. eauto.
    - by rewrite lookup_insert_ne. }
  induction pools as [|q pools IH]; intros m Hin; [by apply elem_of_nil in Hin|].
  apply elem_of_cons in Hin as [->|Hin]; simpl; [|by apply IH].
  apply Hmono. rewrite lookup_insert_eq. eauto.
Qed.

(** ** [buildGraph] *)

Section BuildGraph.
Import PathGraph Graphlib.
Variable pools : list Pool.
Variable maxPaths : Z.

Lemma group_item k items item :
  (k, items) ∈ buildSortedPoolPairMap pools -> item ∈ items ->
  exists p tIn tOut,
    p ∈ pools /\ tIn ∈ ta_token <$> p_tokens p /\ tOut ∈ ta_token <$> p_tokens p
    /\ k = pair_id tIn tOut /\ item = item_of p tIn tOut.
Proof.
  intros Hin Hitem.
  assert (in_group (buildSortedPoolPairMap pools) k item) as Hg by (by exists items).
  apply in_group_buildSortedPoolPairMap, in_group_collectPoolPairs in Hg
    as (p & [ti tj] & Hp & Hpair & Hadds).
  apply elem_of_ordered_pairs in Hpair as (i & j & _ & Hi & Hj).
  apply list_elem_of_lookup_2 in Hi, Hj.
  destruct Hadds as [[-> ->] | [-> ->]]; simpl; eauto 10.
Qed.

Lemma addItem_spec g i item k items :
  (k, items) ∈ buildSortedPoolPairMap pools -> items !! i = Some item ->
  exists p tIn tOut pool,
    p ∈ pools /\ tIn ∈ ta_token <$> p_tokens p /\ tOut ∈ ta_token <$> p_tokens p
    /\ k = pair_id tIn tOut /\ item = item_of p tIn tOut
    /\ keyBy_address pools !! p_address p = Some pool
    /\ addItem (keyBy_address pools) maxPaths g (i, item)
       = Ok (if bool_decide (Z.of_nat i < maxPaths)%Z || hasPhantomBpt pool (p_address p)
             then setEdge g (edge_of pool tIn tOut)
                          (label_of (keyBy_address pools) pool tIn tOut)
             else g).
Proof.
  intros Hin Hi.
  destruct (group_item k items item Hin) as (p & tIn & tOut & Hp & HtIn & HtOut & -> & ->);
    [by eapply list_elem_of_lookup_2|].
  destruct (keyBy_address_is_Some pools p Hp) as [pool Hpool].
  exists p, tIn, tOut, pool. repeat (split; [done|]).
  unfold addItem. simpl. rewrite Hpool. by destruct (_ || _).
Qed.

Lemma addItem_inv g g' i item k items :
  (k, items) ∈ buildSortedPoolPairMap pools -> items !! i = Some item ->
  build_inv pools maxPaths g -> addItem (keyBy_address pools) maxPaths g (i, item) = Ok g' -> build_inv pools maxPaths g'.
Proof.
  intros Hin Hi [Hcl Hkept].
  destruct (addItem_spec g i item k items Hin Hi)
    as (p & tIn & tOut & pool & Hp & HtIn & HtOut & -> & -> & Hpool & ->).
  intros [= <-]. destruct (_ || _) eqn:Etest; [|done].
  split; [by apply setEdge_closed|].
  intros el. rewrite g_edges_setEdge. intros [->|?]%elem_of_update_edge; [|auto].
  exists p, tIn, tOut, items, i, pool. repeat (split; [done|]). split; [|done].
  apply orb_true_iff in Etest as [?%bool_decide_eq_true|?]; auto.
Qed.

Lemma addGroup_inv g g' kv :
  kv ∈ buildSortedPoolPairMap pools ->
  build_inv pools maxPaths g -> addGroup (keyBy_address pools) maxPaths g kv = Ok g' -> build_inv pools maxPaths g'.
Proof.
  destruct kv as [k items]. intros Hin Hg. unfold addGroup. simpl.
  apply (foldlM_invariant (build_inv pools maxPaths)); [|done].
  intros b [i item] b' (i' & item' & [= -> ->] & Hi)%elem_of_lookup_imap.
  by eapply addItem_inv.
Qed.

Lemma addGroup_total g kv :
  kv ∈ buildSortedPoolPairMap pools ->
  exists g', addGroup (keyBy_address pools) maxPaths g kv = Ok g'.
Proof.
  destruct kv as [k items]. intros Hin. unfold addGroup. simpl.
  apply foldlM_total.
  intros b [i item] (i' & item' & [= -> ->] & Hi)%elem_of_lookup_imap.
  destruct (addItem_spec b i' item' k items Hin Hi)
    as (? & ? & ? & ? & _ & _ & _ & _ & _ & _ & ->). eauto.
Qed.

(** [buildGraph] never throws, and what it builds is made of kept pairs. *)
Lemma buildGraph_spec :
  exists g, buildGraph pools (Some maxPaths)
            = Ok (mkPathGraph g (keyBy_address pools) true maxPaths)
            /\ foldlM (addGroup (keyBy_address pools) maxPaths) empty
                 (buildSortedPoolPairMap pools) = Ok g
            /\ build_inv pools maxPaths g.
Proof.
  unfold buildGraph. simpl.
  destruct (foldlM_total (addGroup (keyBy_address pools) maxPaths)
              (buildSortedPoolPairMap pools)) with (b := empty (L := PathGraphEdgeLabel))
    as [g Hg]; [intros; by apply addGroup_total|].
  exists g. rewrite Hg. split; [done|]. split; [done|].
  eapply (foldlM_invariant (build_inv pools maxPaths)); [| |exact Hg].
  - intros ????. by apply addGroup_inv.
  - split; [apply empty_closed | by intros ? ?%elem_of_nil].
Qed.

Lemma addItem_keys_mono pam b x b' e :
  addItem pam maxPaths b x = Ok b' -> e ∈ (g_edges b).*1 -> e ∈ (g_edges b').*1.
Proof.
  destruct x as [j item]. unfold addItem.
  destruct (pam !! p_address (pp_pool (poolPair item))) as [q|]; [|done].
  destruct (orb _ _); intros [= <-]; [|done].
  apply setEdge_keys_mono.
Qed.

(** A pair that passes the test of [buildGraph] has its edge in the graph. *)
Lemma buildGraph_keeps g p tIn tOut items i pool :
  foldlM (addGroup (keyBy_address pools) maxPaths) empty (buildSortedPoolPairMap pools) = Ok g ->
  (pair_id tIn tOut, items) ∈ buildSortedPoolPairMap pools ->
  items !! i = Some (item_of p tIn tOut) ->
  keyBy_address pools !! p_address p = Some pool ->
  (Z.of_nat i < maxPaths)%Z \/ hasPhantomBpt pool (p_address p) = true ->
  edge_of pool tIn tOut ∈ (g_edges g).*1.
Proof.
  intros Hg Hin Hi Hpool Htest.
  set (Has := fun g : Graph PathGraphEdgeLabel => edge_of pool tIn tOut ∈ (g_edges g).*1).
  assert (forall b x b', addItem (keyBy_address pools) maxPaths b x = Ok b' -> Has b -> Has b')
    as Hmono by (intros ???; apply addItem_keys_mono).
  eapply (foldlM_establish Has _ _ _ Hin); [| |exact Hg].
  - intros b b'. unfold addGroup. simpl.
    apply (foldlM_establish Has _ _ (i, item_of p tIn tOut)).
    + by apply elem_of_lookup_imap_2.
    + intros b0 b0'. unfold addItem. simpl. rewrite Hpool.
      assert (bool_decide (Z.of_nat i < maxPaths)%Z || hasPhantomBpt pool (p_address p) = true)
        as -> by (destruct Htest as [?| ->];
                  [by rewrite bool_decide_eq_true_2 | apply orb_true_r]).
      intros [= <-]. apply setEdge_keys_new.
    + intros ???? ? ?. by eapply Hmono.
  - intros b [k' items'] b' _ Hb. unfold addGroup. simpl.
    apply (foldlM_invariant Has); [|done]. intros ???? ? ?. by eapply Hmono.
Qed.
End BuildGraph.

(** ** Pruning by liquidity rank (C4) *)

Section Pruning.
Import PathGraph Graphlib.


Lemma buildSortedPoolPairMap_NoDup pools : NoDup (buildSortedPoolPairMap pools).*1.
Proof. rewrite buildSortedPoolPairMap_keys. apply collectPoolPairs_NoDup. Qed.


End Pruning.



(** ** The relaxation of the seen pools (C3) *)

Section Relaxation.
Import PathGraph.

Lemma filterVolatilePools_spec pg (seen : list string) :
  (forall a, a ∈ seen -> isPoolAddress pg a) ->
  filterVolatilePools pg seen = Ok (weightedPools pg seen).
Proof.
  unfold weightedPools.
  induction seen as [|a seen IH]; intros Hall; simpl; [done|].
  destruct (Hall a) as [pool Hpool]; [by left|]. rewrite Hpool.
  rewrite IH by (intros; apply Hall; by right). simpl.
  rewrite filter_cons, Hpool. simpl.
  destruct (decide (p_poolType pool = Weighted)) as [->|Hne].
  - by rewrite decide_True.
  - rewrite decide_False; [done|]. by intros [= ?].
Qed.

Lemma searchLoop_stops pg tIn tOut config fuel inner : forall s s',
  searchLoop pg tIn tOut config fuel inner s = Ok s' ->
  (approxPathsToReturn config <= Z.of_nat (length (paths s')))%Z
  \/ seenPoolAddresses s' = [].
Proof.
  induction fuel as [|fuel IH]; intros s s'; simpl.
  - case_bool_decide; [done|]. intros [= <-]. left. lia.
  - case_bool_decide as Hlt; [|intros [= <-]; left; lia].
    intros (s1 & Hround & Hrest)%result_bind_Ok.
    destruct (bool_decide (_ < _)%Z && bool_decide (0 < _)) eqn:Etest.
    + apply result_bind_Ok in Hrest as (seen' & _ & Hloop). by eapply IH.
    + injection Hrest as <-.
      apply andb_false_iff in Etest as [H%bool_decide_eq_false | H%bool_decide_eq_false].
      * left. lia.
      * right. destruct (seenPoolAddresses s1); [done | simpl in H; lia].
Qed.
End Relaxation.

(** C3 (as amended): when a round of the search ends with fewer than
    [approxPathsToReturn] paths and a non-empty [seenPools], the relaxation
    keeps in [seenPools] exactly the [Weighted] pools (all others are
    removed) when some but not all of the seen pools are [Weighted], and it
    empties [seenPools] otherwise; the search then goes on from the relaxed
    state, and it only stops with enough paths or with [seenPools] empty. *)
Theorem C3_relaxation (pg : PathGraph.PathGraph) (tIn tOut : Token)
    (config : PathGraph.PathGraphTraversalConfig) :
  (forall seen,
     (forall a, a ∈ seen -> PathGraph.isPoolAddress pg a) ->
     PathGraph.relaxSeenPools pg seen
     = Ok (if decide (weightedPools pg seen <> []
                      /\ length (weightedPools pg seen) < length seen)
           then weightedPools pg seen else []))
  /\ (forall fuel inner s s1 seen',
        (Z.of_nat (length (PathGraph.paths s)) < PathGraph.approxPathsToReturn config)%Z ->
        PathGraph.searchRound pg tIn tOut config inner s = Ok s1 ->
        (Z.of_nat (length (PathGraph.paths s1)) < PathGraph.approxPathsToReturn config)%Z ->
        PathGraph.seenPoolAddresses s1 <> [] ->
        PathGraph.relaxSeenPools pg (PathGraph.seenPoolAddresses s1) = Ok seen' ->
        PathGraph.searchLoop pg tIn tOut config (S fuel) inner s
        = PathGraph.searchLoop pg tIn tOut config fuel inner
            (PathGraph.mkSearchState (PathGraph.paths s1) (PathGraph.selectedPathIds s1) seen'))
  /\ (forall fuel inner s s',
        PathGraph.searchLoop pg tIn tOut config fuel inner s = Ok s' ->
        (PathGraph.approxPathsToReturn config <= Z.of_nat (length (PathGraph.paths s')))%Z
        \/ PathGraph.seenPoolAddresses s' = []).
Proof.
  split; [|split].
  - intros seen Hall. unfold PathGraph.relaxSeenPools.
    rewrite filterVolatilePools_spec by done. simpl. f_equal.
    generalize (weightedPools pg seen). intros l.
    destruct l as [|a l]; repeat (case_bool_decide || case_decide);
      simpl in *; try done; try lia; naive_solver.
  - intros fuel inner s s1 seen' Hlt Hround Hlt1 Hseen Hrelax. simpl.
    rewrite bool_decide_eq_true_2 by done. rewrite Hround. simpl.
    rewrite (bool_decide_eq_true_2 _ Hlt1).
    rewrite bool_decide_eq_true_2
      by (destruct (PathGraph.seenPoolAddresses s1); [done | simpl; lia]).
    simpl. by rewrite Hrelax.
  - apply searchLoop_stops.
Qed.

Lemma C3_relaxation_witness :
  PathGraph.relaxSeenPools Examples.pgAB3 ["0x1"; "0x4"] = Ok ["0x1"].
Proof.
  rewrite (proj1 (C3_relaxation Examples.pgAB3 Examples.tokA Examples.tokB
                    (PathGraph.applyDefaults Examples.defaultConfig))).
  - vm_compute. reflexivity.
  - apply Forall_forall. repeat constructor; vm_compute; eexists; reflexivity.
Defined.

(** C3 as stated fails: the first round of the search from [A] to [B] ends
    with two paths (fewer than the five asked for) and the seen pools
    [0x1] ([Weighted]) and [0x4] (stable); the relaxation leaves [0x1] in
    the seen pools and removes [0x4], the opposite of removing exactly the
    plain ones. *)
Lemma C3_relaxation_keeps_weighted :
  let config := PathGraph.applyDefaults Examples.defaultConfig in
  let round := PathGraph.searchRound Examples.pgAB3 Examples.tokA Examples.tokB config 10
                 (PathGraph.mkSearchState [] [] []) in
  (fun s => (length (PathGraph.paths s), PathGraph.seenPoolAddresses s)) <$> round
  = Ok (2, ["0x1"; "0x4"])
  /\ PathGraph.relaxSeenPools Examples.pgAB3 ["0x1"; "0x4"] = Ok ["0x1"]
  /\ withoutWeightedPools Examples.pgAB3 ["0x1"; "0x4"] = ["0x4"]
  /\ PathGraph.relaxSeenPools Examples.pgAB3 ["0x1"; "0x4"]
     <> Ok (withoutWeightedPools Examples.pgAB3 ["0x1"; "0x4"]).
Proof.
  repeat split; try (vm_compute; reflexivity). vm_compute. discriminate.
Qed.

(** ** The depth bounds of accepted paths (C5) *)

(** C5 fails on the code: the search from [A] to the pool token [P] accepts
    [A -> B -> C -> P].  The path is boosted ([P] is a pool address), its
    intermediate tokens [B] and [C] are not pool addresses, and the budget
    [maxNonBoostedHopTokensInBoostedPath] is 1. *)
Theorem C5_boosted_hop_budget_exceeded :
  let config := PathGraph.applyDefaults Examples.defaultConfig in
  let toks := ["0xA"; "0xB"; "0xC"; "0xP"] in
  PathGraph.buildGraph [Examples.poolAB; Examples.poolBC; Examples.poolP] None
  = Ok Examples.pgABCP
  /\ fmap (M := list) tokenAddresses
       <$> PathGraph.traverseGraphAndFindBestPaths 10 Examples.pgABCP
             Examples.tokA Examples.tokP Examples.defaultConfig
     = Ok [toks]
  /\ isBoostedTokenPath Examples.pgABCP toks = true
  /\ nonBoostedHopTokens Examples.pgABCP toks = 2
  /\ PathGraph.maxNonBoostedHopTokensInBoostedPath config = 1%Z
  /\ ~ depthBounds Examples.pgABCP config toks.
Proof.
  repeat split; try (vm_compute; reflexivity).
  unfold depthBounds.
  replace (isBoostedTokenPath _ _) with true by (vm_compute; reflexivity).
  replace (nonBoostedHopTokens _ _) with 2 by (vm_compute; reflexivity).
  simpl. lia.
Qed.

(** ** Well-formed paths (C6) *)

Section UniqFacts.
Context `{EqDecision A}.

Lemma elem_of_uniq (l : list A) x : x ∈ uniq l <-> x ∈ l.
Proof.
  induction l as [|y l IH]; simpl; [done|].
  rewrite !elem_of_cons, list_elem_of_filter, IH. split.
  - intros [->|[_ ?]]; [by left | by right].
  - intros [->|?]; [by left|].
    destruct (decide (x = y)) as [->|]; [by left | by right].
Qed.

Lemma uniq_length_le (l : list A) : length (uniq l) <= length l.
Proof.
  induction l as [|y l IH]; simpl; [done|].
  pose proof (length_filter (fun z => z <> y) (uniq l)). lia.
Qed.

(** [uniq] drops nothing exactly when nothing is repeated. *)
Lemma uniq_length_NoDup (l : list A) : length (uniq l) = length l -> NoDup l.
Proof.
  induction l as [|y l IH]; simpl; [constructor|].
  intros Hlen.
  pose proof (length_filter (fun z => z <> y) (uniq l)) as Hf.
  pose proof (uniq_length_le l) as Hu.
  constructor; [|apply IH; lia].
  intros Hy%elem_of_uniq.
  pose proof (length_filter_lt (fun z => z <> y) (uniq l) y Hy) as Hlt.
  assert (~ y <> y) as Hyy by (intros ?; done).
  specialize (Hlt Hyy). lia.
Qed.
End UniqFacts.

Lemma first_found_Some {A B} (f : A -> result (option B)) (l : list A) b :
  first_found f l = Ok (Some b) -> exists x, x ∈ l /\ f x = Ok (Some b).
Proof.
  induction l as [|x l IH]; simpl; [done|].
  intros ([b'|] & Hf & Hrest)%result_bind_Ok.
  - injection Hrest as ->. exists x. split; [by left | done].
  - destruct (IH Hrest) as (y & ? & ?). exists y. split; [by right | done].
Qed.

Section GraphQueries.
Import Graphlib.
Context {L : Type}.
Implicit Types (g : Graph L).

Lemma successors_elem g n l x :
  successors g n = Some l -> x ∈ l ->
  exists e, e ∈ (g_edges g).*1 /\ v e = n /\ w e = x.
Proof.
  unfold successors. destruct (hasNode g n); [|done]. intros [= <-].
  intros (e & -> & [Hv He]%list_elem_of_filter)%elem_of_uniq%list_elem_of_fmap. eauto.
Qed.

Lemma outEdges_elem g n m out e :
  outEdges g n m = Some out -> m <> "" -> e ∈ out ->
  e ∈ (g_edges g).*1 /\ v e = n /\ w e = m.
Proof.
  unfold outEdges. destruct (hasNode g n); [|done]. intros [= <-] Hm.
  rewrite decide_False by done.
  by intros [Hw [Hv He]%list_elem_of_filter]%list_elem_of_filter.
Qed.
End GraphQueries.

Section WellFormed.
Import PathGraph Graphlib.

Lemma buildGraph_ok pools maxPaths pg :
  valid_addresses pools -> buildGraph pools maxPaths = Ok pg -> graph_ok pg.
Proof.
  intros Hvalid Hbuild.
  destruct (buildGraph_spec pools (default 2%Z maxPaths)) as (g & Hspec & _ & [Hcl Hkept]).
  assert (buildGraph pools maxPaths = buildGraph pools (Some (default 2%Z maxPaths))) as Heq
    by (by destruct maxPaths).
  rewrite Heq, Hspec in Hbuild. injection Hbuild as <-. split; [done|]. simpl.
  intros e lbl (p & tIn & tOut & items & i & pool & Hk)%Hkept.
  destruct Hk as (_ & _ & Hp & _ & HtOut & Hpool & _ & [= -> ->]).
  apply list_elem_of_fmap in HtOut as (t & -> & Ht).
  unfold label_ok; simpl. repeat split; try done.
  - by eapply Hvalid.
  - apply keyBy_address_lookup in Hpool as Hp'. destruct Hp' as [_ Haddr].
    by rewrite Haddr.
Qed.

Lemma buildPath_loop_spec pg idx : forall tp u path u',
  graph_ok pg ->
  Forall (fun x => x <> "") (tail tp) ->
  tp <> [] ->
  buildPath_loop (graph pg) tp idx u = Ok (path, u') ->
  Forall (segment_ok pg) path
  /\ S (length path) = length tp
  /\ tokenIn <$> path = removelast tp
  /\ tokenOut <$> path = tail tp.
Proof.
  intros tp. induction tp as [|a tp IH]; intros u path u' Hok Hne Hnil; [done|].
  destruct tp as [|b rest].
  { simpl. intros [= <- <-]. repeat split; constructor. }
  cbn [buildPath_loop].
  apply Forall_cons in Hne as [Hb Hrest]. simpl in Hb.
  destruct (outEdges (graph pg) a b) as [out|] eqn:Eout; simpl; [|done].
  destruct (from_option Some (out !! 0) (out !! idx)) as [e|] eqn:Ee; [|done].
  assert (e ∈ out) as Hin.
  { destruct (out !! idx) eqn:E1; simpl in Ee.
    - injection Ee as ->. by eapply list_elem_of_lookup_2.
    - by eapply list_elem_of_lookup_2. }
  destruct (outEdges_elem _ _ _ _ _ Eout Hb Hin) as (He & Hv & Hw).
  destruct (edge (graph pg) e) as [lbl|] eqn:El; [|done].
  apply edge_label_Some in El. destruct Hok as [Hcl Hlbl].
  destruct (Hlbl _ _ El) as (Hlv & Hlw & _ & Hid & Hpam).
  intros ([path' u''] & Hloop & [= <- <-])%result_bind_Ok.
  destruct (IH _ _ _ (conj Hcl Hlbl) Hrest ltac:(done) Hloop) as (Hsegs & Hlen & Hin' & Hout').
  split; [|split; [|split]].
  - constructor; [|done]. unfold segment_ok; simpl. repeat split; congruence.
  - simpl in *. lia.
  - rewrite fmap_cons. simpl. by rewrite Hin'.
  - rewrite fmap_cons. simpl. by rewrite Hout'.
Qed.
End WellFormed.

Section SearchInvariant.
Import PathGraph Graphlib.

Lemma isValidPath_NoDup pg path seen selected config :
  isValidPath pg path seen selected config = true ->
  NoDup ((fun e => poolId (label e)) <$> path).
Proof.
  unfold isValidPath.
  destruct (match poolIdsToInclude config with Some _ => _ | None => _ end); [done|].
  destruct (negb _ && _); [done|].
  destruct (negb (bool_decide (length _ = length path))) eqn:E; [done|].
  intros _. apply negb_false_iff, bool_decide_eq_true in E.
  apply uniq_length_NoDup. by rewrite length_fmap.
Qed.

Lemma filter_all {A} (P : A -> Prop) `{!forall x, Decision (P x)} (l : list A) :
  Forall P l -> filter P l = l.
Proof.
  induction 1 as [|x l Hx Hl IH]; [done|].
  rewrite filter_cons, decide_True by done. by rewrite IH.
Qed.

Lemma filter_nonempty_Exists {A} (P : A -> Prop) `{!forall x, Decision (P x)} (l : list A) :
  0 < length (filter P l) <-> Exists P l.
Proof.
  rewrite Exists_exists. split.
  - destruct (filter P l) as [|x k] eqn:E; simpl; [lia|]. intros _.
    assert (x ∈ filter P l) as [? ?]%list_elem_of_filter by (rewrite E; by left). eauto.
  - intros (x & Hx & HP).
    assert (x ∈ filter P l) as Hin by (by apply list_elem_of_filter).
    destruct (filter P l); [by apply elem_of_nil in Hin | simpl; lia].
Qed.

(** The test [tokenPath.filter(...).length > 0] of the code. *)
Lemma isBoostedTokenPath_filter pg (l : list string) :
  bool_decide (0 < length (filter (isPoolAddress pg) l)) = isBoostedTokenPath pg l.
Proof. apply bool_decide_ext, filter_nonempty_Exists. Qed.

Lemma hopTokens_snoc tIn rest tOut : hopTokens (tIn :: rest ++ [tOut]) = rest.
Proof. unfold hopTokens. simpl. apply removelast_last. Qed.

(** What the token path check says about the finished token sequence. *)
Lemma isValidTokenPath_facts pg config tIn tOut rest :
  isValidTokenPath pg (tIn :: rest) config tIn tOut = true ->
  tIn ∉ rest -> tOut ∉ rest ->
  let tp := tIn :: rest ++ [tOut] in
  (Z.of_nat (length tp) <= maxDepth config + 1)%Z
  /\ (isBoostedTokenPath pg (tIn :: rest) = true ->
      (Z.of_nat (nonBoostedHopTokens pg tp) <= maxNonBoostedHopTokensInBoostedPath config)%Z)
  /\ ((Z.of_nat (nonBoostedHopTokens pg tp) <= maxNonBoostedHopTokensInBoostedPath config)%Z
      \/ (Z.of_nat (length tp) <= maxNonBoostedPathDepth config + 1)%Z).
Proof.
  intros Hvalid HtIn HtOut tp. subst tp.
  unfold nonBoostedHopTokens. rewrite hopTokens_snoc.
  unfold isValidTokenPath in Hvalid.
  rewrite isBoostedTokenPath_filter in Hvalid.
  rewrite filter_cons, decide_False in Hvalid by (by intros [? _]).
  rewrite (filter_all (fun token => token <> tIn /\ token <> tOut) rest) in Hvalid.
  2: { apply Forall_forall. intros x Hx. split; by intros ->. }
  simpl length in *. rewrite length_app. simpl.
  destruct (bool_decide (maxDepth config < _)%Z) eqn:E1; [done|].
  apply bool_decide_eq_false in E1.
  destruct (isBoostedTokenPath pg (tIn :: rest)) eqn:Eb; simpl in Hvalid.
  - destruct (bool_decide (maxNonBoostedHopTokensInBoostedPath config < _)%Z) eqn:E2;
      [done|].
    apply bool_decide_eq_false in E2.
    split; [lia|]. split; [intros _; lia | left; lia].
  - destruct (bool_decide (maxNonBoostedPathDepth config < _)%Z) eqn:E3; simpl in Hvalid.
    + destruct (bool_decide (maxNonBoostedHopTokensInBoostedPath config < _)%Z) eqn:E2;
        [done|].
      apply bool_decide_eq_false in E2.
      split; [lia|]. split; [done | left; lia].
    + apply bool_decide_eq_false in E3.
      split; [lia|]. split; [done | right; lia].
Qed.

(** What the path check says about a path without pool-address tokens. *)
Lemma isValidPath_depth pg path seen selected config prefix tOut :
  isValidPath pg path seen selected config = true ->
  tokenIn <$> path = prefix ->
  tokenOut <$> path = tail (prefix ++ [tOut]) ->
  S (length path) = length (prefix ++ [tOut]) ->
  isBoostedTokenPath pg (prefix ++ [tOut]) = false ->
  (Z.of_nat (length (prefix ++ [tOut])) <= maxNonBoostedPathDepth config)%Z.
Proof.
  intros Hvalid Hin Hout Hlen Hplain.
  unfold isValidPath in Hvalid.
  destruct (match poolIdsToInclude config with Some _ => _ | None => _ end); [done|].
  assert (bool_decide (0 < length (filter (fun e => isPoolAddress pg (tokenIn e)
                                                 \/ isPoolAddress pg (tokenOut e)) path))
          = false) as Hb.
  { apply bool_decide_eq_false. rewrite filter_nonempty_Exists, Exists_exists.
    intros (e & He & Hpool).
    apply bool_decide_eq_false in Hplain. apply Hplain, Exists_exists.
    destruct Hpool as [Hp|Hp].
    - exists (tokenIn e). split; [|done]. apply elem_of_app. left.
      rewrite <- Hin. by apply list_elem_of_fmap_2.
    - exists (tokenOut e). split; [|done].
      assert (tokenOut e ∈ tail (prefix ++ [tOut])) as Ht
        by (rewrite <- Hout; by apply list_elem_of_fmap_2).
      destruct (prefix ++ [tOut]); [done | by right]. }
  rewrite Hb in Hvalid. simpl in Hvalid.
  destruct (bool_decide (maxNonBoostedPathDepth config < _)%Z) eqn:E; [done|].
  apply bool_decide_eq_false in E. lia.
Qed.

Lemma successor_nonempty pg token (P : string -> Prop) `{!forall x, Decision (P x)} x :
  graph_ok pg ->
  x ∈ filter P (default [] (successors (graph pg) token)) ->
  x <> "" /\ P x.
Proof.
  intros [_ Hlbl] [HP Hx]%list_elem_of_filter. split; [|done].
  destruct (successors (graph pg) token) as [l|] eqn:E; [|by apply elem_of_nil in Hx].
  destruct (successors_elem _ _ _ _ E Hx) as (e & He & _ & <-).
  apply list_elem_of_fmap in He as ([e' lbl] & -> & Hel).
  by destruct (Hlbl _ _ Hel) as (_ & _ & ? & _).
Qed.

Lemma tail_snoc {A} (l : list A) x : l <> [] -> tail (l ++ [x]) = tail l ++ [x].
Proof. by destruct l. Qed.

Lemma traverse_accepts pg tIn tOut idx config seen selected :
  graph_ok pg ->
  forall fuel token tokenPath path,
    NoDup tokenPath -> head tokenPath = Some tIn ->
    Forall (fun x => x <> "") (tail tokenPath) ->
    (forall x, x ∈ tokenPath -> x ∈ g_nodes (graph pg)) ->
    traverseGraphAndFindUniquePath fuel pg token tIn tOut tokenPath idx config
      seen selected = Ok (Some path) ->
    accepted pg tIn tOut idx config seen selected path.
Proof.
  intros Hok. induction fuel as [|fuel IH];
    intros token tokenPath path Hnd Hhd Htl Hnodes; [done|].
  assert (tokenPath <> []) as Hne by (by destruct tokenPath).
  cbn [traverseGraphAndFindUniquePath].
  destruct (isValidTokenPath pg tokenPath config tIn tOut) eqn:Htp; [|done]. simpl negb.
  cbv iota.
  assert (forall (P : string -> Prop) `{!forall x, Decision (P x)} x,
            x ∈ filter P (default [] (successors (graph pg) token)) ->
            x ∈ g_nodes (graph pg)) as Hsucc.
  { intros P ? x [_ Hx]%list_elem_of_filter.
    destruct (successors (graph pg) token) as [l|] eqn:E; [|by apply elem_of_nil in Hx].
    destruct (successors_elem _ _ _ _ E Hx) as (e & He & _ & <-).
    destruct Hok as [[_ Hcl] _]. by apply Hcl. }
  intros ([p|] & Hdirect & Hrest)%result_bind_Ok.
  - injection Hrest as ->.
    case_bool_decide as Hout; [|done].
    apply result_bind_Ok in Hdirect as ([p'|] & Hbuild & Hsel); [|done].
    destruct (isValidPath pg p' seen selected config) eqn:Hvalid; [|done].
    injection Hsel as ->.
    unfold buildPath in Hbuild.
    apply result_bind_Ok in Hbuild as ([path0 isUnique] & Hloop & Hret).
    destruct isUnique; [|done]. injection Hret as ->.
    pose proof (Hsucc _ _ _ Hout) as HtOutNode.
    apply successor_nonempty in Hout as [HtOut HnotIn]; [|done].
    exists tokenPath. repeat (split; [done|]). done.
  - apply first_found_Some in Hrest as (successor & Hin & Hrec).
    apply list_elem_of_filter in Hin as [HnotIn Hin].
    rewrite sortBy_perm in Hin.
    pose proof (Hsucc _ _ _ Hin) as Hnode.
    apply successor_nonempty in Hin as [Hs _]; [|done].
    eapply IH; [| | | |exact Hrec].
    + apply NoDup_app. split; [done|]. split; [|apply NoDup_singleton].
      by intros x Hx ->%list_elem_of_singleton.
    + by destruct tokenPath.
    + rewrite tail_snoc by done. apply Forall_app. split; [done|]. by constructor.
    + intros x [?| ->%list_elem_of_singleton]%elem_of_app; auto.
Qed.

(** An accepted path is a good path. *)
Lemma accepted_good pg tIn tOut idx config seen selected path :
  graph_ok pg ->
  accepted pg tIn tOut idx config seen selected path ->
  good_path pg config path.
Proof.
  intros Hok (tokenPath & Hnd & Hhd & Htl & Hnodes & HnotIn & HtOut & _ & Htp & Hloop & Hvalid).
  assert (tokenPath <> []) as Hne by (by destruct tokenPath).
  apply buildPath_loop_spec in Hloop as (Hsegs & Hlen & Hin & Houts); [|done| |].
  - exists (tokenPath ++ [tOut]). split; [|split].
    + apply NoDup_app. split; [done|]. split; [|apply NoDup_singleton].
      by intros x Hx ->%list_elem_of_singleton.
    + rewrite length_app. simpl. destruct tokenPath; [done | simpl; lia].
    + repeat (split; [done|]). split; [by eapply isValidPath_NoDup|].
      rewrite removelast_last in Hin.
      destruct tokenPath as [|t0 rest]; [done|]. injection Hhd as ->.
      apply NoDup_cons in Hnd as [HtIn _].
      destruct (isValidTokenPath_facts pg config tIn tOut rest Htp HtIn)
        as (Hdepth & Hboost & Hany).
      { intros ?. apply HnotIn. by right. }
      unfold depthFacts. rewrite (removelast_last (tIn :: rest) tOut).
      split; [exact Hdepth|]. split; [|split; [exact Hboost | exact Hany]].
      by eapply (isValidPath_depth _ _ _ _ _ (tIn :: rest) tOut).
  - rewrite tail_snoc by done. apply Forall_app. split; [done|]. by constructor.
  - by destruct tokenPath.
Qed.

Context (pg : PathGraph) (tIn tOut : Token) (config : PathGraphTraversalConfig).
Hypothesis Hok : graph_ok pg.
Hypothesis HtIn : hasNode (graph pg) (t_address tIn) = true.

(** What the search finds from [tokenIn] is an accepted path. *)
Lemma found_accepted idx seen selected path :
  traverseGraphAndFindUniquePath (traversal_depth pg) pg (t_address tIn) (t_address tIn)
    (t_address tOut) [t_address tIn] idx config seen selected = Ok (Some path) ->
  accepted pg (t_address tIn) (t_address tOut) idx config seen selected path.
Proof.
  apply traverse_accepts; [done | apply NoDup_singleton | done | constructor |].
  intros x ->%list_elem_of_singleton. by apply bool_decide_eq_true in HtIn.
Qed.

Lemma findPathsAtIndex_good idx fuel : forall s s',
  Forall (good_path pg config) (paths s) ->
  findPathsAtIndex pg tIn tOut config fuel idx s = Ok s' ->
  Forall (good_path pg config) (paths s').
Proof.
  induction fuel as [|fuel IH]; intros s s' Hs; [done|]. cbn [findPathsAtIndex].
  intros ([path|] & Htr & Hrest)%result_bind_Ok; [|by injection Hrest as <-].
  eapply IH; [|exact Hrest]. cbn [paths].
  apply Forall_app. split; [done|]. constructor; [|done].
  eapply accepted_good; [done|]. by apply found_accepted.
Qed.

Lemma searchRound_good fuel s s' :
  Forall (good_path pg config) (paths s) ->
  searchRound pg tIn tOut config fuel s = Ok s' ->
  Forall (good_path pg config) (paths s').
Proof.
  unfold searchRound.
  apply (foldlM_invariant (fun s => Forall (good_path pg config) (paths s))).
  intros b idx b' _. apply findPathsAtIndex_good.
Qed.

Lemma searchLoop_good inner fuel : forall s s',
  Forall (good_path pg config) (paths s) ->
  searchLoop pg tIn tOut config fuel inner s = Ok s' ->
  Forall (good_path pg config) (paths s').
Proof.
  induction fuel as [|fuel IH]; intros s s' Hs; cbn [searchLoop].
  - case_bool_decide; [done|]. by intros [= <-].
  - case_bool_decide; [|by intros [= <-]].
    intros (s1 & Hround & Hrest)%result_bind_Ok.
    apply searchRound_good in Hround; [|done].
    destruct (bool_decide _ && bool_decide _); [|by injection Hrest as <-].
    apply result_bind_Ok in Hrest as (seen' & _ & Hloop).
    by eapply IH; [|exact Hloop].
Qed.
End SearchInvariant.

Lemma mapM_result_Ok {A B} (f : A -> result B) (l : list A) (k : list B) :
  mapM f l = Ok k -> Forall2 (fun x y => f x = Ok y) l k.
Proof.
  revert k. induction l as [|x l IH]; intros k; simpl.
  - intros [= <-]. constructor.
  - intros (y & Hy & (k' & Hk' & [= <-])%result_bind_Ok)%result_bind_Ok.
    constructor; [done | by apply IH].
Qed.

Lemma valid_addresses_Forall (pools : list Pool) :
  Forall (fun p => Forall (fun t => t_address (ta_token t) <> "") (p_tokens p)) pools ->
  valid_addresses pools.
Proof.
  intros H p t Hp Ht. rewrite Forall_forall in H.
  specialize (H p Hp). rewrite Forall_forall in H. by apply H.
Qed.

(** The object returned for an accepted path. *)
Lemma toFoundPath_good pg config path fp :
  good_path pg config path ->
  PathGraph.toFoundPath pg path = Ok fp ->
  NoDup (tokenAddresses fp)
  /\ NoDup (PathGraph.fp_pools fp)
  /\ Forall is_Some (PathGraph.fp_pools fp)
  /\ S (length (PathGraph.fp_pools fp)) = length (PathGraph.fp_tokens fp)
  /\ depthFacts pg config (tokenAddresses fp).
Proof.
  intros (tp & Hnd & Hlen2 & Hsegs & Hlen & Hin & Hout & Hids & Hdepth).
  destruct path as [|first rest] eqn:Hpath; [done|]. rewrite <- Hpath in *.
  unfold PathGraph.toFoundPath. rewrite Hpath at 1. intros [= <-].
  unfold tokenAddresses. cbn [PathGraph.fp_tokens PathGraph.fp_pools].
  assert ((fun segment => PathGraph.poolAddressMap pg
                            !! PathGraph.poolAddress (PathGraph.label segment)) <$> path
          = (fun segment => Some (PathGraph.pp_pool
                                    (PathGraph.l_poolPair (PathGraph.label segment)))) <$> path)
    as ->.
  { apply Forall_fmap_ext_1. eapply Forall_impl; [exact Hsegs|].
    by intros s (_ & _ & _ & ?). }
  assert (t_address <$>
            (PathGraph.pp_tokenIn (PathGraph.l_poolPair (PathGraph.label first))
               :: ((fun segment => PathGraph.pp_tokenOut
                                     (PathGraph.l_poolPair (PathGraph.label segment)))
                     <$> path))
          = tp) as ->.
  { rewrite fmap_cons, <- list_fmap_compose.
    assert ((t_address ∘ (fun segment => PathGraph.pp_tokenOut
                            (PathGraph.l_poolPair (PathGraph.label segment)))) <$> path
            = PathGraph.tokenOut <$> path) as ->.
    { apply Forall_fmap_ext_1. eapply Forall_impl; [exact Hsegs|].
      by intros s (_ & -> & _). }
    rewrite Hout.
    assert (segment_ok pg first) as (Hfirst & _)
      by (rewrite Hpath in Hsegs; by inversion Hsegs).
    rewrite <- Hfirst.
    rewrite Hpath, fmap_cons in Hin.
    destruct tp as [|a [|b tp']]; simpl in *; try lia.
    by injection Hin as -> _. }
  split; [done|]. split; [|split; [|split; [|done]]].
  - eapply (NoDup_fmap_1 (from_option p_id "")).
    rewrite <- list_fmap_compose.
    assert ((from_option p_id "" ∘
               (fun segment => Some (PathGraph.pp_pool
                                       (PathGraph.l_poolPair (PathGraph.label segment)))))
              <$> path
            = (fun e => PathGraph.poolId (PathGraph.label e)) <$> path) as ->; [|done].
    apply Forall_fmap_ext_1. eapply Forall_impl; [exact Hsegs|].
    by intros s (_ & _ & -> & _).
  - apply Forall_fmap, Forall_forall. intros s _. simpl. eauto.
  - rewrite length_fmap. simpl. by rewrite length_fmap.
Qed.

(** Every path returned by the search is the object of an accepted path. *)
Lemma traverseGraphAndFindBestPaths_good pools maxPaths pg fuel tIn tOut pathConfig found :
  valid_addresses pools ->
  PathGraph.buildGraph pools maxPaths = Ok pg ->
  PathGraph.traverseGraphAndFindBestPaths fuel pg tIn tOut pathConfig = Ok found ->
  forall fp, fp ∈ found ->
    exists path, good_path pg (PathGraph.applyDefaults pathConfig) path
                 /\ PathGraph.toFoundPath pg path = Ok fp.
Proof.
  intros Hvalid Hbuild Hsearch fp Hfp.
  apply buildGraph_ok in Hbuild; [|done].
  unfold PathGraph.traverseGraphAndFindBestPaths in Hsearch.
  destruct (Graphlib.hasNode _ (t_address tIn)) eqn:HtIn; simpl in Hsearch.
  2: { injection Hsearch as <-. by apply elem_of_nil in Hfp. }
  destruct (negb _).
  { injection Hsearch as <-. by apply elem_of_nil in Hfp. }
  apply result_bind_Ok in Hsearch as (s & Hloop & Hmap).
  apply searchLoop_good in Hloop; [|done|done|constructor].
  apply mapM_result_Ok in Hmap.
  apply list_elem_of_lookup in Hfp as [i Hi].
  destruct (Forall2_lookup_r _ _ _ _ _ Hmap Hi) as (path & Hpath & Hto).
  apply list_elem_of_lookup_2 in Hpath. rewrite Forall_forall in Hloop.
  exists path. split; [by apply Hloop | done].
Qed.

(** C6: every path that [findPaths] returns is well formed.  No token occurs
    twice in its token sequence (not even two tokens with one address), no
    pool occurs twice in its pool sequence (and every entry is a pool), and
    there is exactly one pool less than there are tokens. *)
Theorem C6_paths_well_formed (pools : list Pool) (maxPathsPerTokenPair : option Z)
    (fuel : nat) (tIn tOut : Token) (pathConfig : PathGraph.PartialConfig)
    (found : list PathGraph.FoundPath) :
  valid_addresses pools ->
  findPaths pools maxPathsPerTokenPair fuel tIn tOut pathConfig = Ok found ->
  forall fp, fp ∈ found ->
    NoDup (PathGraph.fp_tokens fp)
    /\ NoDup (tokenAddresses fp)
    /\ NoDup (PathGraph.fp_pools fp)
    /\ Forall is_Some (PathGraph.fp_pools fp)
    /\ S (length (PathGraph.fp_pools fp)) = length (PathGraph.fp_tokens fp).
Proof.
  intros Hvalid. unfold findPaths.
  intros (pg & Hbuild & Hsearch)%result_bind_Ok fp Hfp.
  destruct (traverseGraphAndFindBestPaths_good _ _ _ _ _ _ _ _ Hvalid Hbuild Hsearch fp Hfp)
    as (path & Hgood & Hto).
  destruct (toFoundPath_good pg _ path fp Hgood Hto) as (Ha & Hp & Hs & Hl & _).
  split; [by eapply NoDup_fmap_1|]. done.
Qed.

Lemma C6_paths_well_formed_witness :
  exists found,
    findPaths [Examples.poolAB; Examples.poolAB2; Examples.poolBC] None 10
      Examples.tokA Examples.tokC Examples.defaultConfig = Ok found
    /\ length found = 2
    /\ forall fp, fp ∈ found ->
         NoDup (PathGraph.fp_tokens fp)
         /\ NoDup (tokenAddresses fp)
         /\ NoDup (PathGraph.fp_pools fp)
         /\ Forall is_Some (PathGraph.fp_pools fp)
         /\ S (length (PathGraph.fp_pools fp)) = length (PathGraph.fp_tokens fp).
Proof.
  destruct (findPaths [Examples.poolAB; Examples.poolAB2; Examples.poolBC] None 10
              Examples.tokA Examples.tokC Examples.defaultConfig) as [found|e] eqn:E;
    [|vm_compute in E; discriminate].
  exists found. split; [done|]. split.
  - vm_compute in E. by injection E as <-.
  - eapply C6_paths_well_formed; [|exact E].
    apply valid_addresses_Forall. repeat constructor; discriminate.
Defined.

(** The depth bounds that do hold for every path that the search returns:
    the token sequence has at most [maxDepth + 1] tokens; a path none of
    whose tokens is a pool address has at most [maxNonBoostedPathDepth]
    tokens; a path with a pool address among its tokens other than the last
    has at most [maxNonBoostedHopTokensInBoostedPath] intermediate tokens
    that are not pool addresses; and in every case one of the last bound and
    [maxNonBoostedPathDepth + 1] tokens holds. *)
Theorem accepted_paths_depth (pools : list Pool) (maxPathsPerTokenPair : option Z)
    (pg : PathGraph.PathGraph) (fuel : nat) (tIn tOut : Token)
    (pathConfig : PathGraph.PartialConfig) (found : list PathGraph.FoundPath) :
  valid_addresses pools ->
  PathGraph.buildGraph pools maxPathsPerTokenPair = Ok pg ->
  PathGraph.traverseGraphAndFindBestPaths fuel pg tIn tOut pathConfig = Ok found ->
  forall fp, fp ∈ found ->
    depthFacts pg (PathGraph.applyDefaults pathConfig) (tokenAddresses fp).
Proof.
  intros Hvalid Hbuild Hsearch fp Hfp.
  destruct (traverseGraphAndFindBestPaths_good _ _ _ _ _ _ _ _ Hvalid Hbuild Hsearch fp Hfp)
    as (path & Hgood & Hto).
  by destruct (toFoundPath_good pg _ path fp Hgood Hto) as (_ & _ & _ & _ & ?).
Qed.

Lemma accepted_paths_depth_witness :
  forallb (fun toks => bool_decide (Z.of_nat (length toks) <= 8)%Z)
    (match PathGraph.traverseGraphAndFindBestPaths 10 Examples.pgABCP
             Examples.tokA Examples.tokP Examples.defaultConfig with
     | Ok found => tokenAddresses <$> found
     | Err _ => [[]]
     end) = true
  /\ is_Ok (PathGraph.traverseGraphAndFindBestPaths 10 Examples.pgABCP
              Examples.tokA Examples.tokP Examples.defaultConfig) = true.
Proof.
  split; [|vm_compute; reflexivity].
  destruct (PathGraph.traverseGraphAndFindBestPaths 10 Examples.pgABCP
              Examples.tokA Examples.tokP Examples.defaultConfig) as [found|e] eqn:E;
    [|vm_compute in E; discriminate].
  apply Is_true_true, forallb_True, Forall_fmap, Forall_forall.
  intros fp Hfp. apply bool_decide_pack.
  assert (valid_addresses [Examples.poolAB; Examples.poolBC; Examples.poolP]) as Hvalid
    by (apply valid_addresses_Forall; repeat constructor; discriminate).
  assert (PathGraph.buildGraph [Examples.poolAB; Examples.poolBC; Examples.poolP] None
          = Ok Examples.pgABCP) as Hbuild by (vm_compute; reflexivity).
  pose proof (proj1 (accepted_paths_depth _ _ _ _ _ _ _ _ Hvalid Hbuild E fp Hfp)) as Hd.
  simpl in Hd. lia.
Defined.

(** ** The recursion budget of the traversal *)

Section TraversalDepth.
Import PathGraph Graphlib.

Lemma first_found_Err {A B} (f : A -> result (option B)) (l : list A) e :
  first_found f l = Err e -> exists x, x ∈ l /\ f x = Err e.
Proof.
  induction l as [|x l IH]; simpl; [done|].
  intros [Hx | ([b|] & Hx & Hrest)]%result_bind_Err.
  - exists x. split; [by left | done].
  - done.
  - destruct (IH Hrest) as (y & ? & ?). exists y. split; [by right | done].
Qed.

Lemma buildPath_loop_not_OutOfFuel g idx : forall tp u,
  buildPath_loop g tp idx u <> Err OutOfFuel.
Proof.
  induction tp as [|a tp IH]; intros u; [done|].
  destruct tp as [|b rest]; [done|]. cbn [buildPath_loop].
  destruct (from_option Some _ _) as [e|]; [|done].
  destruct (edge g e) as [lbl|]; [|done].
  intros [H | ([path u'] & _ & H)]%result_bind_Err; [by eapply IH | done].
Qed.

Lemma buildPath_not_OutOfFuel g tp idx : buildPath g tp idx <> Err OutOfFuel.
Proof.
  unfold buildPath.
  intros [H | ([path u'] & _ & H)]%result_bind_Err; [by eapply buildPath_loop_not_OutOfFuel|].
  by destruct u'.
Qed.

(** A token path without repetition over the nodes of the graph is never
    longer than the node list, so [traversal_depth] levels are enough. *)
Lemma traverse_fuel_enough pg tIn tOut idx config seen selected :
  graph_closed (graph pg) ->
  forall fuel token tokenPath,
    NoDup tokenPath ->
    (forall x, x ∈ tokenPath -> x ∈ g_nodes (graph pg)) ->
    length (g_nodes (graph pg)) < fuel + length tokenPath ->
    traverseGraphAndFindUniquePath fuel pg token tIn tOut tokenPath idx config seen selected
    <> Err OutOfFuel.
Proof.
  intros [_ Hcl]. induction fuel as [|fuel IH]; intros token tokenPath Hnd Hsub Hlen.
  - exfalso. apply NoDup_submseteq with (k := g_nodes (graph pg)) in Hnd; [|done].
    apply submseteq_length in Hnd. simpl in Hlen. lia.
  - cbn [traverseGraphAndFindUniquePath].
    destruct (negb _); [done|].
    intros [Hdirect | ([p|] & _ & Hrest)]%result_bind_Err; [| done |].
    + case_bool_decide as Hout; [|done].
      apply result_bind_Err in Hdirect as [Hb | (? & _ & Hb)]; [|done].
      by eapply buildPath_not_OutOfFuel.
    + apply first_found_Err in Hrest as (successor & Hin & Hrec).
      apply list_elem_of_filter in Hin as [HnotIn Hin].
      rewrite sortBy_perm in Hin.
      apply list_elem_of_filter in Hin as [_ Hin].
      destruct (successors (graph pg) token) as [l|] eqn:E; [|by apply elem_of_nil in Hin].
      destruct (successors_elem _ _ _ _ E Hin) as (e & He & _ & <-).
      eapply IH; [| | |exact Hrec].
      * apply NoDup_app. split; [done|]. split; [|apply NoDup_singleton].
        by intros x Hx ->%list_elem_of_singleton.
      * intros x [?| ->%list_elem_of_singleton]%elem_of_app; [auto|].
        by apply Hcl.
      * rewrite length_app. simpl. lia.
Qed.

(** Started from [tokenIn] on a graph that has this node, the traversal
    never exhausts [traversal_depth]. *)
Lemma traversal_depth_enough pg tIn tOut idx config seen selected :
  graph_closed (graph pg) ->
  hasNode (graph pg) tIn = true ->
  traverseGraphAndFindUniquePath (traversal_depth pg) pg tIn tIn tOut [tIn] idx config
    seen selected <> Err OutOfFuel.
Proof.
  intros Hcl Hnode. apply traverse_fuel_enough; [done | apply NoDup_singleton | |].
  - intros x ->%list_elem_of_singleton. by apply bool_decide_eq_true in Hnode.
  - unfold traversal_depth. simpl. lia.
Qed.
End TraversalDepth.

(** ** The scenarios of the specification *)

(** Pools [A]/[B] with liquidity 100 and 50 and [B]/[C] with liquidity 80,
    one path per token pair: the search from [A] to [C] returns exactly the
    path [A -> B -> C] over the first and the third pool, and the edge of
    the second pool is pruned. *)
Example scenario_pruned_pair :
  Examples.viewPaths
    (findPaths [Examples.poolAB; Examples.poolAB2; Examples.poolBC] (Some 1%Z) 10
       Examples.tokA Examples.tokC Examples.defaultConfig)
  = Ok [(["0xA"; "0xB"; "0xC"], ["id-AB"; "id-BC"])]
  /\ Examples.viewEdges
       (PathGraph.buildGraph [Examples.poolAB; Examples.poolAB2; Examples.poolBC] (Some 1%Z))
       "0xA" "0xB"
     = Ok ["id-AB-0xA-0xB"].
Proof. split; vm_compute; reflexivity. Qed.

(** With a phantom-bearing pool on [A]/[B] of liquidity 1 and one path per
    token pair, the graph still has the edge of that pool. *)
Example scenario_phantom_kept :
  Examples.viewEdges
    (PathGraph.buildGraph
       [Examples.poolAB; Examples.poolAB2; Examples.poolBC; Examples.poolPAB] (Some 1%Z))
    "0xA" "0xB"
  = Ok ["id-AB-0xA-0xB"; "id-PAB-0xA-0xB"].
Proof. vm_compute. reflexivity. Qed.

(** ** Termination of the search *)

Section Sequences.
Context {A : Type}.

Lemma elem_of_sequences (alphabet : list A) n (l : list A) :
  Forall (fun x => x ∈ alphabet) l -> length l <= n -> l ∈ sequences alphabet n.
Proof.
  revert l. induction n as [|n IH]; intros l Hall Hlen.
  - destruct l; [by left | simpl in Hlen; lia].
  - destruct l as [|x l]; [by left|]. right.
    apply Forall_cons in Hall as [Hx Hl].
    apply list_elem_of_bind. exists x. split; [|done].
    apply list_elem_of_fmap. exists l. split; [done|].
    apply IH; [done | simpl in Hlen; lia].
Qed.
End Sequences.

Section BuildPathTotal.
Import PathGraph Graphlib.

Lemma linked_tail {L} (g : Graph L) a tp : linked g (a :: tp) -> linked g tp.
Proof. intros H i x y Hx Hy. by apply (H (S i)). Qed.

Lemma linked_snoc {L} (g : Graph L) tp token s :
  linked g tp -> last tp = Some token ->
  (exists e, e ∈ (g_edges g).*1 /\ v e = token /\ w e = s) ->
  linked g (tp ++ [s]).
Proof.
  intros Hl Hlast He i a b Ha Hb.
  destruct (decide (S i < length tp)) as [Hlt|Hge].
  - rewrite lookup_app_l in Ha by lia. rewrite lookup_app_l in Hb by lia. eauto.
  - assert (S i = length tp) as Hi.
    { apply lookup_lt_Some in Hb. rewrite length_app in Hb. simpl in Hb. lia. }
    rewrite lookup_app_l in Ha by lia.
    rewrite lookup_app_r in Hb by lia.
    replace (S i - length tp) with 0 in Hb by lia. injection Hb as <-.
    rewrite last_lookup in Hlast.
    replace (pred (length tp)) with i in Hlast by lia.
    rewrite Ha in Hlast. by injection Hlast as ->.
Qed.

Lemma linked_singleton {L} (g : Graph L) a : linked g [a].
Proof. intros i x y Hx Hy. by destruct i. Qed.

Lemma outEdges_nonempty pg a b e :
  graph_ok pg -> e ∈ (g_edges (graph pg)).*1 -> v e = a -> w e = b ->
  exists out, outEdges (graph pg) a b = Some out /\ e ∈ out
              /\ forall e', e' ∈ out -> e' ∈ (g_edges (graph pg)).*1.
Proof.
  intros [[_ Hcl] Hlbl] He Hv Hw. unfold outEdges.
  assert (hasNode (graph pg) a = true) as ->.
  { apply bool_decide_eq_true. rewrite <- Hv. by apply Hcl. }
  assert (b <> "") as Hb.
  { apply list_elem_of_fmap in He as ([e' lbl] & -> & Hel).
    destruct (Hlbl _ _ Hel) as (_ & _ & ? & _). simpl in *. congruence. }
  rewrite decide_False by done. eexists. split; [done|]. split.
  - apply list_elem_of_filter. split; [done|]. by apply list_elem_of_filter.
  - by intros e' [_ [_ ?]%list_elem_of_filter]%list_elem_of_filter.
Qed.

Lemma buildPath_loop_cons g a b rest idx u :
  buildPath_loop g (a :: b :: rest) idx u
  = match from_option Some (default [] (outEdges g a b) !! 0)
            (default [] (outEdges g a b) !! idx) with
    | None => Err TypeError
    | Some e =>
        match edge g e with
        | None => Err TypeError
        | Some edgeLabel =>
            buildPath_loop g (b :: rest) idx
              (if decide (idx < length (default [] (outEdges g a b))) then true else u)
            ≫= fun '(path, isUnique') => Ok (mkPathGraphEdge a b edgeLabel :: path, isUnique')
        end
    end.
Proof. reflexivity. Qed.

(** On a linked token sequence [buildPath] finds an edge at every hop. *)
Lemma buildPath_loop_total pg idx : forall tp u,
  graph_ok pg -> linked (graph pg) tp ->
  exists r, buildPath_loop (graph pg) tp idx u = Ok r.
Proof.
  induction tp as [|a tp IH]; intros u Hok Hl; [by eexists|].
  destruct tp as [|b rest]; [by eexists|]. rewrite buildPath_loop_cons.
  destruct (Hl 0 a b) as (e & He & Hv & Hw); [done | done|].
  destruct (outEdges_nonempty pg a b e Hok He Hv Hw) as (out & -> & Hin & Hkeys).
  change (default [] (Some out)) with out.
  assert (exists e', from_option Some (out !! 0) (out !! idx) = Some e' /\ e' ∈ out)
    as (e' & -> & Hin').
  { destruct (out !! idx) as [e1|] eqn:E1; simpl.
    - exists e1. split; [done|]. by eapply list_elem_of_lookup_2.
    - destruct out as [|e0 out]; [by apply elem_of_nil in Hin|].
      exists e0. split; [done | by left]. }
  destruct (edge_label_is_Some e' (g_edges (graph pg)) (Hkeys _ Hin')) as [lbl Hlbl].
  unfold edge. rewrite Hlbl.
  destruct (IH (if decide (idx < length out) then true else u) Hok (linked_tail _ _ _ Hl))
    as [[path u'] ->].
  by eexists.
Qed.

Lemma buildPath_total pg idx tp :
  graph_ok pg -> linked (graph pg) tp -> exists r, buildPath (graph pg) tp idx = Ok r.
Proof.
  intros Hok Hl. unfold buildPath.
  destruct (buildPath_loop_total pg idx tp false Hok Hl) as [[path u] ->]. simpl.
  by eexists.
Qed.

(** The segments of a built path are segments of edges of the graph. *)
Lemma buildPath_loop_segments pg idx : forall tp u path u',
  Forall (fun x => x <> "") (tail tp) ->
  buildPath_loop (graph pg) tp idx u = Ok (path, u') ->
  Forall (fun s => s ∈ segment_of <$> g_edges (graph pg)) path.
Proof.
  induction tp as [|a tp IH]; intros u path u' Hne; [by intros [= <- <-]|].
  destruct tp as [|b rest]; [by intros [= <- <-]|]. cbn [buildPath_loop].
  apply Forall_cons in Hne as [Hb Hrest]. simpl in Hb.
  destruct (outEdges (graph pg) a b) as [out|] eqn:Eout; simpl; [|done].
  destruct (from_option Some (out !! 0) (out !! idx)) as [e|] eqn:Ee; [|done].
  assert (e ∈ out) as Hin.
  { destruct (out !! idx) eqn:E1; simpl in Ee.
    - injection Ee as ->. by eapply list_elem_of_lookup_2.
    - by eapply list_elem_of_lookup_2. }
  destruct (outEdges_elem _ _ _ _ _ Eout Hb Hin) as (He & Hv & Hw).
  destruct (edge (graph pg) e) as [lbl|] eqn:El; [|done].
  apply edge_label_Some in El.
  intros ([path' u''] & Hloop & [= <- <-])%result_bind_Ok.
  constructor; [|by eapply IH].
  apply list_elem_of_fmap. exists (e, lbl). split; [|done].
  unfold segment_of. simpl. by rewrite Hv, Hw.
Qed.
End BuildPathTotal.

Section TraverseTotal.
Import PathGraph Graphlib.

Lemma first_found_total {A B} (f : A -> result (option B)) (l : list A) :
  (forall x, x ∈ l -> exists r, f x = Ok r) -> exists r, first_found f l = Ok r.
Proof.
  induction l as [|x l IH]; intros Hall; simpl; [eauto|].
  destruct (Hall x) as [r ->]; [by left|]. simpl.
  destruct r; [eauto|]. apply IH. intros y Hy. apply Hall. by right.
Qed.

Lemma successor_edge {L} (g : Graph L) token (P : string -> Prop)
    `{!forall x, Decision (P x)} x :
  x ∈ filter P (default [] (successors g token)) ->
  exists e, e ∈ (g_edges g).*1 /\ v e = token /\ w e = x.
Proof.
  intros [_ Hx]%list_elem_of_filter.
  destruct (successors g token) as [l|] eqn:E; [|by apply elem_of_nil in Hx].
  by eapply successors_elem.
Qed.

Lemma last_snoc_Some {A} (l : list A) x : last (l ++ [x]) = Some x.
Proof. induction l as [|y [|z l] IH]; simpl in *; done. Qed.

(** With enough depth budget the traversal returns: it finds a path or
    reports that there is none. *)
Lemma traverse_total pg tIn tOut idx config seen selected :
  graph_ok pg ->
  forall fuel token tokenPath,
    NoDup tokenPath ->
    (forall x, x ∈ tokenPath -> x ∈ g_nodes (graph pg)) ->
    linked (graph pg) tokenPath ->
    last tokenPath = Some token ->
    length (g_nodes (graph pg)) < fuel + length tokenPath ->
    exists r, traverseGraphAndFindUniquePath fuel pg token tIn tOut tokenPath idx config
                seen selected = Ok r.
Proof.
  intros Hok. pose proof Hok as [[_ Hcl] _].
  induction fuel as [|fuel IH]; intros token tokenPath Hnd Hsub Hlinked Hlast Hlen.
  - exfalso. apply NoDup_submseteq with (k := g_nodes (graph pg)) in Hnd; [|done].
    apply submseteq_length in Hnd. simpl in Hlen. lia.
  - cbn [traverseGraphAndFindUniquePath].
    destruct (negb _); [eauto|].
    match goal with
    | |- exists r, ?X ≫= _ = Ok r => assert (exists d, X = Ok d) as [d ->]
    end.
    { case_bool_decide as Hout; [|eauto].
      apply successor_edge in Hout as He.
      destruct (buildPath_total pg idx (tokenPath ++ [tOut]) Hok) as [r ->];
        [by eapply linked_snoc|].
      simpl. eauto. }
    simpl. destruct d as [p|]; [eauto|].
    apply first_found_total. intros successor [HnotIn Hin]%list_elem_of_filter.
    rewrite sortBy_perm in Hin.
    apply successor_edge in Hin as He.
    apply IH.
    + apply NoDup_app. split; [done|]. split; [|apply NoDup_singleton].
      by intros x Hx ->%list_elem_of_singleton.
    + intros x [?| ->%list_elem_of_singleton]%elem_of_app; [auto|].
      destruct He as (e & He & _ & <-). by apply Hcl.
    + by eapply linked_snoc.
    + apply last_snoc_Some.
    + rewrite length_app. simpl. lia.
Qed.
End TraverseTotal.

Section SearchTotal.
Import PathGraph Graphlib.

Lemma isValidPath_fresh pg path seen selected config :
  isValidPath pg path seen selected config = true -> getIdForPath path ∉ selected.
Proof.
  unfold isValidPath.
  destruct (match poolIdsToInclude config with Some _ => _ | None => _ end); [done|].
  destruct (negb _ && _); [done|].
  destruct (negb (bool_decide (length _ = length path))); [done|].
  destruct (bool_decide (0 < _)); [done|].
  case_bool_decide; done.
Qed.

Lemma NoDup_subset_length {A} (l k : list A) :
  NoDup l -> (forall x, x ∈ l -> x ∈ k) -> length l <= length k.
Proof. intros Hnd Hsub. by apply submseteq_length, NoDup_submseteq. Qed.

(** The id of an accepted path is new, it is one of the finitely many path
    ids of the graph, and the pools of the path are registered. *)
Lemma accepted_facts pg tIn tOut idx config seen selected path :
  graph_ok pg ->
  accepted pg tIn tOut idx config seen selected path ->
  (getIdForPath path ∉ selected)
  /\ getIdForPath path ∈ pathIds (graph pg)
  /\ forall a, a ∈ (fun segment => poolAddress (label segment)) <$> path ->
       isPoolAddress pg a.
Proof.
  intros Hok (tokenPath & Hnd & Hhd & Htl & Hnodes & HnotIn & HtOut & HtOutN & Htp
              & Hloop & Hvalid).
  assert (tokenPath <> []) as Hne by (by destruct tokenPath).
  assert (Forall (fun x => x <> "") (tail (tokenPath ++ [tOut]))) as Htl'.
  { rewrite tail_snoc by done. apply Forall_app. split; [done|]. by constructor. }
  pose proof Hloop as Hsegs. apply buildPath_loop_segments in Hsegs; [|done].
  apply buildPath_loop_spec in Hloop as (Hsok & Hlen & _ & _);
    [|done|done|by destruct tokenPath].
  split; [by eapply isValidPath_fresh|]. split.
  - unfold pathIds. apply list_elem_of_fmap. exists path. split; [done|].
    apply elem_of_sequences; [done|].
    assert (length (tokenPath ++ [tOut]) <= length (g_nodes (graph pg))); [|lia].
    apply NoDup_subset_length.
    + apply NoDup_app. split; [done|]. split; [|apply NoDup_singleton].
      by intros x Hx ->%list_elem_of_singleton.
    + intros x [?| ->%list_elem_of_singleton]%elem_of_app; auto.
  - intros a (s & -> & Hs)%list_elem_of_fmap.
    rewrite Forall_forall in Hsok. destruct (Hsok s Hs) as (_ & _ & _ & Hpool).
    unfold isPoolAddress. by rewrite Hpool.
Qed.

Lemma weightedPools_idemp pg seen :
  weightedPools pg (weightedPools pg seen) = weightedPools pg seen.
Proof.
  unfold weightedPools. apply filter_all, Forall_forall.
  by intros a [? _]%list_elem_of_filter.
Qed.

(** The relaxation returns, and it lowers the rank of a non-empty list. *)
Lemma relaxSeenPools_total pg seen :
  (forall a, a ∈ seen -> isPoolAddress pg a) ->
  exists seen',
    relaxSeenPools pg seen = Ok seen'
    /\ (forall a, a ∈ seen' -> isPoolAddress pg a)
    /\ (seen <> [] -> relax_rank pg seen' < relax_rank pg seen).
Proof.
  intros Hall. unfold relaxSeenPools. rewrite filterVolatilePools_spec by done. simpl.
  eexists. split; [done|].
  assert (forall l, l <> [] -> 1 <= relax_rank pg l) as Hpos.
  { intros [|x l] ?; [done|]. unfold relax_rank. case_decide; lia. }
  destruct (bool_decide (0 < length (weightedPools pg seen))) eqn:E1;
    [destruct (bool_decide (length (weightedPools pg seen) < length seen)) eqn:E2|]; simpl.
  - apply bool_decide_eq_true in E1, E2. split.
    + intros a [_ Ha]%list_elem_of_filter. by apply Hall.
    + intros Hne.
      assert (relax_rank pg (weightedPools pg seen) = 1) as ->.
      { unfold relax_rank. destruct (weightedPools pg seen) eqn:E; [simpl in E1; lia|].
        rewrite <- E. by rewrite decide_True by apply weightedPools_idemp. }
      unfold relax_rank. destruct seen; [done|].
      rewrite decide_False; [lia|]. intros Heq. rewrite Heq in E2. lia.
  - split; [by intros a ?%elem_of_nil|]. intros Hne. specialize (Hpos seen Hne).
    simpl. lia.
  - split; [by intros a ?%elem_of_nil|]. intros Hne. specialize (Hpos seen Hne).
    simpl. lia.
Qed.

Lemma relax_rank_le pg seen : relax_rank pg seen <= 2.
Proof. unfold relax_rank. destruct seen; [lia|]. case_decide; lia. Qed.

Context (pg : PathGraph) (tIn tOut : Token) (config : PathGraphTraversalConfig).
Hypothesis Hok : graph_ok pg.
Hypothesis HtIn : hasNode (graph pg) (t_address tIn) = true.

Lemma search_inv_bound s :
  search_inv pg s -> length (selectedPathIds s) <= length (pathIds (graph pg)).
Proof. intros (Hnd & Hsub & _). by apply NoDup_subset_length. Qed.

(** The inner [while] loop returns once its fuel exceeds the number of path
    ids that are still unselected; it only ever adds to the selected ids, and
    leaves the state alone when it adds nothing. *)
Lemma findPathsAtIndex_total idx : forall fuel s,
  search_inv pg s ->
  length (pathIds (graph pg)) - length (selectedPathIds s) < fuel ->
  exists s',
    findPathsAtIndex pg tIn tOut config fuel idx s = Ok s'
    /\ search_inv pg s'
    /\ length (selectedPathIds s) <= length (selectedPathIds s')
    /\ (length (selectedPathIds s') = length (selectedPathIds s) -> s' = s).
Proof.
  induction fuel as [|fuel IH]; intros s Hinv Hlt; [lia|].
  cbn [findPathsAtIndex].
  destruct (traverse_total pg (t_address tIn) (t_address tOut) idx config
              (seenPoolAddresses s) (selectedPathIds s) Hok (traversal_depth pg)
              (t_address tIn) [t_address tIn]) as [r Hr].
  { apply NoDup_singleton. }
  { intros x ->%list_elem_of_singleton. by apply bool_decide_eq_true in HtIn. }
  { apply linked_singleton. }
  { done. }
  { unfold traversal_depth. simpl. lia. }
  rewrite Hr. simpl. destruct r as [path|]; [|by exists s].
  apply found_accepted in Hr; [|done|done].
  destruct (accepted_facts _ _ _ _ _ _ _ _ Hok Hr) as (Hfresh & Hid & Hpools).
  destruct Hinv as (Hnd & Hsub & Hseen).
  set (s1 := mkSearchState _ _ _).
  assert (search_inv pg s1) as Hinv1.
  { split; [|split]; cbn [s1 selectedPathIds seenPoolAddresses].
    - apply NoDup_app. split; [done|]. split; [|apply NoDup_singleton].
      by intros x Hx ->%list_elem_of_singleton.
    - intros id [?| ->%list_elem_of_singleton]%elem_of_app; auto.
    - intros a [?|?]%elem_of_app; auto. }
  pose proof (search_inv_bound s1 Hinv1) as Hb.
  assert (length (selectedPathIds s1) = S (length (selectedPathIds s))) as Hs1.
  { cbn [s1 selectedPathIds]. rewrite length_app. simpl. lia. }
  destruct (IH s1 Hinv1) as (s' & Hs' & Hinv' & Hle & _); [lia|].
  exists s'. split; [done|]. split; [done|]. split; lia.
Qed.

Lemma searchRound_total fuel s :
  search_inv pg s ->
  length (pathIds (graph pg)) < fuel ->
  exists s',
    searchRound pg tIn tOut config fuel s = Ok s'
    /\ search_inv pg s'
    /\ length (selectedPathIds s) <= length (selectedPathIds s')
    /\ (length (selectedPathIds s') = length (selectedPathIds s) -> s' = s).
Proof.
  intros Hinv Hfuel. unfold searchRound.
  generalize (seq 0 (Z.to_nat (maxPathsPerTokenPair pg))). intros l.
  revert s Hinv. induction l as [|idx l IH]; intros s Hinv; simpl.
  - exists s. done.
  - destruct (findPathsAtIndex_total idx fuel s Hinv) as (s1 & -> & Hinv1 & Hle1 & Heq1);
      [lia|]. simpl.
    destruct (IH s1 Hinv1) as (s' & Hs' & Hinv' & Hle & Heq).
    exists s'. split; [done|]. split; [done|]. split; [lia|].
    intros E. rewrite Heq by lia. apply Heq1. lia.
Qed.

(** The outer [while] loop returns once the fuel exceeds the measure. *)
Lemma searchLoop_total inner : forall fuel s,
  search_inv pg s ->
  length (pathIds (graph pg)) < inner ->
  search_measure pg s < fuel ->
  exists s', searchLoop pg tIn tOut config fuel inner s = Ok s'.
Proof.
  induction fuel as [|fuel IH]; intros s Hinv Hinner Hlt; [lia|].
  cbn [searchLoop]. case_bool_decide; [|eauto].
  destruct (searchRound_total inner s Hinv Hinner) as (s1 & -> & Hinv1 & Hle & Heq).
  simpl.
  destruct (bool_decide (_ < approxPathsToReturn config)%Z) eqn:E1; simpl; [|eauto].
  destruct (bool_decide (0 < length (seenPoolAddresses s1))) eqn:E2; simpl; [|eauto].
  apply bool_decide_eq_true in E2.
  pose proof Hinv1 as (Hnd1 & Hsub1 & Hseen1).
  destruct (relaxSeenPools_total pg (seenPoolAddresses s1) Hseen1)
    as (seen' & -> & Hseen' & Hrank).
  simpl. apply IH; [done|done|].
  unfold search_measure in *. cbn [selectedPathIds seenPoolAddresses].
  pose proof (search_inv_bound s1 Hinv1) as Hb.
  pose proof (relax_rank_le pg seen').
  destruct (decide (length (selectedPathIds s1) = length (selectedPathIds s))) as [E|E].
  - specialize (Heq E). subst s1.
    assert (seenPoolAddresses s <> []) as Hne by (destruct (seenPoolAddresses s); [simpl in E2; lia | done]).
    specialize (Hrank Hne). lia.
  - lia.
Qed.

Lemma mapM_total {A B} (f : A -> result B) (l : list A) :
  Forall (fun x => exists y, f x = Ok y) l -> exists k, mapM f l = Ok k.
Proof.
  induction 1 as [|x l [y Hy] _ [k Hk]]; simpl; [eauto|].
  rewrite Hy. simpl. rewrite Hk. simpl. eauto.
Qed.
End SearchTotal.

Section FuelMonotone.
Import PathGraph Graphlib.
Context (pg : PathGraph) (tIn tOut : Token) (config : PathGraphTraversalConfig).

Lemma findPathsAtIndex_mono idx : forall fuel fuel' s s',
  findPathsAtIndex pg tIn tOut config fuel idx s = Ok s' ->
  fuel <= fuel' ->
  findPathsAtIndex pg tIn tOut config fuel' idx s = Ok s'.
Proof.
  induction fuel as [|fuel IH]; intros fuel' s s'; [done|].
  destruct fuel' as [|fuel']; [lia|]. cbn [findPathsAtIndex].
  intros (r & -> & Hrest)%result_bind_Ok Hle. simpl.
  destruct r as [path|]; [|done]. apply IH; [done | lia].
Qed.

Lemma searchRound_mono fuel fuel' s s' :
  searchRound pg tIn tOut config fuel s = Ok s' ->
  fuel <= fuel' ->
  searchRound pg tIn tOut config fuel' s = Ok s'.
Proof.
  unfold searchRound. intros H Hle. revert s H.
  induction (seq 0 (Z.to_nat (maxPathsPerTokenPair pg))) as [|idx l IH]; intros s; simpl;
    [done|].
  intros (s1 & H1 & Hrest)%result_bind_Ok.
  rewrite (findPathsAtIndex_mono idx fuel fuel' s s1) by done. simpl. by apply IH.
Qed.

Lemma searchLoop_mono inner inner' : forall fuel fuel' s s',
  searchLoop pg tIn tOut config fuel inner s = Ok s' ->
  fuel <= fuel' -> inner <= inner' ->
  searchLoop pg tIn tOut config fuel' inner' s = Ok s'.
Proof.
  induction fuel as [|fuel IH]; intros fuel' s s'.
  - cbn [searchLoop]. case_bool_decide as E; [done|]. intros [= <-] _ _.
    destruct fuel'; cbn [searchLoop]; by rewrite bool_decide_eq_false_2.
  - destruct fuel' as [|fuel'];
      [intros _ ?; lia|]. cbn [searchLoop]. case_bool_decide as E; [|done].
    intros (s1 & H1 & Hrest)%result_bind_Ok Hle Hin.
    rewrite (searchRound_mono inner inner' s s1) by done. simpl.
    destruct (bool_decide _ && bool_decide _); [|done].
    apply result_bind_Ok in Hrest as (seen' & -> & Hloop). simpl.
    apply IH; [done | lia | done].
Qed.
End FuelMonotone.

Section Termination.
Import PathGraph Graphlib.

(** On a well-formed graph the search returns for every fuel above
    [search_fuel], and what it returns does not depend on the fuel. *)
Lemma traverseGraphAndFindBestPaths_total pg tIn tOut pathConfig :
  graph_ok pg ->
  exists found, forall fuel,
    search_fuel pg <= fuel ->
    traverseGraphAndFindBestPaths fuel pg tIn tOut pathConfig = Ok found.
Proof.
  intros Hok. unfold traverseGraphAndFindBestPaths.
  destruct (hasNode (graph pg) (t_address tIn)) eqn:HtIn; simpl; [|eauto].
  destruct (negb (hasNode (graph pg) (t_address tOut))); [eauto|].
  set (config := applyDefaults pathConfig).
  set (s0 := mkSearchState [] [] []).
  assert (search_inv pg s0) as Hinv.
  { split; [apply NoDup_nil_2|]. split; by intros ? ?%elem_of_nil. }
  destruct (searchLoop_total pg tIn tOut config Hok HtIn (search_fuel pg) (search_fuel pg) s0)
    as [s Hs]; [done | unfold search_fuel; lia | unfold search_fuel, search_measure; simpl; lia|].
  pose proof Hs as Hgood. apply searchLoop_good in Hgood; [|done|done|constructor].
  destruct (mapM_total (toFoundPath pg) (paths s)) as [found Hfound].
  { eapply Forall_impl; [exact Hgood|]. intros path (tp & _ & Hlen2 & _ & Hlen & _).
    destruct path as [|first rest]; [simpl in Hlen; lia|]. simpl. eauto. }
  exists found. intros fuel Hfuel.
  by rewrite (searchLoop_mono pg tIn tOut config _ fuel _ fuel s0 s Hs).
Qed.

(** The search terminates: on a snapshot whose member-token addresses are
    non-empty, [findPaths] returns a list of paths as soon as the fuel
    reaches a bound that the snapshot determines, and the list is the same
    for every such fuel. *)
Theorem findPaths_terminates (pools : list Pool) (maxPathsPerTokenPair : option Z)
    (tIn tOut : Token) (pathConfig : PartialConfig) :
  valid_addresses pools ->
  exists n found, forall fuel,
    n <= fuel ->
    findPaths pools maxPathsPerTokenPair fuel tIn tOut pathConfig = Ok found.
Proof.
  intros Hvalid. unfold findPaths.
  destruct (buildGraph_spec pools (default 2%Z maxPathsPerTokenPair)) as (g & Hspec & _).
  assert (buildGraph pools maxPathsPerTokenPair
          = buildGraph pools (Some (default 2%Z maxPathsPerTokenPair))) as Heq
    by (by destruct maxPathsPerTokenPair).
  rewrite <- Heq in Hspec. rewrite Hspec. simpl.
  apply buildGraph_ok in Hspec; [|done].
  destruct (traverseGraphAndFindBestPaths_total _ tIn tOut pathConfig Hspec) as [found H].
  eauto.
Qed.

Lemma findPaths_terminates_witness :
  valid_addresses [Examples.poolAB; Examples.poolBC]
  /\ exists n found, forall fuel,
       n <= fuel ->
       findPaths [Examples.poolAB; Examples.poolBC] None fuel Examples.tokA Examples.tokC
         Examples.defaultConfig = Ok found.
Proof.
  assert (valid_addresses [Examples.poolAB; Examples.poolBC]) as Hvalid.
  { apply valid_addresses_Forall. repeat constructor; done. }
  split; [done|]. by apply findPaths_terminates.
Defined.
End Termination.

(** ** The route object: what the constructor builds *)

Section MapM.
Context {A B : Type} (f : A -> result B).

Lemma mapM_result_total (l : list A) :
  (forall x, x ∈ l -> exists y, f x = Ok y) -> exists k, mapM f l = Ok k.
Proof.
  induction l as [|x l IH]; intros H; simpl; [by eexists|].
  destruct (H x) as [y ->]; [by left|]. simpl.
  destruct IH as [k ->]; [intros; apply H; by right|]. simpl. by eexists.
Qed.

Lemma mapM_result_Err (l : list A) e :
  mapM f l = Err e -> exists x, x ∈ l /\ f x = Err e.
Proof.
  induction l as [|x l IH]; simpl; [done|].
  destruct (f x) as [y|e'] eqn:E; simpl.
  - destruct (mapM f l) as [k|e'']; simpl; [done|]. intros [= ->].
    destruct IH as (x' & ? & ?); [done|]. exists x'. split; [by right | done].
  - intros [= ->]. exists x. split; [by left | done].
Qed.

Lemma mapM_result_length (l : list A) k : mapM f l = Ok k -> length k = length l.
Proof. intros H%mapM_result_Ok. symmetry. by eapply Forall2_length. Qed.
End MapM.

Section ListFacts.
Context `{EqDecision A}.

Lemma NoDup_uniq (l : list A) : NoDup (uniq l).
Proof.
  induction l as [|x l IH]; simpl; [constructor|].
  constructor.
  - by intros [? _]%list_elem_of_filter.
  - by apply NoDup_filter.
Qed.

Lemma indexOf_ge (l : list A) x : (-1 <= indexOf l x)%Z.
Proof.
  induction l as [|y l IH]; simpl; [lia|].
  repeat case_decide; lia.
Qed.

Lemma indexOf_absent (l : list A) x : x ∉ l <-> indexOf l x = (-1)%Z.
Proof.
  induction l as [|y l IH]; simpl.
  - split; [done | intros _ ?%elem_of_nil; done].
  - pose proof (indexOf_ge l x). rewrite not_elem_of_cons.
    destruct (decide (y = x)) as [->|Hne].
    + split; [by intros [? _] | lia].
    + destruct (decide (indexOf l x = (-1)%Z)) as [E|E].
      * split; [done|]. intros _. split; [done | by apply IH].
      * split; [|lia]. intros [_ ?%IH]. done.
Qed.

(** [indexOf] finds the first position of an element that is present. *)
Lemma indexOf_lookup (l : list A) x :
  x ∈ l ->
  (0 <= indexOf l x < Z.of_nat (length l))%Z /\ l !! Z.to_nat (indexOf l x) = Some x.
Proof.
  induction l as [|y l IH]; [by intros ?%elem_of_nil|]. simpl.
  destruct (decide (y = x)) as [->|Hne]; [intros _; split; [lia | done]|].
  intros [->|Hin]%elem_of_cons; [done|].
  destruct (IH Hin) as [Hr Hl].
  rewrite decide_False by lia. split; [lia|].
  replace (Z.to_nat (indexOf l x + 1)) with (S (Z.to_nat (indexOf l x))) by lia. done.
Qed.

(** Writing at the position of [w] in a list without repetition replaces
    [w] and nothing else; when [w] is absent the list is left alone. *)
Lemma set_at_indexOf (l : list A) w z :
  NoDup l ->
  set_at_index l (indexOf l w) z = (fun a => if decide (a = w) then z else a) <$> l.
Proof.
  unfold set_at_index. induction l as [|y l IH]; intros Hnd; [done|].
  apply NoDup_cons in Hnd as [Hy Hnd]. specialize (IH Hnd).
  pose proof (indexOf_ge l w). rewrite fmap_cons. cbn [indexOf].
  destruct (decide (y = w)) as [->|Hne].
  - rewrite decide_True by lia. simpl. f_equal.
    rewrite <- (list_fmap_id l) at 1. apply list_fmap_ext.
    intros i a Ha%list_elem_of_lookup_2. simpl. rewrite decide_False; [done|].
    by intros ->.
  - destruct (decide (indexOf l w = (-1)%Z)) as [E|E].
    + rewrite E in IH. rewrite decide_False in IH by lia.
      rewrite decide_False by lia. by rewrite <- IH.
    + rewrite decide_True in IH by lia. rewrite decide_True by lia.
      replace (Z.to_nat (indexOf l w + 1)) with (S (Z.to_nat (indexOf l w))) by lia.
      simpl. by rewrite IH.
Qed.
End ListFacts.

Section RouteSteps.
Import Swap.
Variables DEFAULT_USERDATA ZERO_ADDRESS : string.

Lemma path_steps_lookup assets toks pools inIdx outIdx first steps :
  path_steps DEFAULT_USERDATA assets toks pools inIdx outIdx first = Ok steps ->
  length steps = length pools
  /\ forall i pool, pools !! i = Some pool ->
       exists tin tout,
         toks !! inIdx i = Some tin /\ toks !! outIdx i = Some tout
         /\ steps !! i
            = Some (mkBatchSwapStep (p_id pool) (indexOf assets (t_address tin))
                      (indexOf assets (t_address tout))
                      (if decide (i = 0) then bigint_toString first else "0")
                      DEFAULT_USERDATA).
Proof.
  unfold path_steps. intros H.
  pose proof H as Hlen%mapM_result_length. rewrite length_imap in Hlen.
  split; [done|]. intros i pool Hi.
  apply mapM_result_Ok in H.
  assert (imap (fun i pool => (i, pool)) pools !! i = Some (i, pool)) as Hi'
    by (by rewrite list_lookup_imap, Hi).
  destruct (Forall2_lookup_l _ _ _ _ _ H Hi') as (st & Hst & Hf).
  simpl in Hf. unfold address_at in Hf.
  destruct (toks !! inIdx i) as [tin|]; [|done]. simpl in Hf.
  destruct (toks !! outIdx i) as [tout|]; [|done]. simpl in Hf.
  injection Hf as <-. eauto.
Qed.

Lemma path_steps_total assets toks pools inIdx outIdx first :
  (forall i, i < length pools -> inIdx i < length toks /\ outIdx i < length toks) ->
  exists steps, path_steps DEFAULT_USERDATA assets toks pools inIdx outIdx first = Ok steps.
Proof.
  intros H. unfold path_steps. apply mapM_result_total.
  intros [i pool] (i' & pool' & [= -> ->] & Hi)%elem_of_lookup_imap.
  destruct (H i') as [Hin Hout]; [by eapply lookup_lt_Some|].
  apply lookup_lt_is_Some in Hin as [tin Htin], Hout as [tout Htout].
  unfold address_at. rewrite Htin, Htout. simpl. by eexists.
Qed.

Lemma path_steps_Err assets toks pools inIdx outIdx first e :
  path_steps DEFAULT_USERDATA assets toks pools inIdx outIdx first = Err e -> e = TypeError.
Proof.
  unfold path_steps. intros ([i pool] & _ & Hf)%mapM_result_Err. unfold address_at in Hf.
  destruct (toks !! inIdx i); simpl in Hf; [|by injection Hf].
  destruct (toks !! outIdx i); simpl in Hf; [done | by injection Hf].
Qed.

(** The steps of one path exist exactly when every pool has its two tokens. *)
Lemma steps_of_outcome kind assets p :
  (too_few_tokens (path p) -> steps_of DEFAULT_USERDATA kind assets p = Err TypeError)
  /\ (~ too_few_tokens (path p) ->
      exists steps, steps_of DEFAULT_USERDATA kind assets p = Ok steps).
Proof.
  unfold too_few_tokens. split.
  - intros [Hne Hlen].
    destruct (steps_of DEFAULT_USERDATA kind assets p) as [steps|e] eqn:E.
    + exfalso.
      assert (0 < length (Path.pools (path p))) as Hpos
        by (destruct (Path.pools (path p)); [done | simpl; lia]).
      destruct kind; simpl in E; apply path_steps_lookup in E as [_ H].
      * destruct (lookup_lt_is_Some_2 (Path.pools (path p)) (length (Path.pools (path p)) - 1))
          as [q Hq]; [lia|].
        destruct (H _ q Hq) as (tin & tout & _ & Hout%lookup_lt_Some & _). lia.
      * destruct (lookup_lt_is_Some_2 (reverse (Path.pools (path p)))
                    (length (Path.pools (path p)) - 1)) as [q Hq];
          [rewrite length_reverse; lia|].
        destruct (H _ q Hq) as (tin & tout & Hin%lookup_lt_Some & _ & _).
        rewrite length_reverse in Hin. lia.
    + destruct kind; simpl in E; apply path_steps_Err in E; by subst.
  - intros Hok.
    assert (forall i, i < length (Path.pools (path p)) -> S i < length (Path.tokens (path p)))
      as Hlt.
    { intros i Hi. destruct (decide (S i < length (Path.tokens (path p)))); [done|].
      destruct Hok. split; [|lia]. destruct (Path.pools (path p)); [simpl in Hi; lia | done]. }
    destruct kind; simpl; apply path_steps_total; intros i Hi;
      rewrite ?length_reverse in *; specialize (Hlt i Hi); lia.
Qed.

(** The outcome of the constructor: it rejects an empty list of paths with
    its own error, fails with a [TypeError] when a pool lacks a token, and
    returns a route in every other case. *)
Lemma new_outcome paths kind swapAmount :
  (paths = [] ->
   new DEFAULT_USERDATA ZERO_ADDRESS paths kind swapAmount = Err (JsError msg_no_path))
  /\ (paths <> [] -> Exists (fun p => too_few_tokens (path p)) paths ->
      new DEFAULT_USERDATA ZERO_ADDRESS paths kind swapAmount = Err TypeError)
  /\ (paths <> [] -> Forall (fun p => ~ too_few_tokens (path p)) paths ->
      exists s, new DEFAULT_USERDATA ZERO_ADDRESS paths kind swapAmount = Ok s
                /\ Swap.paths s = paths /\ Swap.swapKind s = kind
                /\ isNativeSwap s = t_isNative (ta_token swapAmount)).
Proof.
  split; [by intros ->|]. split.
  - intros Hne (p & Hp & Hbad)%Exists_exists. destruct paths as [|p0 rest]; [done|].
    unfold new.
    match goal with |- context [mapM ?f ?l] => destruct (mapM f l) as [k|e] eqn:E end.
    + exfalso. apply mapM_result_Ok in E.
      apply list_elem_of_lookup in Hp as [i Hi].
      destruct (Forall2_lookup_l _ _ _ _ _ E Hi) as (st & _ & Hst).
      by rewrite (proj1 (steps_of_outcome _ _ _) Hbad) in Hst.
    + simpl. apply mapM_result_Err in E as (q & _ & Hq).
      destruct (decide (too_few_tokens (path q))) as [Hb|Hb].
      * rewrite (proj1 (steps_of_outcome _ _ _) Hb) in Hq. by injection Hq as <-.
      * destruct (proj2 (steps_of_outcome kind
                    (uniq (t_address <$> concat ((fun p => Path.tokens (path p)) <$> p0 :: rest)))
                    q) Hb) as [? Hq'].
        by rewrite Hq' in Hq.
  - intros Hne Hall. destruct paths as [|p0 rest]; [done|]. unfold new.
    match goal with |- context [mapM ?f ?l] => destruct (mapM_result_total f l) as [k ->] end.
    { intros p Hp. apply steps_of_outcome. rewrite Forall_forall in Hall. by apply Hall. }
    simpl. eexists. split; [done|]. done.
Qed.
End RouteSteps.

(** The constructor of a route rejects an empty list of paths with the
    error [Invalid swap: must contain at least 1 path.]; it fails with a
    [TypeError] when some path has a pool without a token on both of its
    sides (fewer tokens than pools plus one); in every other case it returns
    a route that holds the given paths and kind.  [fromPaths] is rejected on
    the empty list in the same way. *)
Theorem Swap_constructor_outcome (DEFAULT_USERDATA ZERO_ADDRESS : string)
    (paths : list Swap.PathEntry) (kind : SwapKind) (swapAmount : TokenAmount) :
  (paths = [] ->
   Swap.new DEFAULT_USERDATA ZERO_ADDRESS paths kind swapAmount
   = Err (JsError Swap.msg_no_path))
  /\ (paths <> [] -> Exists (fun p => too_few_tokens (Swap.path p)) paths ->
      Swap.new DEFAULT_USERDATA ZERO_ADDRESS paths kind swapAmount = Err TypeError)
  /\ (paths <> [] -> Forall (fun p => ~ too_few_tokens (Swap.path p)) paths ->
      exists s, Swap.new DEFAULT_USERDATA ZERO_ADDRESS paths kind swapAmount = Ok s
                /\ Swap.paths s = paths /\ Swap.swapKind s = kind
                /\ Swap.isNativeSwap s = t_isNative (ta_token swapAmount))
  /\ (forall inputAmountOf outputAmountOf,
        Swap.fromPaths DEFAULT_USERDATA ZERO_ADDRESS inputAmountOf outputAmountOf [] kind
          swapAmount = Err (JsError Swap.msg_no_path)).
Proof.
  destruct (new_outcome DEFAULT_USERDATA ZERO_ADDRESS paths kind swapAmount) as (H1 & H2 & H3).
  repeat split; try done.
Qed.

Section RouteDecode.
Import Swap.
Variables DEFAULT_USERDATA ZERO_ADDRESS : string.

Lemma fmap_concat {A B} (f : A -> B) (ls : list (list A)) :
  f <$> concat ls = concat (fmap (M := list) f <$> ls).
Proof.
  induction ls as [|l ls IH]; [done|]. simpl. by rewrite fmap_app, IH.
Qed.

Lemma elem_of_concat {A} (x : A) (ls : list (list A)) :
  x ∈ concat ls <-> exists l, x ∈ l /\ l ∈ ls.
Proof.
  induction ls as [|l ls IH]; simpl.
  - split; [by intros ?%elem_of_nil | by intros (? & _ & ?%elem_of_nil)].
  - rewrite elem_of_app, IH. split.
    + intros [?|(k & ? & ?)]; [exists l | exists k]; split; try done; by constructor.
    + intros (k & Hx & [->|?]%elem_of_cons); [by left | right; eauto].
Qed.

Lemma tail_length {A} (l : list A) : length (tail l) = length l - 1.
Proof. destruct l; simpl; lia. Qed.

Lemma tail_lookup {A} (l : list A) i : tail l !! i = l !! S i.
Proof. by destruct l. Qed.

Lemma Forall2_fmap_eq {A B C} (f : A -> C) (g : B -> C) l k :
  Forall2 (fun x y => f x = g y) l k -> f <$> l = g <$> k.
Proof. induction 1 as [|x y l k H _ IH]; [done|]. rewrite !fmap_cons. congruence. Qed.

(** The asset list: the distinct token addresses of the paths in the order
    of their first occurrence, each under its listed address. *)
Lemma new_assets paths kind swapAmount s :
  new DEFAULT_USERDATA ZERO_ADDRESS paths kind swapAmount = Ok s ->
  assets s = listed_address ZERO_ADDRESS swapAmount <$> uniq (route_addresses paths)
  /\ exists stepss,
       mapM (steps_of DEFAULT_USERDATA kind (uniq (route_addresses paths))) paths = Ok stepss
       /\ swaps s = concat stepss.
Proof.
  unfold new. destruct paths as [|p0 rest]; [done|].
  fold (route_addresses (p0 :: rest)).
  intros (stepss & Hsteps & [= <-])%result_bind_Ok. cbn [assets swaps].
  split; [|by exists stepss].
  unfold listed_address. destruct (t_isNative (ta_token swapAmount)); simpl.
  - rewrite set_at_indexOf by apply NoDup_uniq. apply list_fmap_ext.
    intros i a _. simpl. by destruct (decide _); [rewrite bool_decide_eq_true_2
                                               | rewrite bool_decide_eq_false_2].
  - by rewrite list_fmap_id.
Qed.

Section OnePath.
Variable assets : list string.
Variable swapAmount : TokenAmount.

(** A token address of the path is decoded to its listed address. *)
Lemma decode_index (a : string) :
  a ∈ assets ->
  (0 <= indexOf assets a)%Z
  /\ (listed_address ZERO_ADDRESS swapAmount <$> assets) !! Z.to_nat (indexOf assets a)
     = Some (listed_address ZERO_ADDRESS swapAmount a).
Proof.
  intros [Hr Hl]%indexOf_lookup. split; [lia|].
  by rewrite list_lookup_fmap, Hl.
Qed.

Lemma decode_step_mk id a b amt ud :
  a ∈ assets -> b ∈ assets ->
  decode_step (listed_address ZERO_ADDRESS swapAmount <$> assets)
    (mkBatchSwapStep id (indexOf assets a) (indexOf assets b) amt ud)
  = Some (listed_hop ZERO_ADDRESS swapAmount (id, (a, b))).
Proof.
  intros [Ha Hla]%decode_index [Hb Hlb]%decode_index.
  unfold decode_step. cbn [assetInIndex assetOutIndex poolId].
  rewrite !bool_decide_eq_true_2 by done. simpl. by rewrite Hla, Hlb.
Qed.

Lemma steps_of_decode kind p steps :
  steps_of DEFAULT_USERDATA kind assets p = Ok steps ->
  hop_aligned (path p) ->
  (forall t, t ∈ Path.tokens (path p) -> t_address t ∈ assets) ->
  decode_step (listed_address ZERO_ADDRESS swapAmount <$> assets) <$> steps
  = Some <$> listing_order kind (listed_hop ZERO_ADDRESS swapAmount <$> hops (path p)).
Proof.
  unfold hop_aligned. intros Hsteps Hal Hin.
  set (toks := Path.tokens (path p)) in *. set (pools := Path.pools (path p)) in *.
  assert (length (hops (path p)) = length pools) as Hhl.
  { unfold hops. fold toks pools. rewrite !length_zip, !length_fmap, tail_length. lia. }
  assert (forall i, i < length pools ->
            exists pool tin tout,
              pools !! i = Some pool /\ toks !! i = Some tin /\ toks !! S i = Some tout
              /\ hops (path p) !! i = Some (p_id pool, (t_address tin, t_address tout)))
    as Hhop.
  { intros i Hi.
    destruct (lookup_lt_is_Some_2 pools i) as [pool Hpool]; [done|].
    destruct (lookup_lt_is_Some_2 toks i) as [tin Htin]; [lia|].
    destruct (lookup_lt_is_Some_2 toks (S i)) as [tout Htout]; [lia|].
    exists pool, tin, tout. repeat (split; [done|]).
    unfold hops. fold toks pools.
    apply lookup_zip_Some. rewrite list_lookup_fmap, Hpool. split; [done|].
    apply lookup_zip_Some. by rewrite !list_lookup_fmap, tail_lookup, Htin, Htout. }
  apply list_eq. intros i. rewrite !list_lookup_fmap.
  destruct kind; cbn [steps_of listing_order] in *; fold toks pools in Hsteps;
    apply path_steps_lookup in Hsteps as [Hlen Hsteps].
  - rewrite list_lookup_fmap. destruct (decide (i < length pools)) as [Hi|Hi].
    + destruct (Hhop i Hi) as (pool & tin & tout & Hpool & Htin & Htout & ->).
      destruct (Hsteps i pool Hpool) as (tin' & tout' & Htin' & Htout' & ->).
      simplify_eq. simpl. f_equal.
      apply decode_step_mk; apply Hin; by eapply list_elem_of_lookup_2.
    + rewrite (lookup_ge_None_2 steps) by lia.
      rewrite (lookup_ge_None_2 (hops (path p))) by lia. done.
  - rewrite length_reverse in Hlen.
    destruct (decide (i < length pools)) as [Hi|Hi].
    + rewrite reverse_lookup by (rewrite length_fmap; lia).
      rewrite list_lookup_fmap, length_fmap, Hhl.
      destruct (Hhop (length pools - S i)) as (pool & tin & tout & Hpool & Htin & Htout & ->);
        [lia|].
      destruct (Hsteps i pool) as (tin' & tout' & Htin' & Htout' & ->).
      { rewrite reverse_lookup by done. done. }
      rewrite reverse_lookup in Htin', Htout' by lia.
      replace (length toks - S (S i)) with (length pools - S i) in Htin' by lia.
      replace (length toks - S i) with (S (length pools - S i)) in Htout' by lia.
      simplify_eq. simpl. f_equal.
      apply decode_step_mk; apply Hin; by eapply list_elem_of_lookup_2.
    + rewrite (lookup_ge_None_2 steps) by lia.
      rewrite (lookup_ge_None_2 (reverse _))
        by (rewrite length_reverse, length_fmap; lia). done.
Qed.

Lemma steps_of_amounts kind p steps :
  steps_of DEFAULT_USERDATA kind assets p = Ok steps ->
  amount <$> steps = step_amounts kind p
  /\ Forall (fun st => userData st = DEFAULT_USERDATA) steps.
Proof.
  intros Hsteps.
  assert (exists toks pools inIdx outIdx,
            length pools = length (Path.pools (path p))
            /\ path_steps DEFAULT_USERDATA assets toks pools inIdx outIdx
                 (ta_amount (fixed_amount kind p)) = Ok steps)
    as (toks & pools & inIdx & outIdx & Hpl & H).
  { destruct kind; simpl in Hsteps; do 4 eexists; (split; [|exact Hsteps]);
      [done | apply length_reverse]. }
  apply path_steps_lookup in H as [Hlen H]. split.
  - apply list_eq. intros i. rewrite list_lookup_fmap. unfold step_amounts.
    destruct (decide (i < length pools)) as [Hi|Hi].
    + destruct (lookup_lt_is_Some_2 pools i Hi) as [pool Hpool].
      destruct (H i pool Hpool) as (tin & tout & _ & _ & ->). simpl.
      destruct (Path.pools (path p)) as [|q rest]; [simpl in Hpl; lia|].
      destruct i as [|i]; [done|]. simpl.
      rewrite lookup_replicate_2; [done|]. simpl in Hpl. lia.
    + rewrite (lookup_ge_None_2 steps) by lia. simpl. symmetry.
      destruct (Path.pools (path p)) as [|q rest]; [done|].
      apply lookup_ge_None_2. simpl in *. rewrite length_replicate. lia.
  - apply Forall_forall. intros st [i Hi]%list_elem_of_lookup.
    destruct (lookup_lt_is_Some_2 pools i) as [pool Hpool];
      [apply lookup_lt_Some in Hi; lia|].
    destruct (H i pool Hpool) as (tin & tout & _ & _ & Hst).
    rewrite Hst in Hi. by injection Hi as <-.
Qed.
End OnePath.
End RouteDecode.

(** The asset list of a route holds every token address of its paths once,
    in the order of first occurrence; in a native swap the address of the
    wrapped token is listed as the zero address, and when the swap is not
    native, or the wrapped token is on no path, the list is left as it is. *)
Theorem Swap_assets (DEFAULT_USERDATA ZERO_ADDRESS : string)
    (paths : list Swap.PathEntry) (kind : SwapKind) (swapAmount : TokenAmount)
    (s : Swap.Swap) :
  Swap.new DEFAULT_USERDATA ZERO_ADDRESS paths kind swapAmount = Ok s ->
  Swap.assets s = listed_address ZERO_ADDRESS swapAmount <$> uniq (route_addresses paths)
  /\ NoDup (uniq (route_addresses paths))
  /\ (forall a, a ∈ uniq (route_addresses paths) <-> a ∈ route_addresses paths)
  /\ (t_isNative (ta_token swapAmount) = false
      \/ t_wrapped (ta_token swapAmount) ∉ route_addresses paths ->
      Swap.assets s = uniq (route_addresses paths)).
Proof.
  intros [Hassets _]%new_assets. split; [done|]. split; [apply NoDup_uniq|].
  split; [intros a; apply elem_of_uniq|].
  intros Hplain. rewrite Hassets. rewrite <- (list_fmap_id (uniq _)) at 2.
  apply list_fmap_ext. intros i a Ha%list_elem_of_lookup_2. apply (proj1 (elem_of_uniq _ _)) in Ha.
  unfold listed_address. destruct Hplain as [->|Hw]; [done|].
  rewrite (bool_decide_eq_false_2 (a = _)) by (intros Heq; apply Hw; by rewrite <- Heq).
  by rewrite andb_false_r.
Qed.

Lemma Swap_assets_witness :
  Swap.assets <$> Swap.new Examples.DEFAULT_USERDATA Examples.ZERO_ADDRESS
                    [Examples.entryAB; Examples.entryABC] GivenIn
                    (Examples.amount Examples.tokA 9)
  = Ok ["0xA"; "0xB"; "0xC"].
Proof.
  destruct (Swap.new _ _ _ _ _) as [s|e] eqn:E; [|vm_compute in E; discriminate].
  simpl. f_equal.
  rewrite (proj1 (Swap_assets _ _ _ _ _ s E)). vm_compute. reflexivity.
Defined.

(** Reading the steps of a route back against its asset list gives the hops
    of its paths: for every path with one token more than pools, one step
    per pool with the pool's id and the listed addresses of the tokens on
    its two sides, in token order for [GivenIn] and in reverse order for
    [GivenOut]; no index is [-1].  The first step of each path carries the
    path's fixed amount, every other step the amount [0]. *)
Theorem Swap_steps_decode (DEFAULT_USERDATA ZERO_ADDRESS : string)
    (paths : list Swap.PathEntry) (kind : SwapKind) (swapAmount : TokenAmount)
    (s : Swap.Swap) :
  Swap.new DEFAULT_USERDATA ZERO_ADDRESS paths kind swapAmount = Ok s ->
  Forall (fun p => hop_aligned (Swap.path p)) paths ->
  decode_step (Swap.assets s) <$> Swap.swaps s
  = Some <$> concat ((fun p => listing_order kind
                                 (listed_hop ZERO_ADDRESS swapAmount <$> hops (Swap.path p)))
                     <$> paths)
  /\ Swap.amount <$> Swap.swaps s = concat (step_amounts kind <$> paths)
  /\ Forall (fun st => Swap.userData st = DEFAULT_USERDATA) (Swap.swaps s).
Proof.
  intros (Hassets & stepss & Hsteps & Hswaps)%new_assets Hal.
  rewrite Hassets, Hswaps. clear Hassets Hswaps.
  apply mapM_result_Ok in Hsteps.
  apply Forall2_same_length_lookup in Hsteps as [Hlen Hsteps].
  rewrite Forall_forall in Hal.
  split; [|split].
  - rewrite !fmap_concat. f_equal. rewrite <- list_fmap_compose.
    symmetry. apply Forall2_fmap_eq, Forall2_same_length_lookup. split; [done|].
    intros i p steps Hp Hst. simpl. symmetry.
    eapply steps_of_decode; [by eapply Hsteps | |].
    + apply Hal. by eapply list_elem_of_lookup_2.
    + intros t Ht. apply elem_of_uniq. unfold route_addresses.
      apply list_elem_of_fmap_2, elem_of_concat.
      exists (Path.tokens (Swap.path p)). split; [done|].
      apply list_elem_of_fmap. exists p. split; [done|]. by eapply list_elem_of_lookup_2.
  - rewrite fmap_concat. f_equal. symmetry.
    apply Forall2_fmap_eq, Forall2_same_length_lookup. split; [done|].
    intros i p steps Hp Hst. symmetry.
    by eapply steps_of_amounts, Hsteps.
  - apply Forall_concat, Forall_forall. intros steps [i Hi]%list_elem_of_lookup.
    destruct (lookup_lt_is_Some_2 paths i) as [p Hp];
      [apply lookup_lt_Some in Hi; lia|].
    by eapply steps_of_amounts, Hsteps.
Qed.

Lemma Swap_steps_decode_witness :
  (fun s => decode_step (Swap.assets s) <$> Swap.swaps s)
    <$> Swap.new Examples.DEFAULT_USERDATA Examples.ZERO_ADDRESS
          [Examples.entryABC] GivenOut (Examples.amount Examples.tokC 30)
  = Ok [Some ("id-BC", ("0xB", "0xC")); Some ("id-AB", ("0xA", "0xB"))].
Proof.
  destruct (Swap.new _ _ _ _ _) as [s|e] eqn:E; [|vm_compute in E; discriminate].
  simpl. f_equal.
  rewrite (proj1 (Swap_steps_decode _ _ _ _ _ s E
                    ltac:(repeat constructor))).
  vm_compute. reflexivity.
Defined.

Lemma Swap_constructor_outcome_witness :
  Swap.new Examples.DEFAULT_USERDATA Examples.ZERO_ADDRESS
    [Swap.mkPathEntry (Path.new [Examples.tokA; Examples.tokB]
                         [Examples.poolAB; Examples.poolBC] (Examples.amount Examples.tokA 4))
       (Examples.amount Examples.tokA 4) (Examples.amount Examples.tokB 8)]
    GivenIn (Examples.amount Examples.tokA 4)
  = Err TypeError.
Proof.
  apply Swap_constructor_outcome; [done|].
  apply Exists_cons_hd. split; [done | simpl; lia].
Defined.

(** ** [PathWithAmount.outputAmount] on a path with spare tokens *)

Section SpareTokens.
Import Path.

(** The loop leaves the slots behind its last write alone. *)
Lemma outputAmount_loop_untouched toks rest : forall i amounts amounts',
  outputAmount_loop toks rest i amounts = Ok amounts' ->
  forall j, i + length rest < j -> j < length amounts -> amounts' !! j = amounts !! j.
Proof.
  induction rest as [|pool rest IH]; intros i amounts amounts'; simpl.
  - by intros [= <-].
  - intros (out & _ & Hrest)%result_bind_Ok j Hj Hlt.
    rewrite (IH _ _ _ Hrest j) by (rewrite ?js_array_set_length; lia).
    unfold js_array_set. rewrite decide_True by lia.
    apply list_lookup_insert_ne. lia.
Qed.
End SpareTokens.

(** A [GivenIn] path with more tokens than pools plus one still asks every
    pool for its quote, in token order, and fails when one of them fails;
    but when all the quotes succeed the promise resolves to [undefined]: the
    last slot of the amounts array is never written. *)
Theorem outputAmount_spare_tokens (p : Path.PathWithAmount) :
  Path.swapKind p = GivenIn ->
  S (length (Path.pools p)) < length (Path.tokens p) ->
  Path.outputAmount p
  = (fun _ => None) <$> Path.quoteForward (Path.tokens p) (Path.pools p) (Path.swapAmount p).
Proof.
  intros Hk Hlen. unfold Path.outputAmount. rewrite Hk.
  set (amounts := js_array_set (replicate (length (Path.tokens p)) None) 0 (Path.swapAmount p)).
  pose proof (outputAmount_loop_spec (Path.tokens p) (Path.pools p) 0 amounts
                (Path.swapAmount p) (js_array_get_set _ _ _)) as H.
  rewrite drop_0 in H.
  assert (length amounts = length (Path.tokens p)) as Hl0
    by (unfold amounts; rewrite js_array_set_length, length_replicate; lia).
  destruct (Path.outputAmount_loop _ _ _ _) as [amounts'|e] eqn:Hloop,
           (Path.quoteForward _ _ _) as [r|e']; simpl in *; try done; [|by subst].
  destruct H as [_ Hl]. f_equal. unfold js_array_get.
  rewrite (outputAmount_loop_untouched _ _ _ _ _ Hloop) by lia.
  unfold amounts, js_array_set. rewrite decide_True by (rewrite length_replicate; lia).
  rewrite list_lookup_insert_ne by lia.
  rewrite lookup_replicate_2 by lia. done.
Qed.

Lemma outputAmount_spare_tokens_witness :
  Path.outputAmount
    (Path.new [Examples.tokA; Examples.tokB; Examples.tokC] [Examples.poolAB]
       (Examples.amount Examples.tokA 5))
  = Ok None.
Proof.
  rewrite outputAmount_spare_tokens; [vm_compute; reflexivity | reflexivity | simpl; lia].
Defined.

(** ** The orchestrator stops at the first failure *)

(** [getSwaps] calls the pool provider, the candidate search and the
    best-path selection in this order, each at most once and each on the
    result of the one before.  When one of them fails nothing after it is
    called, the failure is the outcome, and the console timer that was
    started for the failing call is never ended; when all succeed no timer
    is left running. *)
Theorem getSwaps_fail_fast
    (getPools : result (list Pool))
    (getCandidatePaths : Token -> Token -> SwapKind -> list Pool -> result (list Path.Path))
    (getBestPaths : list Path.Path -> SwapKind -> TokenAmount -> result Swap.Swap)
    (tokenIn tokenOut : Token) (swapKind : SwapKind) (swapAmount : TokenAmount) :
  let r := Sor.getSwaps getPools getCandidatePaths getBestPaths
             tokenIn tokenOut swapKind swapAmount in
  (forall e, getPools = Err e ->
     Sor.outcome r = Err e
     /\ collaborator_calls (Sor.trace r) = [Sor.CallGetPools]
     /\ running_timers (Sor.trace r) = ["poolProvider"])
  /\ (forall pools e,
        getPools = Ok pools ->
        getCandidatePaths tokenIn tokenOut swapKind pools = Err e ->
        Sor.outcome r = Err e
        /\ collaborator_calls (Sor.trace r)
           = [Sor.CallGetPools; Sor.CallGetCandidatePaths tokenIn tokenOut swapKind pools]
        /\ running_timers (Sor.trace r) = ["getCandidatePaths"])
  /\ (forall pools c,
        getPools = Ok pools ->
        getCandidatePaths tokenIn tokenOut swapKind pools = Ok c ->
        collaborator_calls (Sor.trace r)
        = [Sor.CallGetPools; Sor.CallGetCandidatePaths tokenIn tokenOut swapKind pools;
           Sor.CallGetBestPaths c swapKind swapAmount]
        /\ match getBestPaths c swapKind swapAmount with
           | Ok best =>
               Sor.outcome r = Ok (Sor.mkSwapInfo swapAmount best (Swap.paths best))
               /\ running_timers (Sor.trace r) = []
           | Err e => Sor.outcome r = Err e /\ running_timers (Sor.trace r) = ["bestPaths"]
           end).
Proof.
  intros r. subst r. rewrite getSwaps_unfold.
  split; [|split].
  - by intros e ->.
  - by intros pools e -> ->.
  - intros pools c -> ->. by destruct (getBestPaths c swapKind swapAmount).
Qed.

Lemma getSwaps_fail_fast_witness :
  let r := Sor.getSwaps (Err (Rejected "no pools")) Examples.router_candidates
             Examples.router_best Examples.tokA Examples.tokC GivenIn
             (Examples.amount Examples.tokA 5) in
  Sor.outcome r = Err (Rejected "no pools")
  /\ collaborator_calls (Sor.trace r) = [Sor.CallGetPools]
  /\ running_timers (Sor.trace r) = ["poolProvider"].
Proof.
  exact (proj1 (getSwaps_fail_fast (Err (Rejected "no pools")) Examples.router_candidates
                  Examples.router_best Examples.tokA Examples.tokC GivenIn
                  (Examples.amount Examples.tokA 5)) _ eq_refl).
Defined.

(** ** The edges and nodes of the built graph *)

Section PairIds.
Import PathGraph.

Lemma append_dash_inj (a a' b b' : string) :
  dash_free a = true -> dash_free a' = true ->
  a +:+ "-" +:+ b = a' +:+ "-" +:+ b' -> a = a' /\ b = b'.
Proof.
  revert a'. induction a as [|c a IH]; intros [|c' a']; simpl.
  - intros _ _ [= H]. by subst.
  - intros _ [Hc _]%andb_true_iff [= Hcc _]. subst c'. done.
  - intros [Hc _]%andb_true_iff _ [= Hcc _]. subst c. done.
  - intros [_ Ha]%andb_true_iff [_ Ha']%andb_true_iff [= Hcc H]. subst c'.
    destruct (IH a' Ha Ha' H) as [Ha1 Hb]. by subst.
Qed.

Lemma pair_id_inj (a b a' b' : Token) :
  dash_free (t_address a) = true -> dash_free (t_address a') = true ->
  pair_id a b = pair_id a' b' ->
  t_address a = t_address a' /\ t_address b = t_address b'.
Proof. apply append_dash_inj. Qed.
End PairIds.

Section BuiltGraph.
Import PathGraph Graphlib.

Lemma group_item_positions pools k items item :
  (k, items) ∈ buildSortedPoolPairMap pools -> item ∈ items ->
  exists p i j ti tj,
    p ∈ pools /\ i <> j /\ p_tokens p !! i = Some ti /\ p_tokens p !! j = Some tj
    /\ k = pair_id (ta_token ti) (ta_token tj)
    /\ item = item_of p (ta_token ti) (ta_token tj).
Proof.
  intros Hin Hitem.
  assert (in_group (buildSortedPoolPairMap pools) k item) as Hg by (by exists items).
  apply in_group_buildSortedPoolPairMap, in_group_collectPoolPairs in Hg
    as (p & [a b] & Hp & Hpair & Hadds).
  apply elem_of_ordered_pairs in Hpair as (i & j & Hij & Hi & Hj).
  rewrite list_lookup_fmap in Hi, Hj.
  destruct (p_tokens p !! i) as [ti|] eqn:Eti; [|done].
  destruct (p_tokens p !! j) as [tj|] eqn:Etj; [|done].
  simpl in Hi, Hj. injection Hi as <-. injection Hj as <-.
  destruct Hadds as [[-> ->] | [-> ->]]; simpl.
  - exists p, i, j, ti, tj. repeat (split; [done || lia|]). done.
  - exists p, j, i, tj, ti. repeat (split; [done || lia|]). done.
Qed.

Lemma setEdge_tight {L} (g : Graph L) e lbl : graph_tight g -> graph_tight (setEdge g e lbl).
Proof.
  intros Ht n. rewrite g_edges_setEdge, update_edge_keys. unfold setEdge.
  case_decide; simpl; [apply Ht|].
  rewrite !setNode_elem. intros [[Hn| ->]| ->].
  - destruct (Ht n Hn) as (e' & ? & ?). exists e'. split; [|done].
    apply elem_of_app. by left.
  - exists e. split; [|by left]. apply elem_of_app. right. by left.
  - exists e. split; [|by right]. apply elem_of_app. right. by left.
Qed.

Lemma addItem_tight pam maxPaths g x g' :
  graph_tight g -> addItem pam maxPaths g x = Ok g' -> graph_tight g'.
Proof.
  destruct x as [i item]. unfold addItem.
  destruct (pam !! p_address (pp_pool (poolPair item))) as [q|]; [|done].
  destruct (orb _ _); intros Ht [= <-]; [|done]. by apply setEdge_tight.
Qed.

Lemma buildGraph_tight pools maxPaths g :
  foldlM (addGroup (keyBy_address pools) maxPaths) empty (buildSortedPoolPairMap pools) = Ok g ->
  graph_tight g.
Proof.
  apply (foldlM_invariant graph_tight).
  - intros b [k items] b' _ Hb. unfold addGroup. simpl.
    apply (foldlM_invariant graph_tight); [|done].
    intros ???? ? ?. by eapply addItem_tight.
  - by intros n ?%elem_of_nil.
Qed.

(** What [buildGraph] returns, unfolded once and for all. *)
Lemma buildGraph_inv pools maxPathsPerTokenPair pg :
  buildGraph pools maxPathsPerTokenPair = Ok pg ->
  poolAddressMap pg = keyBy_address pools
  /\ graphIsInitialized pg = true
  /\ PathGraph.maxPathsPerTokenPair pg = default 2%Z maxPathsPerTokenPair
  /\ foldlM (addGroup (keyBy_address pools) (default 2%Z maxPathsPerTokenPair)) empty
       (buildSortedPoolPairMap pools) = Ok (graph pg)
  /\ build_inv pools (default 2%Z maxPathsPerTokenPair) (graph pg)
  /\ graph_tight (graph pg).
Proof.
  intros Hbuild.
  destruct (buildGraph_spec pools (default 2%Z maxPathsPerTokenPair))
    as (g & Hspec & Hfold & Hinv).
  assert (buildGraph pools maxPathsPerTokenPair
          = buildGraph pools (Some (default 2%Z maxPathsPerTokenPair))) as Heq
    by (by destruct maxPathsPerTokenPair).
  rewrite Heq, Hspec in Hbuild. injection Hbuild as <-. simpl.
  repeat (split; [done|]). by eapply buildGraph_tight.
Qed.

(** A kept pair joins two member tokens at different positions of its pool. *)
Lemma kept_from_positions pools maxPaths el p tIn tOut items i pool :
  kept_from pools maxPaths el p tIn tOut items i pool ->
  exists a b ta tb,
    a <> b /\ p_tokens p !! a = Some ta /\ p_tokens p !! b = Some tb
    /\ tIn = ta_token ta /\ tOut = ta_token tb.
Proof.
  intros (Hin & Hi & _).
  destruct (group_item_positions pools _ items _ Hin (list_elem_of_lookup_2 _ _ _ Hi))
    as (p' & a & b & ta & tb & _ & Hab & Ha & Hb & _ & Heq).
  unfold item_of in Heq. injection Heq as _ Hp HtI HtO _. subst. eauto 10.
Qed.
End BuiltGraph.

Section BuiltGraphFacts.
Import PathGraph Graphlib.

Lemma pair_in_group pools p i j ti tj :
  p ∈ pools -> i <> j -> p_tokens p !! i = Some ti -> p_tokens p !! j = Some tj ->
  in_group (buildSortedPoolPairMap pools) (pair_id (ta_token ti) (ta_token tj))
    (item_of p (ta_token ti) (ta_token tj)).
Proof.
  intros Hp Hij Hi Hj.
  apply in_group_buildSortedPoolPairMap, in_group_collectPoolPairs.
  assert ((ta_token <$> p_tokens p) !! i = Some (ta_token ti)) as Hi'
    by (by rewrite list_lookup_fmap, Hi).
  assert ((ta_token <$> p_tokens p) !! j = Some (ta_token tj)) as Hj'
    by (by rewrite list_lookup_fmap, Hj).
  destruct (decide (i < j)).
  - exists p, (ta_token ti, ta_token tj). split; [done|]. split.
    + apply elem_of_ordered_pairs. exists i, j. done.
    + by left.
  - exists p, (ta_token tj, ta_token ti). split; [done|]. split.
    + apply elem_of_ordered_pairs. exists j, i. split; [lia | done].
    + by right.
Qed.

(** A check of [plain_addresses] that can be computed. *)
Lemma plain_addresses_check (pools : list Pool) :
  forallb (fun p => forallb (fun t => bool_decide (t_address (ta_token t) <> "")
                                      && dash_free (t_address (ta_token t)))
                            (p_tokens p)) pools = true ->
  plain_addresses pools.
Proof.
  intros H p t Hp Ht.
  rewrite <- Is_true_true, forallb_True, Forall_forall in H.
  specialize (H p Hp). rewrite forallb_True, Forall_forall in H.
  specialize (H t Ht). apply Is_true_true, andb_true_iff in H as [H1 H2].
  by apply bool_decide_eq_true in H1.
Qed.

(** With at least one pair kept per group, the top pair of the group of
    two member tokens of a pool gives an edge between their addresses. *)
Lemma buildGraph_top_edge pools maxPaths g p i j ti tj :
  plain_addresses pools -> (1 <= maxPaths)%Z ->
  foldlM (addGroup (keyBy_address pools) maxPaths) empty (buildSortedPoolPairMap pools) = Ok g ->
  p ∈ pools -> i <> j -> p_tokens p !! i = Some ti -> p_tokens p !! j = Some tj ->
  exists e, e ∈ (g_edges g).*1
            /\ v e = t_address (ta_token ti) /\ w e = t_address (ta_token tj).
Proof.
  intros Hplain Hmax Hfold Hp Hij Hi Hj.
  destruct (pair_in_group pools p i j ti tj Hp Hij Hi Hj) as (items & Hin & Hitem).
  destruct items as [|item0 items']; [by apply elem_of_nil in Hitem|].
  destruct (group_item_positions pools _ _ item0 Hin) as
    (p' & i' & j' & ti' & tj' & Hp' & _ & Hi' & Hj' & Hk & ->); [by left|].
  destruct (keyBy_address_is_Some pools p' Hp') as [pool' Hpool'].
  apply pair_id_inj in Hk as [Ha Hb].
  2: { eapply Hplain; [exact Hp | by eapply list_elem_of_lookup_2]. }
  2: { eapply Hplain; [exact Hp' | by eapply list_elem_of_lookup_2]. }
  exists (edge_of pool' (ta_token ti') (ta_token tj')). split; [|by simpl].
  eapply (buildGraph_keeps pools maxPaths g p' _ _ (item_of p' (ta_token ti') (ta_token tj')
                                                     :: items') 0);
    [done | | done | done | left; lia].
  assert (pair_id (ta_token ti') (ta_token tj') = pair_id (ta_token ti) (ta_token tj)) as ->
    by (unfold pair_id; by rewrite Ha, Hb).
  done.
Qed.
End BuiltGraphFacts.

(** Every edge of the built graph joins the addresses of two member tokens
    at different positions of a pool of the snapshot.  Its name, its pool
    id, its liquidity and the pool of its pair are taken from the pool that
    is registered at that pool's address (the last pool of the snapshot with
    this address); it is flagged as a phantom hop exactly when one of its two
    ends is the address of a pool; and no two edges have the same ends and
    name.  The graph is marked as initialized and remembers
    [maxPathsPerTokenPair] (2 when omitted). *)
Theorem buildGraph_edges_sound (pools : list Pool) (maxPathsPerTokenPair : option Z)
    (pg : PathGraph.PathGraph) :
  PathGraph.buildGraph pools maxPathsPerTokenPair = Ok pg ->
  PathGraph.poolAddressMap pg = PathGraph.keyBy_address pools
  /\ PathGraph.graphIsInitialized pg = true
  /\ PathGraph.maxPathsPerTokenPair pg = default 2%Z maxPathsPerTokenPair
  /\ NoDup (Graphlib.g_edges (PathGraph.graph pg)).*1
  /\ forall e lbl,
       (e, lbl) ∈ Graphlib.g_edges (PathGraph.graph pg) ->
       exists p i j ti tj pool,
         p ∈ pools /\ i <> j
         /\ p_tokens p !! i = Some ti /\ p_tokens p !! j = Some tj
         /\ PathGraph.poolAddressMap pg !! p_address p = Some pool
         /\ e = Graphlib.mkEdgeObj (t_address (ta_token ti)) (t_address (ta_token tj))
                  (p_id pool +:+ "-" +:+ t_address (ta_token ti)
                   +:+ "-" +:+ t_address (ta_token tj))
         /\ PathGraph.poolId lbl = p_id pool
         /\ PathGraph.poolAddress lbl = p_address p
         /\ PathGraph.l_poolPair lbl
            = PathGraph.mkPoolTokenPair
                (t_address (ta_token ti) +:+ "-" +:+ t_address (ta_token tj))
                pool (ta_token ti) (ta_token tj)
         /\ PathGraph.normalizedLiquidity lbl
            = getNormalizedLiquidity pool (ta_token ti) (ta_token tj)
         /\ (PathGraph.isPhantomBptHop lbl = true
             <-> PathGraph.isPoolAddress pg (t_address (ta_token ti))
                 \/ PathGraph.isPoolAddress pg (t_address (ta_token tj))).
Proof.
  intros (Hpam & Hinit & Hmax & _ & [[Hnd _] Hkept] & _)%buildGraph_inv.
  repeat (split; [done|]).
  intros e lbl (p & tIn & tOut & items & i & pool & Hk)%Hkept.
  destruct (kept_from_positions _ _ _ _ _ _ _ _ _ Hk) as (a & b & ta & tb & Hab & Ha & Hb & -> & ->).
  destruct Hk as (_ & _ & Hp & _ & _ & Hpool & _ & [= -> ->]).
  exists p, a, b, ta, tb, pool. rewrite Hpam.
  repeat (split; [done|]).
  apply keyBy_address_lookup in Hpool as [_ Haddr].
  split; [done|]. split; [done|]. split; [done|].
  unfold PathGraph.isPoolAddress. rewrite Hpam. simpl.
  rewrite orb_true_iff, !bool_decide_eq_true. done.
Qed.

(** The nodes of the built graph are the ends of its edges: a token address
    is a node only if it belongs to a member token of a pool with at least
    two tokens.  When at least one pair is kept per group (and no address
    holds the separator of the group keys) the converse holds as well, and
    the ranking never disconnects two tokens of one pool: there is an edge
    from each member token to every other one. *)
Theorem buildGraph_nodes (pools : list Pool) (maxPathsPerTokenPair : option Z)
    (pg : PathGraph.PathGraph) :
  PathGraph.buildGraph pools maxPathsPerTokenPair = Ok pg ->
  (forall n, Graphlib.hasNode (PathGraph.graph pg) n = true ->
     tradable pools n
     /\ exists e, e ∈ (Graphlib.g_edges (PathGraph.graph pg)).*1
                  /\ (Graphlib.v e = n \/ Graphlib.w e = n))
  /\ (plain_addresses pools -> (1 <= default 2 maxPathsPerTokenPair)%Z ->
      (forall n, tradable pools n -> Graphlib.hasNode (PathGraph.graph pg) n = true)
      /\ forall p i j ti tj,
           p ∈ pools -> i <> j ->
           p_tokens p !! i = Some ti -> p_tokens p !! j = Some tj ->
           (exists e out,
              Graphlib.outEdges (PathGraph.graph pg) (t_address (ta_token ti))
                (t_address (ta_token tj)) = Some (e :: out))
           /\ exists succs,
                Graphlib.successors (PathGraph.graph pg) (t_address (ta_token ti)) = Some succs
                /\ t_address (ta_token tj) ∈ succs).
Proof.
  intros (Hpam & _ & _ & Hfold & [[Hnd Hcl] Hkept] & Htight)%buildGraph_inv.
  split.
  - intros n Hn%bool_decide_eq_true.
    destruct (Htight n Hn) as (e & He & Hend). split; [|eauto].
    apply list_elem_of_fmap in He as ([e' lbl] & -> & Hel). simpl in Hend.
    destruct (Hkept _ Hel) as (p & tIn & tOut & items & i & pool & Hk).
    destruct (kept_from_positions _ _ _ _ _ _ _ _ _ Hk)
      as (a & b & ta & tb & Hab & Ha & Hb & -> & ->).
    destruct Hk as (_ & _ & Hp & _ & _ & _ & _ & [= -> ->]). simpl in Hend.
    destruct Hend as [<-|<-].
    + exists p, a, b, ta, tb. done.
    + exists p, b, a, tb, ta. done.
  - intros Hplain Hmax.
    assert (forall p i j ti tj,
              p ∈ pools -> i <> j -> p_tokens p !! i = Some ti -> p_tokens p !! j = Some tj ->
              exists e, e ∈ (Graphlib.g_edges (PathGraph.graph pg)).*1
                        /\ Graphlib.v e = t_address (ta_token ti)
                        /\ Graphlib.w e = t_address (ta_token tj)) as Hedge
      by (intros; by eapply buildGraph_top_edge).
    split.
    + intros n (p & i & j & ti & tj & Hp & Hij & Hi & Hj & <-).
      destruct (Hedge p i j ti tj) as (e & He & <- & _); try done.
      apply bool_decide_eq_true. by apply Hcl.
    + intros p i j ti tj Hp Hij Hi Hj.
      destruct (Hedge p i j ti tj) as (e & He & Hv & Hw); try done.
      assert (Graphlib.hasNode (PathGraph.graph pg) (t_address (ta_token ti)) = true) as Hn
        by (apply bool_decide_eq_true; rewrite <- Hv; by apply Hcl).
      assert (t_address (ta_token tj) <> "") as Hne
        by (eapply Hplain; [exact Hp | by eapply list_elem_of_lookup_2]).
      split.
      * unfold Graphlib.outEdges. rewrite Hn, decide_False by done.
        match goal with |- exists e out, Some ?l = _ => destruct l as [|e0 out] eqn:E end.
        -- assert (e ∈ @nil Graphlib.EdgeObj) as []%elem_of_nil.
           rewrite <- E. apply list_elem_of_filter. split; [done|].
           by apply list_elem_of_filter.
        -- eauto.
      * unfold Graphlib.successors. rewrite Hn. eexists. split; [done|].
        apply elem_of_uniq, list_elem_of_fmap. exists e. split; [done|].
        by apply list_elem_of_filter.
Qed.

Lemma buildGraph_nodes_witness :
  exists pg,
    PathGraph.buildGraph [Examples.poolAB; Examples.poolAB2; Examples.poolBC] (Some 1%Z) = Ok pg
    /\ Graphlib.hasNode (PathGraph.graph pg) "0xC" = true.
Proof.
  destruct (PathGraph.buildGraph _ _) as [pg|e] eqn:E; [|vm_compute in E; discriminate].
  exists pg. split; [done|].
  apply (proj2 (buildGraph_nodes _ _ _ E)).
  - by apply plain_addresses_check.
  - simpl. lia.
  - exists Examples.poolBC, 1, 0, (Examples.amount Examples.tokC 1000),
      (Examples.amount Examples.tokB 1000).
    split; [set_solver | by repeat split].
Defined.

Lemma buildGraph_edges_sound_witness :
  exists pg,
    PathGraph.buildGraph [Examples.poolAB; Examples.poolP] None = Ok pg
    /\ NoDup (Graphlib.g_edges (PathGraph.graph pg)).*1.
Proof.
  destruct (PathGraph.buildGraph _ _) as [pg|e] eqn:E; [|vm_compute in E; discriminate].
  exists pg. split; [done|]. apply (buildGraph_edges_sound _ _ _ E).
Defined.

(** ** What the search collects *)

Section SearchStateInvariant.
Import PathGraph Graphlib.
Context (pg : PathGraph) (tIn tOut : Token) (config : PathGraphTraversalConfig).
Variable Inv : SearchState -> Prop.
Hypothesis Inv_found : forall s idx path,
  Inv s ->
  traverseGraphAndFindUniquePath (traversal_depth pg) pg (t_address tIn) (t_address tIn)
    (t_address tOut) [t_address tIn] idx config (seenPoolAddresses s) (selectedPathIds s)
  = Ok (Some path) ->
  Inv (mkSearchState (paths s ++ [path]) (selectedPathIds s ++ [getIdForPath path])
         (seenPoolAddresses s ++ ((fun segment => poolAddress (label segment)) <$> path))).
Hypothesis Inv_relax : forall s seen',
  Inv s -> Inv (mkSearchState (paths s) (selectedPathIds s) seen').

Lemma findPathsAtIndex_inv idx fuel : forall s s',
  Inv s -> findPathsAtIndex pg tIn tOut config fuel idx s = Ok s' -> Inv s'.
Proof.
  induction fuel as [|fuel IH]; intros s s' Hs; [done|]. cbn [findPathsAtIndex].
  intros ([path|] & Htr & Hrest)%result_bind_Ok; [|by injection Hrest as <-].
  eapply IH; [|exact Hrest]. by eapply Inv_found.
Qed.

Lemma searchRound_inv fuel s s' :
  Inv s -> searchRound pg tIn tOut config fuel s = Ok s' -> Inv s'.
Proof.
  unfold searchRound. apply (foldlM_invariant Inv).
  intros b idx b' _. apply findPathsAtIndex_inv.
Qed.

Lemma searchLoop_inv inner fuel : forall s s',
  Inv s -> searchLoop pg tIn tOut config fuel inner s = Ok s' -> Inv s'.
Proof.
  induction fuel as [|fuel IH]; intros s s' Hs; cbn [searchLoop].
  - case_bool_decide; [done|]. by intros [= <-].
  - case_bool_decide; [|by intros [= <-]].
    intros (s1 & Hround & Hrest)%result_bind_Ok.
    apply searchRound_inv in Hround; [|done].
    destruct (bool_decide _ && bool_decide _); [|by injection Hrest as <-].
    apply result_bind_Ok in Hrest as (seen' & _ & Hloop).
    eapply IH; [|exact Hloop]. by apply Inv_relax.
Qed.
End SearchStateInvariant.

Lemma removelast_lookup {A} (l : list A) i :
  S i < length l -> removelast l !! i = l !! i.
Proof.
  revert i. induction l as [|x [|y l] IH]; intros i Hi; simpl in *; try lia.
  destruct i as [|i]; [done|]. simpl. apply IH. lia.
Qed.

Section Collected.
Import PathGraph Graphlib.

(** An accepted path runs from [tokenIn] to [tokenOut]. *)
Lemma accepted_runs pg tIn tOut idx config seen selected path :
  graph_ok pg ->
  accepted pg tIn tOut idx config seen selected path ->
  exists tp, head tp = Some tIn /\ last tp = Some tOut /\ runs_along pg path tp.
Proof.
  intros Hok (tokenPath & Hnd & Hhd & Htl & Hnodes & HnotIn & HtOut & _ & Htp & Hloop & Hvalid).
  assert (tokenPath <> []) as Hne by (by destruct tokenPath).
  assert (Forall (fun x => x <> "") (tail (tokenPath ++ [tOut]))) as Htl'.
  { rewrite tail_snoc by done. apply Forall_app. split; [done|]. by constructor. }
  exists (tokenPath ++ [tOut]).
  split; [by destruct tokenPath|]. split; [apply last_snoc_Some|].
  pose proof Hloop as Hsegs%buildPath_loop_segments; [|done].
  apply buildPath_loop_spec in Hloop as (Hsok & Hlen & Hin & Hout);
    [|done|done|by destruct tokenPath].
  done.
Qed.

(** The object that is returned for a path that runs along [tp]. *)
Lemma toFoundPath_view pg path tp fp :
  runs_along pg path tp ->
  toFoundPath pg path = Ok fp ->
  tokenAddresses fp = tp
  /\ fp_pools fp = (fun s => Some (pp_pool (l_poolPair (label s)))) <$> path
  /\ tail (fp_tokens fp) = (fun s => pp_tokenOut (l_poolPair (label s))) <$> path.
Proof.
  intros (Hin & Hout & Hlen & Hsegs & _).
  destruct path as [|first rest] eqn:Hpath; [done|]. rewrite <- Hpath in *.
  unfold toFoundPath. rewrite Hpath at 1. intros [= <-].
  unfold tokenAddresses. cbn [fp_tokens fp_pools tail].
  split; [|split; [|done]].
  - rewrite fmap_cons, <- list_fmap_compose.
    assert ((t_address ∘ (fun segment => pp_tokenOut (l_poolPair (label segment)))) <$> path
            = tokenOut <$> path) as ->.
    { apply Forall_fmap_ext_1. eapply Forall_impl; [exact Hsegs|].
      by intros s (_ & -> & _). }
    rewrite Hout.
    assert (segment_ok pg first) as (Hfirst & _)
      by (rewrite Hpath in Hsegs; by inversion Hsegs).
    rewrite <- Hfirst.
    rewrite Hpath, fmap_cons in Hin. rewrite Hpath in Hlen.
    destruct tp as [|a [|b tp']]; simpl in *; try lia.
    by injection Hin as -> _.
  - apply Forall_fmap_ext_1. eapply Forall_impl; [exact Hsegs|].
    by intros s (_ & _ & _ & ?).
Qed.

(** The id of the returned object is the id of the path. *)
Lemma found_id_path pg path tp fp :
  runs_along pg path tp -> toFoundPath pg path = Ok fp -> found_id fp = getIdForPath path.
Proof.
  intros Hruns Hto.
  destruct (toFoundPath_view _ _ _ _ Hruns Hto) as (Htp & Hpools & _).
  destruct Hruns as (Hin & Hout & Hlen & Hsegs & _).
  unfold found_id, getIdForPath. f_equal. rewrite Htp, Hpools.
  apply list_eq. intros i. rewrite lookup_zip_with, !list_lookup_fmap.
  destruct (path !! i) as [s|] eqn:Hs; simpl; [|done].
  rewrite lookup_zip_with.
  assert (tp !! i = Some (tokenIn s)) as ->.
  { assert ((tokenIn <$> path) !! i = Some (tokenIn s)) as H
      by (by rewrite list_lookup_fmap, Hs).
    rewrite Hin in H. apply lookup_lt_Some in Hs.
    rewrite <- H. symmetry. apply removelast_lookup. lia. }
  assert (tail tp !! i = Some (tokenOut s)) as ->
    by (by rewrite <- Hout, list_lookup_fmap, Hs).
  simpl. unfold segment_id.
  rewrite Forall_forall in Hsegs.
  destruct (Hsegs s) as (_ & _ & -> & _); [by eapply list_elem_of_lookup_2|]. done.
Qed.
End Collected.

Section SearchCollects.
Import PathGraph Graphlib.

Lemma searchLoop_collected pg tIn tOut config inner fuel s s' :
  graph_ok pg -> hasNode (graph pg) (t_address tIn) = true ->
  collected pg (t_address tIn) (t_address tOut) config s ->
  searchLoop pg tIn tOut config fuel inner s = Ok s' ->
  collected pg (t_address tIn) (t_address tOut) config s'.
Proof.
  intros Hok HtIn. apply searchLoop_inv.
  - intros s0 idx path (Hsel & Hnd & Hall) Htr.
    apply found_accepted in Htr; [|done|done].
    split; [|split]; cbn [paths selectedPathIds].
    + by rewrite fmap_app, Hsel.
    + apply NoDup_app. split; [done|]. split; [|apply NoDup_singleton].
      intros x Hx ->%list_elem_of_singleton.
      destruct Htr as (tokenPath & Htr). destruct Htr as (_ & _ & _ & _ & _ & _ & _ & _ & _ & Hv).
      by eapply isValidPath_fresh.
    + apply Forall_app. split; [done|]. constructor; [|done]. by eexists _, _, _.
  - by intros s0 seen' (? & ? & ?).
Qed.

(** What the search returns is made of accepted paths with different ids. *)
Lemma search_found pg tIn tOut pathConfig fuel found :
  graph_ok pg ->
  traverseGraphAndFindBestPaths fuel pg tIn tOut pathConfig = Ok found ->
  exists ps,
    mapM (toFoundPath pg) ps = Ok found
    /\ NoDup (getIdForPath <$> ps)
    /\ Forall (selected_by pg (t_address tIn) (t_address tOut) (applyDefaults pathConfig)) ps.
Proof.
  intros Hok. unfold traverseGraphAndFindBestPaths.
  destruct (hasNode (graph pg) (t_address tIn)) eqn:HtIn; simpl.
  2: { intros [= <-]. exists []. repeat split; constructor. }
  destruct (negb _).
  { intros [= <-]. exists []. repeat split; constructor. }
  intros (s & Hloop & Hmap)%result_bind_Ok.
  apply searchLoop_collected in Hloop as (Hsel & Hnd & Hall); [|done|done|].
  - exists (paths s). rewrite <- Hsel. done.
  - repeat split; constructor.
Qed.

Lemma findPaths_found pools maxPathsPerTokenPair fuel tIn tOut pathConfig found :
  valid_addresses pools ->
  findPaths pools maxPathsPerTokenPair fuel tIn tOut pathConfig = Ok found ->
  exists pg ps,
    buildGraph pools maxPathsPerTokenPair = Ok pg
    /\ graph_ok pg
    /\ mapM (toFoundPath pg) ps = Ok found
    /\ NoDup (getIdForPath <$> ps)
    /\ Forall (selected_by pg (t_address tIn) (t_address tOut) (applyDefaults pathConfig)) ps.
Proof.
  intros Hvalid. unfold findPaths.
  intros (pg & Hbuild & Hsearch)%result_bind_Ok.
  pose proof (buildGraph_ok _ _ _ Hvalid Hbuild) as Hok.
  destruct (search_found _ _ _ _ _ _ Hok Hsearch) as (ps & ? & ? & ?).
  by exists pg, ps.
Qed.

(** The returned object of each collected path, with the token addresses
    along which the path runs. *)
Lemma found_path_runs pg tIn tOut config ps found fp :
  graph_ok pg ->
  mapM (toFoundPath pg) ps = Ok found ->
  Forall (selected_by pg tIn tOut config) ps ->
  fp ∈ found ->
  exists path idx seen selected,
    path ∈ ps /\ toFoundPath pg path = Ok fp
    /\ accepted pg tIn tOut idx config seen selected path
    /\ head (tokenAddresses fp) = Some tIn
    /\ last (tokenAddresses fp) = Some tOut
    /\ runs_along pg path (tokenAddresses fp).
Proof.
  intros Hok Hmap%mapM_result_Ok Hall [i Hi]%list_elem_of_lookup.
  destruct (Forall2_lookup_r _ _ _ _ _ Hmap Hi) as (path & Hpath & Hto).
  apply list_elem_of_lookup_2 in Hpath. rewrite Forall_forall in Hall.
  destruct (Hall path Hpath) as (idx & seen & selected & Hacc).
  destruct (accepted_runs _ _ _ _ _ _ _ _ Hok Hacc) as (tp & Hhd & Hlast & Hruns).
  destruct (toFoundPath_view _ _ _ _ Hruns Hto) as (Htp & _).
  exists path, idx, seen, selected. by rewrite Htp.
Qed.

(** The pool and the two tokens of a segment that is an edge of the built
    graph. *)
Lemma built_segment pools maxPathsPerTokenPair pg s :
  buildGraph pools maxPathsPerTokenPair = Ok pg ->
  s ∈ segment_of <$> g_edges (graph pg) ->
  exists p i j ti tj,
    p ∈ pools /\ i <> j /\ p_tokens p !! i = Some ti /\ p_tokens p !! j = Some tj
    /\ pp_pool (l_poolPair (label s)) ∈ pools
    /\ p_address (pp_pool (l_poolPair (label s))) = p_address p
    /\ keyBy_address pools !! p_address p = Some (pp_pool (l_poolPair (label s)))
    /\ tokenIn s = t_address (ta_token ti)
    /\ pp_tokenOut (l_poolPair (label s)) = ta_token tj.
Proof.
  intros (_ & _ & _ & _ & [_ Hkept] & _)%buildGraph_inv
         ([e lbl] & -> & (p & tIn & tOut & items & i & pool & Hk)%Hkept)%list_elem_of_fmap.
  destruct (kept_from_positions _ _ _ _ _ _ _ _ _ Hk)
    as (a & b & ta & tb & Hab & Ha & Hb & -> & ->).
  destruct Hk as (_ & _ & Hp & _ & _ & Hpool & _ & [= -> ->]).
  exists p, a, b, ta, tb. simpl.
  destruct (keyBy_address_lookup _ _ _ Hpool) as [? ?]. done.
Qed.
End SearchCollects.

(** Every path that [findPaths] returns leads from the address of
    [tokenIn] to the address of [tokenOut] through pools of the snapshot:
    the pool of each hop is the pool of the snapshot that is registered at
    its address, and the tokens on the two sides of the hop are member
    tokens at different positions of a pool of the snapshot with that
    address (the returned token after the hop is that member token itself,
    the one before it has the address of the other). *)
Theorem found_paths_connect (pools : list Pool) (maxPathsPerTokenPair : option Z)
    (fuel : nat) (tIn tOut : Token) (pathConfig : PathGraph.PartialConfig)
    (found : list PathGraph.FoundPath) :
  valid_addresses pools ->
  findPaths pools maxPathsPerTokenPair fuel tIn tOut pathConfig = Ok found ->
  forall fp, fp ∈ found ->
    head (tokenAddresses fp) = Some (t_address tIn)
    /\ last (tokenAddresses fp) = Some (t_address tOut)
    /\ forall h pool,
         PathGraph.fp_pools fp !! h = Some (Some pool) ->
         exists p i j ti tj,
           p ∈ pools /\ i <> j
           /\ p_tokens p !! i = Some ti /\ p_tokens p !! j = Some tj
           /\ pool ∈ pools /\ p_address pool = p_address p
           /\ PathGraph.keyBy_address pools !! p_address p = Some pool
           /\ tokenAddresses fp !! h = Some (t_address (ta_token ti))
           /\ PathGraph.fp_tokens fp !! S h = Some (ta_token tj).
Proof.
  intros Hvalid Hfind fp Hfp.
  destruct (findPaths_found _ _ _ _ _ _ _ Hvalid Hfind) as (pg & ps & Hbuild & Hok & Hmap & _ & Hall).
  destruct (found_path_runs _ _ _ _ _ _ _ Hok Hmap Hall Hfp)
    as (path & idx & seen & selected & _ & Hto & _ & Hhd & Hlast & Hruns).
  split; [done|]. split; [done|].
  intros h pool Hh.
  destruct (toFoundPath_view _ _ _ _ Hruns Hto) as (_ & Hpools & Htail).
  destruct Hruns as (Hin & _ & Hlen & _ & Hedges).
  rewrite Hpools, list_lookup_fmap in Hh.
  destruct (path !! h) as [s|] eqn:Hs; [|done]. simpl in Hh. injection Hh as <-.
  rewrite Forall_forall in Hedges.
  destruct (built_segment _ _ _ s Hbuild) as
    (p & i & j & ti & tj & Hp & Hij & Hi & Hj & Hpool & Haddr & Hreg & Htin & Htout);
    [by eapply Hedges, list_elem_of_lookup_2|].
  exists p, i, j, ti, tj. repeat (split; [done|]). split.
  - assert ((PathGraph.tokenIn <$> path) !! h = Some (PathGraph.tokenIn s)) as H
      by (by rewrite list_lookup_fmap, Hs).
    rewrite Hin in H. apply lookup_lt_Some in Hs.
    rewrite removelast_lookup in H by lia. by rewrite H, Htin.
  - rewrite <- tail_lookup, Htail, list_lookup_fmap, Hs. simpl. by rewrite Htout.
Qed.

Lemma found_paths_connect_witness :
  exists found,
    findPaths [Examples.poolAB; Examples.poolBC] None 10
      Examples.tokA Examples.tokC Examples.defaultConfig = Ok found
    /\ forall fp, fp ∈ found ->
         head (tokenAddresses fp) = Some "0xA" /\ last (tokenAddresses fp) = Some "0xC".
Proof.
  destruct (findPaths [Examples.poolAB; Examples.poolBC] None 10
              Examples.tokA Examples.tokC Examples.defaultConfig) as [found|e] eqn:E;
    [|vm_compute in E; discriminate].
  exists found. split; [done|]. intros fp Hfp.
  assert (valid_addresses [Examples.poolAB; Examples.poolBC]) as Hvalid
    by (apply valid_addresses_Forall; repeat constructor; discriminate).
  destruct (found_paths_connect _ _ _ _ _ _ found Hvalid E fp Hfp) as (? & ? & _).
  done.
Defined.

(** [findPaths] returns no path twice: the returned paths have pairwise
    different ids (pool ids and token addresses). *)
Theorem found_paths_distinct (pools : list Pool) (maxPathsPerTokenPair : option Z)
    (fuel : nat) (tIn tOut : Token) (pathConfig : PathGraph.PartialConfig)
    (found : list PathGraph.FoundPath) :
  valid_addresses pools ->
  findPaths pools maxPathsPerTokenPair fuel tIn tOut pathConfig = Ok found ->
  NoDup (found_id <$> found) /\ NoDup found.
Proof.
  intros Hvalid Hfind.
  destruct (findPaths_found _ _ _ _ _ _ _ Hvalid Hfind) as (pg & ps & Hbuild & Hok & Hmap & Hnd & Hall).
  assert (NoDup (found_id <$> found)) as H; [|split; [done | by eapply NoDup_fmap_1]].
  assert (found_id <$> found = PathGraph.getIdForPath <$> ps) as ->; [|done].
  apply mapM_result_Ok in Hmap. rewrite Forall_forall in Hall.
  symmetry. apply Forall2_fmap_eq, Forall2_same_length_lookup.
  split; [by eapply Forall2_length|].
  intros i path fp Hpath Hfp.
  destruct (Forall2_lookup_l _ _ _ _ _ Hmap Hpath) as (fp' & Hfp' & Hto).
  assert (fp' = fp) as -> by congruence.
  destruct (Hall path) as (idx & seen & selected & Hacc); [by eapply list_elem_of_lookup_2|].
  destruct (accepted_runs _ _ _ _ _ _ _ _ Hok Hacc) as (tp & _ & _ & Hruns).
  symmetry. by eapply found_id_path.
Qed.

Lemma found_paths_distinct_witness :
  exists found,
    findPaths [Examples.poolAB; Examples.poolAB2; Examples.poolBC] None 10
      Examples.tokA Examples.tokC Examples.defaultConfig = Ok found
    /\ found_id <$> found = ["id-AB-0xA-0xB_id-BC-0xB-0xC"; "id-AB2-0xA-0xB_id-BC-0xB-0xC"]
    /\ NoDup found.
Proof.
  destruct (findPaths [Examples.poolAB; Examples.poolAB2; Examples.poolBC] None 10
              Examples.tokA Examples.tokC Examples.defaultConfig) as [found|e] eqn:E;
    [|vm_compute in E; discriminate].
  exists found. split; [done|]. split.
  - vm_compute in E. by injection E as <-.
  - eapply found_paths_distinct; [|exact E].
    apply valid_addresses_Forall. repeat constructor; discriminate.
Defined.

(** When [poolIdsToInclude] is given, every pool of every returned path has
    its id in that list. *)
Theorem found_paths_use_included_pools (pools : list Pool)
    (maxPathsPerTokenPair : option Z) (fuel : nat) (tIn tOut : Token)
    (pathConfig : PathGraph.PartialConfig) (ids : list string)
    (found : list PathGraph.FoundPath) :
  valid_addresses pools ->
  PathGraph.o_poolIdsToInclude pathConfig = Some ids ->
  findPaths pools maxPathsPerTokenPair fuel tIn tOut pathConfig = Ok found ->
  forall fp pool, fp ∈ found -> Some pool ∈ PathGraph.fp_pools fp -> p_id pool ∈ ids.
Proof.
  intros Hvalid Hids Hfind fp pool Hfp.
  destruct (findPaths_found _ _ _ _ _ _ _ Hvalid Hfind) as (pg & ps & Hbuild & Hok & Hmap & _ & Hall).
  destruct (found_path_runs _ _ _ _ _ _ _ Hok Hmap Hall Hfp)
    as (path & idx & seen & selected & _ & Hto & Hacc & _ & _ & Hruns).
  destruct (toFoundPath_view _ _ _ _ Hruns Hto) as (_ & -> & _).
  intros (s & [= ->] & Hs)%list_elem_of_fmap.
  destruct Hruns as (_ & _ & _ & Hsegs & _). rewrite Forall_forall in Hsegs.
  destruct (Hsegs s Hs) as (_ & _ & <- & _).
  destruct Hacc as (tokenPath & Hacc).
  destruct Hacc as (_ & _ & _ & _ & _ & _ & _ & _ & _ & Hv).
  unfold PathGraph.isValidPath in Hv. cbn [PathGraph.applyDefaults PathGraph.poolIdsToInclude] in Hv.
  rewrite Hids in Hv.
  destruct (forallb _ path) eqn:Hall'; [|done].
  rewrite <- Is_true_true, forallb_True, Forall_forall in Hall'.
  specialize (Hall' s Hs). by apply bool_decide_unpack in Hall'.
Qed.

Lemma found_paths_use_included_pools_witness :
  exists found,
    findPaths [Examples.poolAB; Examples.poolAB2; Examples.poolBC] None 10
      Examples.tokA Examples.tokC
      (PathGraph.mkPartialConfig None None None None (Some ["id-AB2"; "id-BC"])) = Ok found
    /\ length found = 1
    /\ forall fp pool, fp ∈ found -> Some pool ∈ PathGraph.fp_pools fp ->
         p_id pool ∈ ["id-AB2"; "id-BC"].
Proof.
  destruct (findPaths [Examples.poolAB; Examples.poolAB2; Examples.poolBC] None 10
              Examples.tokA Examples.tokC _) as [found|e] eqn:E;
    [|vm_compute in E; discriminate].
  exists found. split; [done|]. split.
  - vm_compute in E. by injection E as <-.
  - eapply found_paths_use_included_pools; [| |exact E]; [|done].
    apply valid_addresses_Forall. repeat constructor; discriminate.
Defined.

(** ** Requests that cannot have a route *)

Section NoRoute.
Import PathGraph Graphlib.

Lemma hasNode_tradable pools maxPathsPerTokenPair pg n :
  buildGraph pools maxPathsPerTokenPair = Ok pg ->
  hasNode (graph pg) n = true -> tradable pools n.
Proof.
  intros (_ & _ & _ & _ & [_ Hkept] & Htight)%buildGraph_inv Hn%bool_decide_eq_true.
  destruct (Htight n Hn) as (e & He & Hend).
  apply list_elem_of_fmap in He as ([e' lbl] & -> & Hel). simpl in Hend.
  destruct (Hkept _ Hel) as (p & tIn & tOut & items & i & pool & Hk).
  destruct (kept_from_positions _ _ _ _ _ _ _ _ _ Hk)
    as (a & b & ta & tb & Hab & Ha & Hb & -> & ->).
  destruct Hk as (_ & _ & Hp & _ & _ & _ & _ & [= -> ->]). simpl in Hend.
  destruct Hend as [<-|<-].
  - exists p, a, b, ta, tb. done.
  - exists p, b, a, tb, ta. done.
Qed.

Lemma buildGraph_returns pools maxPathsPerTokenPair :
  exists pg, buildGraph pools maxPathsPerTokenPair = Ok pg.
Proof.
  destruct (buildGraph_spec pools (default 2%Z maxPathsPerTokenPair)) as (g & Hspec & _).
  eexists. rewrite <- Hspec. by destruct maxPathsPerTokenPair.
Qed.

(** A round that finds nothing with no pool seen ends the search. *)
Lemma searchLoop_idle pg tIn tOut config fuel inner s :
  searchRound pg tIn tOut config inner s = Ok s ->
  seenPoolAddresses s = [] ->
  searchLoop pg tIn tOut config (S fuel) inner s = Ok s.
Proof.
  intros Hround Hseen. cbn [searchLoop]. case_bool_decide; [|done].
  rewrite Hround. simpl. rewrite Hseen. simpl. by rewrite andb_false_r.
Qed.

Lemma searchRound_idle pg tIn tOut config inner s :
  (forall idx, findPathsAtIndex pg tIn tOut config inner idx s = Ok s) ->
  searchRound pg tIn tOut config inner s = Ok s.
Proof.
  intros H. unfold searchRound.
  induction (seq 0 (Z.to_nat (maxPathsPerTokenPair pg))) as [|idx l IH]; simpl; [done|].
  by rewrite H.
Qed.

(** From a token to itself the traversal finds nothing. *)
Lemma traverse_same_token pg tIn tOut idx config seen selected :
  graph_ok pg -> hasNode (graph pg) (t_address tIn) = true ->
  t_address tIn = t_address tOut ->
  traverseGraphAndFindUniquePath (traversal_depth pg) pg (t_address tIn) (t_address tIn)
    (t_address tOut) [t_address tIn] idx config seen selected = Ok None.
Proof.
  intros Hok HtIn Heq.
  destruct (traverse_total pg (t_address tIn) (t_address tOut) idx config seen selected Hok
              (traversal_depth pg) (t_address tIn) [t_address tIn]) as [r Hr].
  { apply NoDup_singleton. }
  { intros x ->%list_elem_of_singleton. by apply bool_decide_eq_true in HtIn. }
  { apply linked_singleton. }
  { done. }
  { unfold traversal_depth. simpl. lia. }
  destruct r as [path|]; [|done]. exfalso.
  apply found_accepted in Hr; [|done|done].
  destruct Hr as (tokenPath & _ & Hhd & _ & _ & HnotIn & _).
  apply HnotIn. rewrite <- Heq. destruct tokenPath; [done|].
  injection Hhd as ->. by left.
Qed.
End NoRoute.

(** [findPaths] returns the empty list, and neither fails nor rejects the
    request, when one of the two tokens is not traded by the snapshot (its
    address belongs to no member token of a pool with at least two tokens;
    in particular when the snapshot is empty), and when [tokenIn] and
    [tokenOut] have the same address. *)
Theorem findPaths_without_route (pools : list Pool) (maxPathsPerTokenPair : option Z)
    (tIn tOut : Token) (pathConfig : PathGraph.PartialConfig) :
  (~ tradable pools (t_address tIn) \/ ~ tradable pools (t_address tOut) ->
   forall fuel, findPaths pools maxPathsPerTokenPair fuel tIn tOut pathConfig = Ok [])
  /\ (valid_addresses pools -> t_address tIn = t_address tOut ->
      forall fuel, 1 <= fuel ->
        findPaths pools maxPathsPerTokenPair fuel tIn tOut pathConfig = Ok []).
Proof.
  destruct (buildGraph_returns pools maxPathsPerTokenPair) as [pg Hbuild].
  unfold findPaths. rewrite Hbuild. simpl.
  unfold PathGraph.traverseGraphAndFindBestPaths. split.
  - intros Hno fuel.
    destruct (Graphlib.hasNode _ (t_address tIn)) eqn:HtIn; simpl; [|done].
    destruct (Graphlib.hasNode _ (t_address tOut)) eqn:HtOut; simpl; [|done].
    apply (hasNode_tradable _ _ _ _ Hbuild) in HtIn, HtOut. tauto.
  - intros Hvalid Heq fuel Hfuel.
    destruct (Graphlib.hasNode _ (t_address tIn)) eqn:HtIn; simpl; [|done].
    destruct (negb _); [done|].
    pose proof (buildGraph_ok _ _ _ Hvalid Hbuild) as Hok.
    destruct fuel as [|fuel]; [lia|].
    rewrite searchLoop_idle; [done| |done].
    apply searchRound_idle. intros idx. cbn [PathGraph.findPathsAtIndex].
    by rewrite traverse_same_token.
Qed.

Lemma findPaths_without_route_witness :
  findPaths [] None 0 Examples.tokA Examples.tokB Examples.defaultConfig = Ok []
  /\ findPaths [Examples.poolAB; Examples.poolBC] None 1 Examples.tokA Examples.tokA
       Examples.defaultConfig = Ok [].
Proof.
  split.
  - apply (proj1 (findPaths_without_route [] None Examples.tokA Examples.tokB
                   Examples.defaultConfig)).
    left. intros (p & ? & ? & ? & ? & Hp & _). by apply elem_of_nil in Hp.
  - apply (proj2 (findPaths_without_route [Examples.poolAB; Examples.poolBC] None
                   Examples.tokA Examples.tokA Examples.defaultConfig)); [|done|lia].
    apply valid_addresses_Forall. repeat constructor; discriminate.
Defined.



(** ** Two tokens of one pool *)

Section DirectPair.
Import PathGraph Graphlib.

(** The first step of the traversal when [tokenOut] is a successor of
    [tokenIn] and the single hop passes the checks. *)
Lemma traverse_direct pg a b config fuel e out lbl :
  isValidTokenPath pg [a] config a b = true ->
  b ∈ filter (fun successor => successor ∉ [a]) (default [] (successors (graph pg) a)) ->
  outEdges (graph pg) a b = Some (e :: out) ->
  edge (graph pg) e = Some lbl ->
  isValidPath pg [mkPathGraphEdge a b lbl] [] [] config = true ->
  traverseGraphAndFindUniquePath (S fuel) pg a a b [a] 0 config [] []
  = Ok (Some [mkPathGraphEdge a b lbl]).
Proof.
  intros Htp Hsucc Hout Hlbl Hvalid. cbn [traverseGraphAndFindUniquePath].
  rewrite Htp. cbn [negb]. cbv iota.
  rewrite bool_decide_eq_true_2 by done.
  unfold buildPath. cbn [app buildPath_loop]. rewrite Hout.
  change (default [] (Some (e :: out))) with (e :: out).
  rewrite decide_True by (simpl; lia).
  change ((e :: out) !! 0) with (Some e). cbn [from_option].
  rewrite Hlbl. simpl. by rewrite Hvalid.
Qed.

Lemma single_hop_checks pg a b lbl config :
  admits_single_hop config -> a <> b ->
  isValidTokenPath pg [a] config a b = true
  /\ isValidPath pg [mkPathGraphEdge a b lbl] [] [] config = true.
Proof.
  intros (Hids & Hdepth & Hplain & Hhops & _) Hab. split.
  - unfold isValidTokenPath.
    assert (filter (fun token => token <> a /\ token <> b) [a] = []) as ->
      by (rewrite filter_cons, decide_False; [done | by intros [? _]]).
    rewrite filter_nil. cbn [length].
    rewrite (bool_decide_eq_false_2 (maxDepth config < _)%Z) by (simpl; lia).
    rewrite !(bool_decide_eq_false_2 (maxNonBoostedHopTokensInBoostedPath config < _)%Z)
      by (simpl; lia).
    by rewrite !andb_false_r.
  - unfold isValidPath. rewrite Hids. cbn [length].
    rewrite (bool_decide_eq_false_2 (maxNonBoostedPathDepth config < _)%Z) by lia.
    rewrite andb_false_r. simpl. done.
Qed.

(** The loops only append to the paths they have collected. *)
Lemma searchLoop_prefix pg tIn tOut config inner fuel l s s' :
  l `prefix_of` paths s ->
  searchLoop pg tIn tOut config fuel inner s = Ok s' ->
  l `prefix_of` paths s'.
Proof.
  apply (searchLoop_inv pg tIn tOut config (fun s => l `prefix_of` paths s)).
  - intros s0 idx path H _. simpl. by apply prefix_app_r.
  - done.
Qed.

Lemma searchRound_prefix pg tIn tOut config inner l s s' :
  l `prefix_of` paths s ->
  searchRound pg tIn tOut config inner s = Ok s' ->
  l `prefix_of` paths s'.
Proof.
  apply (searchRound_inv pg tIn tOut config (fun s => l `prefix_of` paths s)).
  intros s0 idx path H _. simpl. by apply prefix_app_r.
Qed.

Lemma findPathsAtIndex_prefix pg tIn tOut config inner idx l s s' :
  l `prefix_of` paths s ->
  findPathsAtIndex pg tIn tOut config inner idx s = Ok s' ->
  l `prefix_of` paths s'.
Proof.
  apply (findPathsAtIndex_inv pg tIn tOut config (fun s => l `prefix_of` paths s)).
  intros s0 idx' path H _. simpl. by apply prefix_app_r.
Qed.

(** When the first traversal finds a path, it is the first of the
    collected paths. *)
Lemma searchLoop_first pg tIn tOut config fuel inner path s :
  (1 <= approxPathsToReturn config)%Z ->
  (1 <= maxPathsPerTokenPair pg)%Z ->
  traverseGraphAndFindUniquePath (traversal_depth pg) pg (t_address tIn) (t_address tIn)
    (t_address tOut) [t_address tIn] 0 config [] [] = Ok (Some path) ->
  searchLoop pg tIn tOut config fuel inner (mkSearchState [] [] []) = Ok s ->
  [path] `prefix_of` paths s.
Proof.
  intros Happrox Hmax Htr. destruct fuel as [|fuel]; cbn [searchLoop paths length].
  { case_bool_decide; [done | simpl in *; lia]. }
  case_bool_decide; [|simpl in *; lia].
  intros (s1 & Hround & Hrest)%result_bind_Ok.
  assert ([path] `prefix_of` paths s1) as H1.
  { unfold searchRound in Hround.
    destruct (Z.to_nat (maxPathsPerTokenPair pg)) as [|k] eqn:Ek; [lia|].
    cbn [seq foldlM] in Hround.
    apply result_bind_Ok in Hround as (sA & HA & Hfold).
    assert ([path] `prefix_of` paths sA) as HpA.
    { destruct inner as [|inner]; [done|]. cbn [findPathsAtIndex] in HA.
      cbn [seenPoolAddresses selectedPathIds] in HA. rewrite Htr in HA. simpl in HA.
      by eapply findPathsAtIndex_prefix; [|exact HA]. }
    eapply (foldlM_invariant (fun s => [path] `prefix_of` paths s)); [|exact HpA|exact Hfold].
    intros b idx b' _ Hb Hf. simpl in Hf. eapply findPathsAtIndex_prefix; [exact Hb | exact Hf]. }
  destruct (bool_decide _ && bool_decide _); [|by injection Hrest as <-].
  apply result_bind_Ok in Hrest as (seen' & _ & Hloop).
  by eapply searchLoop_prefix; [|exact Hloop].
Qed.
End DirectPair.

Lemma plain_addresses_valid (pools : list Pool) : plain_addresses pools -> valid_addresses pools.
Proof. intros H p t Hp Ht. by destruct (H p t Hp Ht). Qed.

(** Two tokens of one pool are always connected by the search: when the
    snapshot has a pool with [tokenIn] and [tokenOut] among its member
    tokens (at different positions and with different addresses), at least
    one pair is kept per group and the configuration admits paths over a
    single pool, [findPaths] returns at least one path, and the first path
    it returns is the direct one: the two tokens and a single pool of the
    snapshot. *)
Theorem findPaths_direct_pair (pools : list Pool) (maxPathsPerTokenPair : option Z)
    (tIn tOut : Token) (pathConfig : PathGraph.PartialConfig) :
  plain_addresses pools ->
  (1 <= default 2 maxPathsPerTokenPair)%Z ->
  admits_single_hop (PathGraph.applyDefaults pathConfig) ->
  share_pool pools (t_address tIn) (t_address tOut) ->
  t_address tIn <> t_address tOut ->
  exists n fp rest,
    (forall fuel, n <= fuel ->
       findPaths pools maxPathsPerTokenPair fuel tIn tOut pathConfig = Ok (fp :: rest))
    /\ tokenAddresses fp = [t_address tIn; t_address tOut]
    /\ exists pool, PathGraph.fp_pools fp = [Some pool] /\ pool ∈ pools.
Proof.
  intros Hplain Hmax Hcfg (p & i & j & ti & tj & Hp & Hij & Hi & Hj & Ha & Hb) Hab.
  pose proof (plain_addresses_valid _ Hplain) as Hvalid.
  destruct (buildGraph_returns pools maxPathsPerTokenPair) as [pg Hbuild].
  pose proof (buildGraph_ok _ _ _ Hvalid Hbuild) as Hok.
  destruct (buildGraph_inv _ _ _ Hbuild) as (Hpam & _ & Hmaxp & Hfold & _ & _).
  destruct (buildGraph_top_edge pools _ _ p i j ti tj Hplain Hmax Hfold Hp Hij Hi Hj)
    as (e0 & He0 & Hv0 & Hw0).
  rewrite Ha in Hv0. rewrite Hb in Hw0.
  pose proof Hok as [[_ Hcl] Hlbl].
  destruct (Hcl e0 He0) as [HnIn HnOut]. rewrite Hv0 in HnIn. rewrite Hw0 in HnOut.
  assert (Graphlib.hasNode (PathGraph.graph pg) (t_address tIn) = true) as HtIn
    by (by apply bool_decide_eq_true).
  assert (Graphlib.hasNode (PathGraph.graph pg) (t_address tOut) = true) as HtOut
    by (by apply bool_decide_eq_true).
  assert (t_address tOut <> "") as Hne.
  { rewrite <- Hb. eapply Hplain; [exact Hp | by eapply list_elem_of_lookup_2]. }
  (* the successors and the edges between the two tokens *)
  assert (t_address tOut ∈ filter (fun successor => successor ∉ [t_address tIn])
            (default [] (Graphlib.successors (PathGraph.graph pg) (t_address tIn)))) as Hsucc.
  { apply list_elem_of_filter. split; [intros Heq%list_elem_of_singleton; by apply Hab|].
    unfold Graphlib.successors. rewrite HtIn. simpl.
    apply elem_of_uniq, list_elem_of_fmap. exists e0. split; [done|].
    by apply list_elem_of_filter. }
  assert (exists e out, Graphlib.outEdges (PathGraph.graph pg) (t_address tIn) (t_address tOut)
                        = Some (e :: out)) as (e & out & Hout).
  { unfold Graphlib.outEdges. rewrite HtIn, decide_False by done.
    match goal with |- exists e out, Some ?l = _ => destruct l as [|e1 out] eqn:E end; [|eauto].
    assert (e0 ∈ @nil Graphlib.EdgeObj) as []%elem_of_nil.
    rewrite <- E. apply list_elem_of_filter. split; [done|]. by apply list_elem_of_filter. }
  destruct (outEdges_elem _ _ _ _ e Hout Hne) as (He & Hv & Hw); [by left|].
  destruct (edge_label_is_Some e _ He) as [lbl Hedge].
  pose proof (edge_label_Some _ _ _ Hedge) as Hel.
  destruct (Hlbl _ _ Hel) as (Hlv & Hlw & _ & _ & Hreg).
  destruct (single_hop_checks pg (t_address tIn) (t_address tOut) lbl _ Hcfg Hab)
    as [Htp Hvp].
  pose proof (traverse_direct pg _ _ _ (length (Graphlib.g_nodes (PathGraph.graph pg)))
                e out lbl Htp Hsucc Hout Hedge Hvp) as Htr.
  (* the search returns, and its first path is the direct one *)
  destruct (traverseGraphAndFindBestPaths_total pg tIn tOut pathConfig Hok) as [found Hfound].
  pose proof (Hfound (search_fuel pg) (le_n _)) as Hrun.
  unfold PathGraph.traverseGraphAndFindBestPaths in Hrun.
  rewrite HtIn, HtOut in Hrun. simpl in Hrun.
  apply result_bind_Ok in Hrun as (s & Hloop & Hmap).
  apply searchLoop_first with (path := [PathGraph.mkPathGraphEdge (t_address tIn)
                                          (t_address tOut) lbl]) in Hloop;
    [|by destruct Hcfg as (_ & _ & _ & _ & ?) | by rewrite Hmaxp | exact Htr].
  destruct Hloop as [l Hl]. rewrite Hl in Hmap. simpl in Hmap.
  apply result_bind_Ok in Hmap as (rest & _ & [= <-]).
  eexists (search_fuel pg), _, rest. split; [|split].
  - intros fuel Hfuel. unfold findPaths. rewrite Hbuild. simpl. by apply Hfound.
  - unfold tokenAddresses. simpl. by rewrite <- Hlv, <- Hlw, Hv, Hw.
  - simpl. rewrite Hreg. eexists. split; [done|].
    rewrite Hpam in Hreg. by apply keyBy_address_lookup in Hreg as [? _].
Qed.

Lemma findPaths_direct_pair_witness :
  exists n fp rest,
    (forall fuel, n <= fuel ->
       findPaths [Examples.poolAB; Examples.poolAB2; Examples.poolBC] (Some 1%Z) fuel
         Examples.tokB Examples.tokC Examples.defaultConfig = Ok (fp :: rest))
    /\ tokenAddresses fp = ["0xB"; "0xC"]
    /\ exists pool, PathGraph.fp_pools fp = [Some pool]
                    /\ pool ∈ [Examples.poolAB; Examples.poolAB2; Examples.poolBC].
Proof.
  apply (findPaths_direct_pair [Examples.poolAB; Examples.poolAB2; Examples.poolBC]
           (Some 1%Z) Examples.tokB Examples.tokC Examples.defaultConfig).
  - by apply plain_addresses_check.
  - simpl. lia.
  - by repeat split.
  - exists Examples.poolBC, 0, 1, (Examples.amount Examples.tokB 1000),
      (Examples.amount Examples.tokC 1000).
    split; [set_solver | by repeat split].
  - discriminate.
Defined.

(** ** The checks of the traversal *)

(** The token path check only ever turns from passing to failing as the
    token path grows: a token path that fails it has no extension that
    passes, so the traversal loses nothing by abandoning it. *)
Theorem isValidTokenPath_extension (pg : PathGraph.PathGraph)
    (config : PathGraph.PathGraphTraversalConfig) (tIn tOut : string)
    (tokenPath extension : list string) :
  PathGraph.isValidTokenPath pg tokenPath config tIn tOut = false ->
  PathGraph.isValidTokenPath pg (tokenPath ++ extension) config tIn tOut = false.
Proof.
  unfold PathGraph.isValidTokenPath.
  rewrite !filter_app, !length_app.
  set (n := length tokenPath). set (m := length extension).
  set (h := length (filter _ (filter _ tokenPath))).
  set (k := length (filter _ (filter _ extension))).
  set (b := length (filter (PathGraph.isPoolAddress pg) tokenPath)).
  set (c := length (filter (PathGraph.isPoolAddress pg) extension)).
  intros H.
  repeat match type of H with
         | context [bool_decide ?P] => destruct (bool_decide P) eqn:?; simpl in H
         end; try done;
  repeat match goal with
         | E : bool_decide _ = true |- _ => apply bool_decide_eq_true in E
         | E : bool_decide _ = false |- _ => apply bool_decide_eq_false in E
         end;
  repeat case_bool_decide; simpl; try done; lia.
Qed.

Lemma isValidTokenPath_extension_witness :
  PathGraph.isValidTokenPath Examples.pgABCP ["0xA"; "0xB"; "0xC"; "0xD"; "0xP"]
    (PathGraph.applyDefaults Examples.defaultConfig) "0xA" "0xZ" = false.
Proof.
  apply (isValidTokenPath_extension Examples.pgABCP _ "0xA" "0xZ" ["0xA"; "0xB"; "0xC"; "0xD"]
           ["0xP"]).
  vm_compute. reflexivity.
Defined.

Section BuildPathOutcome.
Import PathGraph Graphlib.
Context (g : Graph PathGraphEdgeLabel) (idx : nat).

Lemma outEdges_keys a b out e :
  outEdges g a b = Some out -> e ∈ out -> e ∈ (g_edges g).*1.
Proof.
  unfold outEdges. destruct (hasNode g a); [|done]. intros [= <-].
  case_decide.
  - by intros [_ ?]%list_elem_of_filter.
  - by intros [_ [_ ?]%list_elem_of_filter]%list_elem_of_filter.
Qed.

Lemma hop_edges_cons a b rest :
  hop_edges g (a :: b :: rest) = default [] (outEdges g a b) :: hop_edges g (b :: rest).
Proof. reflexivity. Qed.

Lemma chosen_edge_None out : chosen_edge idx out = None <-> out = [].
Proof.
  unfold chosen_edge. split; [|by intros ->; destruct idx].
  destruct (out !! idx) as [e|] eqn:E; simpl; [done|]. by destruct out.
Qed.

Lemma chosen_edge_elem out e : chosen_edge idx out = Some e -> e ∈ out.
Proof.
  unfold chosen_edge. destruct (out !! idx) as [e1|] eqn:E1; simpl.
  - intros [= <-]. by eapply list_elem_of_lookup_2.
  - intros H. by eapply list_elem_of_lookup_2.
Qed.

Lemma buildPath_loop_outcome : forall tp u,
  ([] ∈ hop_edges g tp -> buildPath_loop g tp idx u = Err TypeError)
  /\ ([] ∉ hop_edges g tp ->
      exists path,
        buildPath_loop g tp idx u
        = Ok (path, u || bool_decide (Exists (fun out => idx < length out) (hop_edges g tp)))
        /\ tokenIn <$> path = (zip tp (tail tp)).*1
        /\ tokenOut <$> path = (zip tp (tail tp)).*2
        /\ Forall2 (fun s out => exists e, chosen_edge idx out = Some e
                                           /\ edge g e = Some (label s))
                   path (hop_edges g tp)).
Proof.
  induction tp as [|a tp IH]; intros u.
  { split; [by intros ?%elem_of_nil|]. intros _. exists [].
    split; [|repeat split; constructor]. cbn [buildPath_loop]. do 2 f_equal.
    destruct u; [done|]. symmetry. apply bool_decide_eq_false_2. by intros ?%Exists_nil. }
  destruct tp as [|b rest].
  { split; [by intros ?%elem_of_nil|]. intros _. exists [].
    split; [|repeat split; constructor]. cbn [buildPath_loop]. do 2 f_equal.
    destruct u; [done|]. symmetry. apply bool_decide_eq_false_2. by intros ?%Exists_nil. }
  rewrite buildPath_loop_cons, hop_edges_cons.
  set (out := default [] (outEdges g a b)).
  fold (chosen_edge idx out).
  destruct (chosen_edge idx out) as [e|] eqn:Ee.
  - assert (out <> []) as Hne by (intros H%chosen_edge_None; congruence).
    assert (e ∈ (g_edges g).*1) as He.
    { apply chosen_edge_elem in Ee. unfold out in Ee.
      destruct (outEdges g a b) as [o|] eqn:Eo; [|by apply elem_of_nil in Ee].
      by eapply outEdges_keys. }
    destruct (edge_label_is_Some e _ He) as [lbl Hlbl].
    assert (edge g e = Some lbl) as Hedge by exact Hlbl. rewrite !Hedge.
    destruct (IH (if decide (idx < length out) then true else u)) as [IHerr IHok].
    split.
    + intros [Hnil|Hin]%elem_of_cons; [done|]. by rewrite IHerr.
    + intros Hnotin. destruct IHok as (path & -> & Hin & Hout & Hall).
      { intros ?. apply Hnotin. by right. }
      simpl. eexists. split; [|split; [|split]].
      * do 2 f_equal.
        destruct (decide (idx < length out)) as [Hlt|Hge].
        -- rewrite (bool_decide_eq_true_2 (Exists _ (out :: _))) by (by left).
           by rewrite orb_true_r.
        -- f_equal. apply bool_decide_ext. split; [by right|].
           by intros [?|?]%Exists_cons.
      * by rewrite fmap_cons, Hin.
      * by rewrite fmap_cons, Hout.
      * constructor; [|done]. exists e. done.
  - apply chosen_edge_None in Ee. split; [done|]. intros Hnotin.
    destruct Hnotin. rewrite Ee. by left.
Qed.
End BuildPathOutcome.

(** [buildPath] fails with a [TypeError] exactly when two consecutive
    tokens of the token path have no edge between them.  Otherwise it takes
    for each hop the edge at [tokenPairIndex], or the first edge where the
    hop has fewer edges, and returns these segments when some hop has more
    than [tokenPairIndex] edges and [null] when none has. *)
Theorem buildPath_outcome (g : Graphlib.Graph PathGraph.PathGraphEdgeLabel)
    (tokenPath : list string) (tokenPairIndex : nat) :
  ([] ∈ hop_edges g tokenPath ->
   PathGraph.buildPath g tokenPath tokenPairIndex = Err TypeError)
  /\ ([] ∉ hop_edges g tokenPath ->
      exists path,
        PathGraph.buildPath g tokenPath tokenPairIndex
        = Ok (if decide (Exists (fun out => tokenPairIndex < length out)
                           (hop_edges g tokenPath))
              then Some path else None)
        /\ PathGraph.tokenIn <$> path = (zip tokenPath (tail tokenPath)).*1
        /\ PathGraph.tokenOut <$> path = (zip tokenPath (tail tokenPath)).*2
        /\ Forall2 (fun s out =>
                      exists e, chosen_edge tokenPairIndex out = Some e
                                /\ Graphlib.edge g e = Some (PathGraph.label s))
                   path (hop_edges g tokenPath)).
Proof.
  destruct (buildPath_loop_outcome g tokenPairIndex tokenPath false) as [Herr Hok].
  unfold PathGraph.buildPath. split.
  - intros H. by rewrite Herr.
  - intros H. destruct (Hok H) as (path & -> & Hin & Hout & Hall).
    exists path. split; [|done]. simpl. by case_decide; case_bool_decide.
Qed.

Lemma buildPath_outcome_witness :
  PathGraph.buildPath (PathGraph.graph Examples.pgAB3) ["0xA"; "0xB"] 2 = Ok None
  /\ PathGraph.buildPath (PathGraph.graph Examples.pgAB3) ["0xA"; "0xC"] 0 = Err TypeError.
Proof.
  split.
  - destruct (proj2 (buildPath_outcome (PathGraph.graph Examples.pgAB3) ["0xA"; "0xB"] 2))
      as (path & -> & _).
    + vm_compute. by intros [[=]|[]%elem_of_nil]%elem_of_cons.
    + rewrite decide_False; [done|]. vm_compute.
      intros [H|[]%Exists_nil]%Exists_cons. lia.
  - apply (proj1 (buildPath_outcome (PathGraph.graph Examples.pgAB3) ["0xA"; "0xC"] 0)).
    vm_compute. by left.
Defined.

(** ** The sorted pool pair map *)

Section PoolPairGroups.
Import PathGraph.

Lemma pm_push_elem id it (m : PoolPairMap) k items :
  (k, items) ∈ pm_push id it m ->
  exists items0, (k, items0) ∈ m
                 /\ items = if decide (k = id) then items0 ++ [it] else items0.
Proof.
  unfold pm_push. intros ([k' items'] & Heq & Hin)%list_elem_of_fmap. simpl in Heq.
  exists items'. case_decide; simplify_eq/=.
  - split; [done|]. by rewrite decide_True.
  - split; [done|]. by rewrite decide_False.
Qed.

Lemma pm_init_elem_of id (m : PoolPairMap) k items :
  (k, items) ∈ pm_init id m -> (k, items) ∈ m \/ (k = id /\ items = []).
Proof.
  unfold pm_init. case_decide; [by left|].
  intros [?|[= -> ->]%list_elem_of_singleton]%elem_of_app; [by left | by right].
Qed.

Lemma add_pool_pair_nonempty pool (m : PoolPairMap) tij :
  (forall k items, (k, items) ∈ m -> items <> []) ->
  forall k items, (k, items) ∈ add_pool_pair pool m tij -> items <> [].
Proof.
  destruct tij as [ti tj]. unfold add_pool_pair. intros Hm k items Hin.
  apply pm_push_elem in Hin as (items1 & Hin & ->).
  apply pm_push_elem in Hin as (items0 & Hin & ->).
  destruct (decide (k = pair_id tj ti)) as [->|Hne1]; [by destruct (decide _), items0|].
  destruct (decide (k = pair_id ti tj)) as [->|Hne2]; [by destruct items0|].
  apply pm_init_elem_of in Hin as [Hin|[? _]]; [|done].
  apply pm_init_elem_of in Hin as [Hin|[? _]]; [|done].
  by eapply Hm.
Qed.

Lemma collectPoolPairs_nonempty pools k items :
  (k, items) ∈ collectPoolPairs pools -> items <> [].
Proof.
  revert k items. unfold collectPoolPairs.
  apply (foldl_invariant (fun m : PoolPairMap => forall k items, (k, items) ∈ m -> items <> [])).
  - intros m pool _ Hm.
    apply (foldl_invariant
             (fun m : PoolPairMap => forall k items, (k, items) ∈ m -> items <> [])); [|done].
    intros m' tij _. apply add_pool_pair_nonempty.
  - by intros k items ?%elem_of_nil.
Qed.
End PoolPairGroups.

(** [buildSortedPoolPairMap] has one group per key and no empty group; the
    group of a key holds exactly the pairs of member tokens at two
    different positions of a pool of the snapshot whose addresses make up
    the key, each with the pool's liquidity for the pair in this direction;
    and every group is ordered by descending liquidity, taken as a
    [number]. *)
Theorem buildSortedPoolPairMap_spec (pools : list Pool) :
  NoDup (PathGraph.buildSortedPoolPairMap pools).*1
  /\ (forall k item,
        in_group (PathGraph.buildSortedPoolPairMap pools) k item
        <-> exists p i j ti tj,
              p ∈ pools /\ i <> j
              /\ p_tokens p !! i = Some ti /\ p_tokens p !! j = Some tj
              /\ k = t_address (ta_token ti) +:+ "-" +:+ t_address (ta_token tj)
              /\ item = PathGraph.mkPoolPairItem
                          (PathGraph.mkPoolTokenPair k p (ta_token ti) (ta_token tj))
                          (getNormalizedLiquidity p (ta_token ti) (ta_token tj)))
  /\ (forall k items,
        (k, items) ∈ PathGraph.buildSortedPoolPairMap pools ->
        items <> []
        /\ forall i j x y,
             items !! i = Some x -> items !! j = Some y -> i <= j ->
             (Number_of_bigint (PathGraph.item_normalizedLiquidity y)
              <= Number_of_bigint (PathGraph.item_normalizedLiquidity x))%Z).
Proof.
  split; [apply buildSortedPoolPairMap_NoDup|]. split.
  - intros k item. split.
    + intros (items & Hin & Hitem).
      destruct (group_item_positions pools k items item Hin Hitem)
        as (p & i & j & ti & tj & ? & ? & ? & ? & -> & ->).
      exists p, i, j, ti, tj. done.
    + intros (p & i & j & ti & tj & Hp & Hij & Hi & Hj & -> & ->).
      by apply (pair_in_group pools p i j ti tj).
  - intros k items Hin. split.
    + unfold PathGraph.buildSortedPoolPairMap in Hin.
      apply list_elem_of_fmap in Hin as ([k' items'] & [= -> ->] & Hin). simpl.
      apply collectPoolPairs_nonempty in Hin. intros Hnil. apply Hin.
      apply Permutation_nil_r. rewrite <- Hnil. symmetry. apply orderBy_desc_perm.
    + intros i j x y Hi Hj Hij.
      by eapply (buildSortedPoolPairMap_ranked pools k items i j).
Qed.

(** ** Pools are not reused before a relaxation *)

Section PoolReuse.
Import PathGraph Graphlib.





End PoolReuse.



(** ** Path ids *)

Section PathIds.
Import PathGraph.

Lemma lacks_app c (a b : string) : lacks c (a +:+ b) = lacks c a && lacks c b.
Proof. induction a as [|c' a IH]; simpl; [done|]. by rewrite IH, andb_assoc. Qed.

Lemma append_sep_inj c (a a' b b' : string) :
  lacks c a = true -> lacks c a' = true ->
  a +:+ String c b = a' +:+ String c b' -> a = a' /\ b = b'.
Proof.
  revert a'. induction a as [|x a IH]; intros [|x' a']; simpl.
  - intros _ _ [= H]. by subst.
  - intros _ [Hc _]%andb_true_iff [= Hcc _]. subst x'.
    by rewrite Ascii.eqb_refl in Hc.
  - intros [Hc _]%andb_true_iff _ [= Hcc _]. subst x.
    by rewrite Ascii.eqb_refl in Hc.
  - intros [_ Ha]%andb_true_iff [_ Ha']%andb_true_iff [= Hcc H]. subst x'.
    destruct (IH a' Ha Ha' H) as [Ha1 Hb]. by subst.
Qed.

Lemma concat_sep_inj c (l l' : list string) :
  Forall (fun x => lacks c x = true /\ x <> "") l ->
  Forall (fun x => lacks c x = true /\ x <> "") l' ->
  String.concat (String c "") l = String.concat (String c "") l' -> l = l'.
Proof.
  intros Hl. revert l'. induction Hl as [|x l [Hx Hne] Hl IH]; intros l' Hl'.
  - destruct Hl' as [|x' l' [Hx' Hne'] Hl']; [done|]. simpl.
    destruct l'; [by intros <-|].
    destruct x'; [done | by intros [=]].
  - destruct Hl' as [|x' l' [Hx' Hne'] Hl'].
    { simpl. destruct l; [by intros -> |]. destruct x; [done | by intros [=]]. }
    destruct l as [|y l], l' as [|y' l'].
    + simpl. by intros ->.
    + cbn [String.concat]. intros ->. exfalso.
      rewrite lacks_app in Hx. apply andb_true_iff in Hx as [_ Hx].
      simpl in Hx. by rewrite Ascii.eqb_refl in Hx.
    + cbn [String.concat]. intros <-. exfalso.
      rewrite lacks_app in Hx'. apply andb_true_iff in Hx' as [_ Hx'].
      simpl in Hx'. by rewrite Ascii.eqb_refl in Hx'.
    + change (String.concat (String c "") (x :: y :: l))
        with (x +:+ String c (String.concat (String c "") (y :: l))).
      change (String.concat (String c "") (x' :: y' :: l'))
        with (x' +:+ String c (String.concat (String c "") (y' :: l'))).
      intros [-> Hrest]%append_sep_inj; [|done|done].
      f_equal. by apply IH.
Qed.

Lemma segment_id_inj s s' :
  plain_segment s -> plain_segment s' ->
  segment_id s = segment_id s' -> segment_key s = segment_key s'.
Proof.
  intros (Hp & Ha & _) (Hp' & Ha' & _). unfold segment_id, segment_key.
  change ("-" +:+ ?x) with (String "-" x).
  intros [-> H]%append_sep_inj; [|done|done].
  apply append_sep_inj in H as [-> ->]; done.
Qed.

Lemma segment_id_plain s :
  plain_segment s -> lacks "_" (segment_id s) = true /\ segment_id s <> "".
Proof.
  intros (_ & _ & Hp & Ha & Hb). unfold segment_id. split.
  - rewrite !lacks_app, Hp, Ha, Hb. done.
  - destruct (poolId (label s)); done.
Qed.
End PathIds.

(** On paths whose pool ids and token addresses hold neither ['-'] nor
    ['_'], [getIdForPath] is injective: two paths with the same id have the
    same pool ids and token addresses, hop by hop.  The search therefore
    never takes two such paths for one. *)
Theorem getIdForPath_injective (path path' : list PathGraph.PathGraphEdge) :
  Forall plain_segment path -> Forall plain_segment path' ->
  PathGraph.getIdForPath path = PathGraph.getIdForPath path' ->
  segment_key <$> path = segment_key <$> path'.
Proof.
  intros Hp Hp' Heq. unfold PathGraph.getIdForPath in Heq.
  apply (concat_sep_inj "_") in Heq.
  - revert path' Hp' Heq. induction Hp as [|s path Hs Hp IH]; intros [|s' path'] Hp' Heq;
      try done.
    apply Forall_cons in Hp' as [Hs' Hp']. rewrite !fmap_cons in Heq.
    injection Heq as Hid Hrest. rewrite !fmap_cons.
    f_equal; [by apply segment_id_inj | by apply IH].
  - apply Forall_fmap. eapply Forall_impl; [exact Hp|]. intros s. apply segment_id_plain.
  - apply Forall_fmap. eapply Forall_impl; [exact Hp'|]. intros s. apply segment_id_plain.
Qed.

Lemma getIdForPath_injective_witness :
  let seg := PathGraph.mkPathGraphEdge "0xA" "0xB"
               (PathGraph.mkLabel "0x01" "0x1"
                  (PathGraph.mkPoolTokenPair "0xA-0xB" Examples.poolAB Examples.tokA
                     Examples.tokB) 100 false) in
  PathGraph.getIdForPath [seg] = "0x01-0xA-0xB"
  /\ segment_key <$> [seg] = [("0x01", "0xA", "0xB")].
Proof.
  intros seg. split; [reflexivity|].
  apply (getIdForPath_injective [seg] [seg]); [| |done];
    repeat constructor.
Defined.

(** [filterVolatilePools] keeps the addresses of the [Weighted] pools, in
    order, when every address is the address of a pool of the graph; it
    throws a [TypeError] as soon as one address is not. *)
Theorem filterVolatilePools_outcome (pg : PathGraph.PathGraph) (poolAddresses : list string) :
  ((forall a, a ∈ poolAddresses -> PathGraph.isPoolAddress pg a) ->
   PathGraph.filterVolatilePools pg poolAddresses = Ok (weightedPools pg poolAddresses))
  /\ ((exists a, a ∈ poolAddresses /\ ~ PathGraph.isPoolAddress pg a) ->
      PathGraph.filterVolatilePools pg poolAddresses = Err TypeError).
Proof.
  split; [apply filterVolatilePools_spec|].
  induction poolAddresses as [|a l IH]; intros (x & Hx & Hno); [by apply elem_of_nil in Hx|].
  simpl. destruct (PathGraph.poolAddressMap pg !! a) as [pool|] eqn:E; [|done].
  apply elem_of_cons in Hx as [->|Hx].
  - destruct Hno. unfold PathGraph.isPoolAddress. by rewrite E.
  - rewrite IH; [done|]. by exists x.
Qed.

Lemma filterVolatilePools_outcome_witness :
  PathGraph.filterVolatilePools Examples.pgAB3 ["0x1"; "0xdead"] = Err TypeError.
Proof.
  apply (proj2 (filterVolatilePools_outcome Examples.pgAB3 ["0x1"; "0xdead"])).
  exists "0xdead". split; [set_solver|]. vm_compute. by intros [? [=]].
Defined.

(** ** The user data of a weighted pool *)

Section AbiFacts.
Import Abi.

Lemma encodeNumber_Ok z : uint256 z -> encodeNumber z = Ok z.
Proof. intros H. unfold encodeNumber. by rewrite bool_decide_eq_true_2. Qed.

Lemma encodeNumber_Err z : ~ uint256 z -> encodeNumber z = Err IntegerOutOfRangeError.
Proof. intros H. unfold encodeNumber. by rewrite bool_decide_eq_false_2. Qed.

Lemma mapM_encodeNumber_Ok l : Forall uint256 l -> mapM encodeNumber l = Ok l.
Proof.
  induction 1 as [|z l Hz Hl IH]; [done|]. simpl.
  rewrite encodeNumber_Ok by done. simpl. by rewrite IH.
Qed.

Lemma mapM_encodeNumber_Err l :
  ~ Forall uint256 l -> mapM encodeNumber l = Err IntegerOutOfRangeError.
Proof.
  induction l as [|z l IH]; intros H; [destruct H; constructor|]. simpl.
  destruct (decide (uint256 z)) as [Hz|Hz].
  - rewrite encodeNumber_Ok by done. simpl. rewrite IH; [done|].
    intros Hl. apply H. by constructor.
  - by rewrite encodeNumber_Err.
Qed.

Lemma Forall_uint256_app l m : Forall uint256 (l ++ [m]) <-> Forall uint256 l /\ uint256 m.
Proof.
  rewrite Forall_app. split; intros [? H]; split; try done.
  - by inversion H.
  - by constructor.
Qed.
End AbiFacts.

Section EncoderLayout.
Import Abi WeightedEncoder.
Local Arguments encodeNumber : simpl never.

Lemma uint256_small z : (0 <= z <= 96)%Z -> uint256 z.
Proof. unfold uint256. intros H. split; [lia|]. eapply Z.le_lt_trans; [apply H | done]. Qed.

Lemma add_layout (c : AddLiquidityCall) :
  (Forall uint256 (add_numbers c) -> encodeAdd c = Ok (add_words c))
  /\ (~ Forall uint256 (add_numbers c) -> encodeAdd c = Err IntegerOutOfRangeError).
Proof.
  destruct c as [a|a m|b i|b]; cbn [encodeAdd add_numbers add_words];
    unfold addLiquidityInit, addLiquidityUnbalanced, addLiquiditySingleToken,
      addLiquidityProportional, encodeAbiParameters;
    cbn [mapM prepareParam];
    rewrite (encodeNumber_Ok (joinKind _)) by (apply uint256_small; simpl; lia);
    simpl.
  - split; intros H.
    + rewrite mapM_encodeNumber_Ok by done. simpl. unfold encodeParams, tails, head_size. simpl.
      by rewrite app_nil_r.
    + by rewrite mapM_encodeNumber_Err.
  - rewrite Forall_uint256_app. split.
    + intros [Ha Hm]. rewrite mapM_encodeNumber_Ok by done. simpl.
      rewrite encodeNumber_Ok by done. simpl. unfold encodeParams, tails, head_size. simpl.
      by rewrite app_nil_r.
    + intros H. destruct (decide (Forall uint256 a)) as [Ha|Ha].
      * rewrite mapM_encodeNumber_Ok by done. simpl.
        rewrite encodeNumber_Err; [done|]. tauto.
      * by rewrite mapM_encodeNumber_Err.
  - split.
    + intros [Hb [Hi _]%Forall_cons]%Forall_cons.
      by rewrite !encodeNumber_Ok.
    + intros H. destruct (decide (uint256 b)) as [Hb|Hb].
      * rewrite (encodeNumber_Ok b) by done. simpl.
        rewrite encodeNumber_Err; [done|]. intros Hi. apply H.
        constructor; [done|]. constructor; [done|]. constructor.
      * by rewrite (encodeNumber_Err b).
  - split.
    + intros [Hb _]%Forall_cons. by rewrite !encodeNumber_Ok.
    + intros H. rewrite encodeNumber_Err; [done|]. intros Hb. apply H.
      constructor; [done|]. constructor.
Qed.

Lemma remove_layout (c : RemoveLiquidityCall) :
  (Forall uint256 (remove_numbers c) -> encodeRemove c = Ok (remove_words c))
  /\ (~ Forall uint256 (remove_numbers c) -> encodeRemove c = Err IntegerOutOfRangeError).
Proof.
  destruct c as [b i|b|a m]; cbn [encodeRemove remove_numbers remove_words];
    unfold removeLiquiditySingleToken, removeLiquidityProportional,
      removeLiquidityUnbalanced, encodeAbiParameters;
    cbn [mapM prepareParam];
    rewrite (encodeNumber_Ok (exitKind _)) by (apply uint256_small; simpl; lia);
    simpl.
  - split.
    + intros [Hb [Hi _]%Forall_cons]%Forall_cons.
      by rewrite !encodeNumber_Ok.
    + intros H. destruct (decide (uint256 b)) as [Hb|Hb].
      * rewrite (encodeNumber_Ok b) by done. simpl.
        rewrite encodeNumber_Err; [done|]. intros Hi. apply H.
        constructor; [done|]. constructor; [done|]. constructor.
      * by rewrite (encodeNumber_Err b).
  - split.
    + intros [Hb _]%Forall_cons. by rewrite !encodeNumber_Ok.
    + intros H. rewrite encodeNumber_Err; [done|]. intros Hb. apply H.
      constructor; [done|]. constructor.
  - rewrite Forall_uint256_app. split.
    + intros [Ha Hm]. rewrite mapM_encodeNumber_Ok by done. simpl.
      rewrite encodeNumber_Ok by done. simpl. unfold encodeParams, tails, head_size. simpl.
      by rewrite app_nil_r.
    + intros H. destruct (decide (Forall uint256 a)) as [Ha|Ha].
      * rewrite mapM_encodeNumber_Ok by done. simpl.
        rewrite encodeNumber_Err; [done|]. tauto.
      * by rewrite mapM_encodeNumber_Err.
Qed.

Lemma encodeAdd_words c w : encodeAdd c = Ok w -> w = add_words c.
Proof.
  intros H. destruct (decide (Forall uint256 (add_numbers c))) as [Hr|Hr].
  - rewrite (proj1 (add_layout c) Hr) in H. by injection H.
  - by rewrite (proj2 (add_layout c) Hr) in H.
Qed.

Lemma encodeRemove_words c w : encodeRemove c = Ok w -> w = remove_words c.
Proof.
  intros H. destruct (decide (Forall uint256 (remove_numbers c))) as [Hr|Hr].
  - rewrite (proj1 (remove_layout c) Hr) in H. by injection H.
  - by rewrite (proj2 (remove_layout c) Hr) in H.
Qed.
End EncoderLayout.

(** Each encoder of the user data of a weighted pool returns, when all the
    numbers it is given fit [uint256], the words of the ABI encoding: the
    kind first; then the numbers themselves when all parameters are single
    numbers, or, where an array of amounts is passed, the offset of the
    array data (64 or 96 bytes), the other number if there is one, the
    length of the array and its elements.  When one of the numbers is
    negative or not below [2^256] the encoder throws
    [IntegerOutOfRangeError]. *)
Theorem WeightedEncoder_layout (add : AddLiquidityCall) (remove : RemoveLiquidityCall) :
  (Forall uint256 (add_numbers add) -> encodeAdd add = Ok (add_words add))
  /\ (~ Forall uint256 (add_numbers add) -> encodeAdd add = Err Abi.IntegerOutOfRangeError)
  /\ (Forall uint256 (remove_numbers remove) -> encodeRemove remove = Ok (remove_words remove))
  /\ (~ Forall uint256 (remove_numbers remove) ->
       encodeRemove remove = Err Abi.IntegerOutOfRangeError).
Proof.
  destruct (add_layout add), (remove_layout remove). done.
Qed.

Lemma WeightedEncoder_layout_witness :
  WeightedEncoder.addLiquidityUnbalanced [5; 7]%Z 3%Z = Ok [1; 96; 3; 2; 5; 7]%Z
  /\ WeightedEncoder.removeLiquiditySingleToken 9%Z (-1)%Z = Err Abi.IntegerOutOfRangeError.
Proof.
  split.
  - apply (proj1 (WeightedEncoder_layout (CallUnbalanced [5; 7]%Z 3%Z)
                    (CallRemoveProportional 0%Z))).
    repeat constructor; done.
  - apply (proj2 (proj2 (proj2 (WeightedEncoder_layout (CallProportional 0%Z)
                                  (CallRemoveSingleToken 9%Z (-1)%Z))))).
    intros [_ [[H _] _]%Forall_cons]%Forall_cons. done.
Defined.

(** The user data tells the call: two calls of the add-liquidity encoders
    that return the same user data are the same call, of the same encoder
    with the same numbers, and likewise for the remove-liquidity
    encoders. *)
Theorem WeightedEncoder_injective :
  (forall c c' w, encodeAdd c = Ok w -> encodeAdd c' = Ok w -> c = c')
  /\ (forall c c' w, encodeRemove c = Ok w -> encodeRemove c' = Ok w -> c = c').
Proof.
  split.
  - intros c c' w H%encodeAdd_words H'%encodeAdd_words. subst w.
    destruct c, c'; simpl in H'; by simplify_eq.
  - intros c c' w H%encodeRemove_words H'%encodeRemove_words. subst w.
    destruct c, c'; simpl in H'; by simplify_eq.
Qed.

Lemma WeightedEncoder_injective_witness :
  encodeAdd (CallSingleToken 7 1) = Ok [2; 7; 1]%Z
  /\ CallSingleToken 7 1 = CallSingleToken 7 1.
Proof.
  split; [reflexivity|].
  apply (proj1 WeightedEncoder_injective _ _ [2; 7; 1]%Z); reflexivity.
Defined.
